(** * Density-grid aggregation of the grid layer (grid-aggregator.js)

    A shallow embedding of [src/layers/core/grid-layer/grid-aggregator.js].

    JavaScript Numbers are IEEE 754 binary64 values: they are modelled by
    Rocq's primitive floats, so every arithmetic step of the source rounds
    exactly as it does in an engine, and NaN, the infinities and the two
    zeros behave as they do there.  The built-ins the source calls
    ([Math.floor], [Math.min], [Math.max], number to string conversion,
    [String.prototype.split], [parseInt]) are modelled after ECMA-262 in
    module [JS].  [Math.cos] is implementation-approximated in ECMA-262, so
    the development is parametric in it.

    The accessor [getPosition] is a pure function from point records to
    arrays of Numbers.  The number of arguments that
    [Function.prototype.apply] passes is a limit of the engine: the
    functions of the model give the result of a call that returns, and the
    calls that throw a [RangeError] beyond that limit are modelled beside
    them, with the limit as a parameter.  Memory is not modelled.

    The file has three parts: the model (built-ins, then the source,
    function by function), the notions the statements use, and the
    facts. *)

From Stdlib Require Import Floats ZArith String Ascii List Bool Lia.
From Stdlib Require Import Permutation DecimalString.
From Stdlib Require DecimalPos DecimalFacts.
Import ListNotations.

Set Implicit Arguments.
Set Warnings "-inexact-float".
Set Warnings "-abstract-large-number".

(* ===================================================================== *)
(** * Part I.  The model *)
(* ===================================================================== *)

(* ===================================================================== *)
(** * ECMAScript built-ins used by the source *)
(* ===================================================================== *)

Module JS.

Local Open Scope float_scope.

(** The Number value of [Math.PI]. *)
Definition Math_PI : float := 0x1.921fb54442d18p+1.

(** ** Classification of Numbers *)

Definition is_neg_zero (x : float) : bool := is_zero x && get_sign x.
Definition is_pos_zero (x : float) : bool := is_zero x && negb (get_sign x).

(** [x] is an integral Number: finite, with no fractional part. *)
Definition is_integral (x : float) : bool :=
  match Prim2SF x with
  | S754_zero _ => true
  | S754_finite _ m e =>
      ((0 <=? e) || (Z.pos m mod 2 ^ (- e) =? 0))%Z
  | _ => false
  end.

(** The Number value of a mathematical integer (round to nearest, ties
    to even); the zero it yields is [+0]. *)
Definition Number_of_Z (z : Z) : float :=
  SF2Prim (binary_normalize prec emax z 0 false).

(** ** [Math.floor] (ECMA-262, 21.3.2.16)

    1. If n is not finite or n is either +0 or -0, return n.
    2. If n < 1 and n > +0, return +0.
    3. If n is an integral Number, return n.
    4. Return the greatest integral Number that is not greater than n. *)
Definition Math_floor (n : float) : float :=
  match Prim2SF n with
  | S754_finite s m e =>
      if is_integral n then n
      else
        (* here e < 0 and |n| < 2^53: the floor is exactly representable *)
        let q := (Z.pos m / 2 ^ (- e))%Z in
        if s then - Number_of_Z (q + 1) else Number_of_Z q
  | _ => n
  end.

(** ** [Math.min] and [Math.max] (ECMA-262, 21.3.2.25 and 21.3.2.24)

    The loops start from +Infinity (resp. -Infinity), return NaN as soon
    as an argument is NaN, and order -0 below +0. *)
Fixpoint min_loop (lowest : float) (coerced : list float) : float :=
  match coerced with
  | [] => lowest
  | number :: rest =>
      if is_nan number then nan
      else
        let lowest1 :=
          if is_neg_zero number && is_pos_zero lowest then number
          else lowest in
        let lowest2 := if number <? lowest1 then number else lowest1 in
        min_loop lowest2 rest
  end.

Definition Math_min (args : list float) : float := min_loop infinity args.

Fixpoint max_loop (highest : float) (coerced : list float) : float :=
  match coerced with
  | [] => highest
  | number :: rest =>
      if is_nan number then nan
      else
        let highest1 :=
          if is_pos_zero number && is_neg_zero highest then number
          else highest in
        let highest2 := if highest1 <? number then number else highest1 in
        max_loop highest2 rest
  end.

Definition Math_max (args : list float) : float :=
  max_loop neg_infinity args.

(** ** Reading an element of an array of Numbers

    [a[i]] is [undefined] past the end of the array, and every use the
    source makes of it converts it to a Number: ToNumber(undefined) is
    NaN. *)
Definition get_index (a : list float) (i : nat) : float := nth i a nan.

(** ** Number to String conversion (ECMA-262, 6.1.6.1.20, radix 10)

    For a finite [x > 0] the algorithm picks integers [n], [k], [s] with
    [k >= 1], [10^(k-1) <= s < 10^k], such that [s * 10^(n-k)] rounds to
    [x] and [k] is as small as possible; among several [s] the one
    closest to [x] wins, and the even one in case of a tie.  All tests
    below are exact comparisons of integers. *)

Local Open Scope Z_scope.

(** A positive finite binary64 value [m * 2^e], in units of [2^(e-2)]:
    the value is [4m], the upper end of its rounding interval is [4m+2],
    the lower end is [4m-2], or [4m-1] just above a power of two. *)
Record pos_finite := { pf_m : Z; pf_e : Z }.

Definition pf_val (x : pos_finite) : Z := 4 * pf_m x.
Definition pf_hi (x : pos_finite) : Z := 4 * pf_m x + 2.
Definition pf_lo (x : pos_finite) : Z :=
  if (pf_m x =? 2 ^ 52) && (- 1074 <? pf_e x)
  then 4 * pf_m x - 1 else 4 * pf_m x - 2.

(** Compares [s * 10^p] with [b * 2^(e-2)]. *)
Definition cmp_dec (x : pos_finite) (s p b : Z) : comparison :=
  (s * 10 ^ Z.max p 0 * 2 ^ Z.max (2 - pf_e x) 0
     ?= b * 10 ^ Z.max (- p) 0 * 2 ^ Z.max (pf_e x - 2) 0).

(** [s * 10^p] rounds to [x]. *)
Definition rounds_to (x : pos_finite) (s p : Z) : bool :=
  let incl := Z.even (pf_m x) in
  match cmp_dec x s p (pf_lo x), cmp_dec x s p (pf_hi x) with
  | Gt, Lt => true
  | Eq, _ => incl
  | _, Eq => incl
  | _, _ => false
  end.

(** [floor (x / 10^p)]. *)
Definition floor_scaled (x : pos_finite) (p : Z) : Z :=
  (pf_val x * 10 ^ Z.max (- p) 0 * 2 ^ Z.max (pf_e x - 2) 0)
    / (10 ^ Z.max p 0 * 2 ^ Z.max (2 - pf_e x) 0).

(** The decimal exponent of [x]: the [n] with [10^(n-1) <= x < 10^n]. *)
Fixpoint exp_down (fuel : nat) (x : pos_finite) (n : Z) : Z :=
  match fuel with
  | O => n
  | S fuel' =>
      match cmp_dec x 1 (n - 1) (pf_val x) with
      | Gt => exp_down fuel' x (n - 1)
      | _ => n
      end
  end.

Fixpoint exp_up (fuel : nat) (x : pos_finite) (n : Z) : Z :=
  match fuel with
  | O => n
  | S fuel' =>
      match cmp_dec x 1 n (pf_val x) with
      | Gt => n
      | _ => exp_up fuel' x (n + 1)
      end
  end.

Definition dec_exponent (x : pos_finite) : Z :=
  let est := ((Z.log2 (pf_m x) + pf_e x) * 1233) / 4096 in
  exp_up 700 x (exp_down 700 x est).

(** The candidates with [k] digits are the two multiples of [10^(n0-k)]
    around [x]. *)
Definition pick (x : pos_finite) (n0 k : Z) : option Z :=
  let p := n0 - k in
  let s1 := floor_scaled x p in
  let s2 := s1 + 1 in
  match rounds_to x s1 p, rounds_to x s2 p with
  | false, false => None
  | true, false => Some s1
  | false, true => Some s2
  | true, true =>
      match cmp_dec x (2 * s1 + 1) p (2 * pf_val x) with
      | Gt => Some s1
      | Lt => Some s2
      | Eq => Some (if Z.even s1 then s1 else s2)
      end
  end.

Fixpoint shortest (fuel : nat) (x : pos_finite) (n0 k : Z) : Z * Z * Z :=
  match fuel with
  | O => (pf_val x, k, n0)
  | S fuel' =>
      match pick x n0 k with
      | Some s =>
          if s =? 10 ^ k then (1, 1, n0 + 1)
          else if (s =? 0) then shortest fuel' x n0 (k + 1)
          else (s, k, n0)
      | None => shortest fuel' x n0 (k + 1)
      end
  end.

(** [(s, k, n)] of step 5 of the algorithm. *)
Definition digits_of (x : pos_finite) : Z * Z * Z :=
  shortest 17 x (dec_exponent x) 1.

Definition string_of_Z (z : Z) : string :=
  NilZero.string_of_int (Z.to_int z).

Fixpoint zeros (n : nat) : string :=
  match n with
  | O => EmptyString
  | S n' => String "0" (zeros n')
  end.

Local Open Scope string_scope.

Definition format_digits (s k n : Z) : string :=
  let d := string_of_Z s in
  if ((k <=? n) && (n <=? 21))%Z then
    d ++ zeros (Z.to_nat (n - k))
  else if ((0 <? n) && (n <=? 21))%Z then
    substring 0 (Z.to_nat n) d ++ "." ++
    substring (Z.to_nat n) (Z.to_nat (k - n)) d
  else if ((- 6 <? n) && (n <=? 0))%Z then
    "0." ++ zeros (Z.to_nat (- n)) ++ d
  else
    let e := (n - 1)%Z in
    let es := (if (e <? 0)%Z then "-" else "+") ++ string_of_Z (Z.abs e) in
    if (k =? 1)%Z then d ++ "e" ++ es
    else substring 0 1 d ++ "." ++ substring 1 (Z.to_nat (k - 1)) d
         ++ "e" ++ es.

Definition Number_toString (x : float) : string :=
  match Prim2SF x with
  | S754_nan => "NaN"
  | S754_zero _ => "0"
  | S754_infinity s => if s then "-Infinity" else "Infinity"
  | S754_finite sg m e =>
      let '(s, k, n) := digits_of {| pf_m := Z.pos m; pf_e := e |} in
      (if sg then "-" else "") ++ format_digits s k n
  end.

(** ** [String.prototype.split] with a one-character separator *)
Fixpoint String_split (sep : ascii) (s : string) : list string :=
  match s with
  | EmptyString => [EmptyString]
  | String c rest =>
      if Ascii.eqb c sep then EmptyString :: String_split sep rest
      else
        match String_split sep rest with
        | piece :: pieces => String c piece :: pieces
        | [] => [String c EmptyString]
        end
  end.

(** Reading an element of an array of Strings as the argument of
    [parseInt]: past the end it is [undefined], whose ToString is
    ["undefined"]. *)
Definition get_piece (a : list string) (i : nat) : string :=
  nth i a "undefined".

(** ** [parseInt (string, 10)] (ECMA-262, 19.2.5) *)

Definition is_white_space (c : ascii) : bool :=
  match nat_of_ascii c with
  | 9%nat | 10%nat | 11%nat | 12%nat | 13%nat | 32%nat | 160%nat => true
  | _ => false
  end.

Fixpoint trim_start (s : string) : string :=
  match s with
  | String c rest => if is_white_space c then trim_start rest else s
  | EmptyString => s
  end.

Definition digit_value (c : ascii) : option Z :=
  let n := nat_of_ascii c in
  if ((48 <=? n) && (n <=? 57))%nat then Some (Z.of_nat (n - 48)) else None.

(** The value of the longest prefix of decimal digits; [None] when that
    prefix is empty. *)
Fixpoint parse_digits (acc : option Z) (s : string) : option Z :=
  match s with
  | EmptyString => acc
  | String c rest =>
      match digit_value c with
      | Some d =>
          parse_digits
            (Some (10 * match acc with Some a => a | None => 0 end + d)%Z)
            rest
      | None => acc
      end
  end.

Definition parseInt10 (input : string) : float :=
  let trimmed := trim_start input in
  let '(negative, body) :=
    match trimmed with
    | String "-" rest => (true, rest)
    | String "+" rest => (false, rest)
    | _ => (false, trimmed)
    end in
  match parse_digits None body with
  | None => nan
  | Some mathInt =>
      if (mathInt =? 0)%Z then (if negative then (- 0)%float else 0%float)
      else Number_of_Z (if negative then - mathInt else mathInt)%Z
  end.

End JS.

(* ===================================================================== *)
(** * The source: grid-aggregator.js *)
(* ===================================================================== *)

Import JS.

(** [Array.prototype.reduce] with an initial value: the callback receives
    the accumulator, the element and its index. *)
Fixpoint reduce_from {A B : Type} (f : B -> A -> nat -> B)
         (l : list A) (i : nat) (accu : B) : B :=
  match l with
  | [] => accu
  | x :: rest => reduce_from f rest (S i) (f accu x i)
  end.

Definition Array_reduce {A B : Type} (f : B -> A -> nat -> B)
           (l : list A) (init : B) : B :=
  reduce_from f l 0 init.

(** The object [{yOffset, xOffset}] of [_calculateGridLatLonOffset]. *)
Record GridOffset := { yOffset : float; xOffset : float }.

(** A value of the grid hash: [{count, points}].  [count] is a Number that
    starts at 0 and grows by 1 for each point; it stays far below 2^53
    (an array holds fewer than 2^32 elements), where Number addition is
    exact, so it is modelled by an integer. *)
Module GridCell.
Record t (P : Type) := mk { count : Z; points : list P }.
End GridCell.

(** An element of [layerData]: [{index, position, count, points}]. *)
Module LayerDatum.
Record t (P : Type) :=
  mk { index : nat; position : float * float; count : Z; points : list P }.
End LayerDatum.

(** ** Objects used as hash tables

    The grid hash is a plain object whose keys are strings.  No key is an
    array index (each contains the character "-"), so [Object.keys]
    enumerates them in insertion order: the object is modelled by an
    association list in insertion order, without repeated keys. *)
Section Hash.
Variable V : Type.

Definition hash := list (string * V).

(** [accu[key]]: [None] stands for [undefined]. *)
Fixpoint hash_get (key : string) (h : hash) : option V :=
  match h with
  | [] => None
  | (k, v) :: rest => if String.eqb k key then Some v else hash_get key rest
  end.

(** [accu[key] = v]: an existing property keeps its place, a new one is
    added last. *)
Fixpoint hash_set (key : string) (v : V) (h : hash) : hash :=
  match h with
  | [] => [(key, v)]
  | (k, w) :: rest =>
      if String.eqb k key then (k, v) :: rest
      else (k, w) :: hash_set key v rest
  end.

Definition Object_keys (h : hash) : list string := map fst h.
End Hash.

Section GridAggregator.

(** [Math.cos] of the engine. *)
Variable Math_cos : float -> float.

(** The caller's point records. *)
Variable P : Type.

Local Open Scope float_scope.

Definition R_EARTH : float := 6378000.

(** with a given x-km change, calculate the increment of latitude *)
Definition _calculateLatOffset (dy : float) : float :=
  (dy / R_EARTH) * (180 / Math_PI).

(** with a given x-km change, and current latitude, calculate the
    increment of longitude *)
Definition _calculateLonOffset (lat dx : float) : float :=
  (dx / R_EARTH) * (180 / Math_PI) / Math_cos (lat * Math_PI / 180).

Definition _calculateGridLatLonOffset (cellSize latitude : float)
  : GridOffset :=
  let yOffset := _calculateLatOffset cellSize in
  let xOffset := _calculateLonOffset latitude cellSize in
  {| yOffset := yOffset; xOffset := xOffset |}.

(** The two indices of a position [[lon, lat]] and the key made of them,
    as the callback of [points.reduce] computes them. *)
Definition latIdx_of (gridOffset : GridOffset) (pos : list float) : float :=
  Math_floor ((get_index pos 1 + 90) / yOffset gridOffset).

Definition lonIdx_of (gridOffset : GridOffset) (pos : list float) : float :=
  Math_floor ((get_index pos 0 + 180) / xOffset gridOffset).

(** The template literal [`${latIdx}-${lonIdx}`]. *)
Definition make_key (latIdx lonIdx : float) : string :=
  (Number_toString latIdx ++ "-" ++ Number_toString lonIdx)%string.

Definition key_of (gridOffset : GridOffset) (pos : list float) : string :=
  make_key (latIdx_of gridOffset pos) (lonIdx_of gridOffset pos).

(** The callback of [points.reduce]. *)
Definition hash_point (getPosition : P -> list float)
           (gridOffset : GridOffset)
           (accu : hash (GridCell.t P)) (pt : P) (_ : nat)
  : hash (GridCell.t P) :=
  let key := key_of gridOffset (getPosition pt) in
  let cell :=
    match hash_get key accu with
    | Some c => c
    | None => GridCell.mk 0 []
    end in
  hash_set key
           (GridCell.mk (GridCell.count cell + 1)
                        (GridCell.points cell ++ [pt]))
           accu.

(** The reference latitude: the centre of the latitudes of the points.
    [Math.min.apply] and [Math.max.apply] pass the latitudes as the
    arguments of one call; this is the centre when both calls return
    (see [_pointsToGridHashing_call] for the calls themselves). *)
Definition centerLat_of (points : list P) (getPosition : P -> list float)
  : float :=
  let allLat := map (fun p => get_index (getPosition p) 1) points in
  let latMin := Math_min allLat in
  let latMax := Math_max allLat in
  (latMin + latMax) / 2.

Record GridHashing :=
  { gridHash : hash (GridCell.t P); gridOffset : GridOffset }.

(** Project points into each cell, return a hash table of cells *)
Definition _pointsToGridHashing (points : list P) (cellSize : float)
           (getPosition : P -> list float) : GridHashing :=
  let centerLat := centerLat_of points getPosition in
  let gridOffset := _calculateGridLatLonOffset cellSize centerLat in
  if (xOffset gridOffset <=? 0) || (yOffset gridOffset <=? 0) then
    {| gridHash := []; gridOffset := gridOffset |}
  else
    let gridHash :=
      Array_reduce (hash_point getPosition gridOffset) points [] in
    {| gridHash := gridHash; gridOffset := gridOffset |}.

(** The indices the layer-data builder reads back from a key. *)
Definition key_latIdx (key : string) : float :=
  parseInt10 (get_piece (String_split "-" key) 0).

Definition key_lonIdx (key : string) : float :=
  parseInt10 (get_piece (String_split "-" key) 1).

(** The callback of [Object.keys(gridHash).reduce]; [cell] is
    [gridHash[key]]. *)
Definition push_datum (gridOffset : GridOffset)
           (accu : list (LayerDatum.t P))
           (entry : string * GridCell.t P) (i : nat)
  : list (LayerDatum.t P) :=
  let '(key, cell) := entry in
  let latIdx := key_latIdx key in
  let lonIdx := key_lonIdx key in
  accu ++
    [LayerDatum.mk i
       (-180 + xOffset gridOffset * lonIdx,
        -90 + yOffset gridOffset * latIdx)
       (GridCell.count cell) (GridCell.points cell)].

Definition _getGridLayerDataFromGridHash
           (gridHash : hash (GridCell.t P)) (gridOffset : GridOffset)
  : list (LayerDatum.t P) :=
  Array_reduce (push_datum gridOffset) gridHash [].

Record DensityGridData :=
  { data_gridOffset : GridOffset; layerData : list (LayerDatum.t P) }.

(** Calculate density grid from an array of points *)
Definition pointToDensityGridData (points : list P) (cellSize : float)
           (getPosition : P -> list float) : DensityGridData :=
  let h := _pointsToGridHashing points cellSize getPosition in
  let layerData :=
    _getGridLayerDataFromGridHash (gridHash h) (gridOffset h) in
  {| data_gridOffset := gridOffset h; layerData := layerData |}.

End GridAggregator.

(** ** Calls that may throw

    [Math.min.apply(null, allLat)] passes every element of [allLat] as an
    argument of the call.  An engine accepts a limited number of arguments
    and throws a [RangeError] beyond it; the limit is the engine's own
    (ECMA-262 leaves it open).  The functions above give the result of a
    call that returns; the functions below are the calls themselves. *)
Inductive completion (A : Type) : Type :=
| Returns (result : A)
| Throws_RangeError.
Arguments Returns {A} result.
Arguments Throws_RangeError {A}.

Section GridAggregatorCalls.

(** [Math.cos] of the engine. *)
Variable Math_cos : float -> float.

(** The greatest number of arguments [Function.prototype.apply] passes in
    the engine. *)
Variable max_arguments : nat.

Variable P : Type.

Local Open Scope float_scope.

(** [f.apply(null, args)] for a function [f] of Numbers. *)
Definition Function_apply (f : list float -> float) (args : list float)
  : completion float :=
  if (length args <=? max_arguments)%nat then Returns (f args)
  else Throws_RangeError.

(** Project points into each cell, return a hash table of cells *)
Definition _pointsToGridHashing_call (points : list P) (cellSize : float)
           (getPosition : P -> list float) : completion (GridHashing P) :=
  let allLat := map (fun p => get_index (getPosition p) 1) points in
  match Function_apply Math_min allLat with
  | Throws_RangeError => Throws_RangeError
  | Returns latMin =>
      match Function_apply Math_max allLat with
      | Throws_RangeError => Throws_RangeError
      | Returns latMax =>
          let centerLat := (latMin + latMax) / 2 in
          let gridOffset :=
            _calculateGridLatLonOffset Math_cos cellSize centerLat in
          if (xOffset gridOffset <=? 0) || (yOffset gridOffset <=? 0) then
            Returns {| gridHash := []; gridOffset := gridOffset |}
          else
            let gridHash :=
              Array_reduce (hash_point getPosition gridOffset) points [] in
            Returns {| gridHash := gridHash; gridOffset := gridOffset |}
      end
  end.

(** Calculate density grid from an array of points *)
Definition pointToDensityGridData_call (points : list P) (cellSize : float)
           (getPosition : P -> list float) : completion (DensityGridData P) :=
  match _pointsToGridHashing_call points cellSize getPosition with
  | Throws_RangeError => Throws_RangeError
  | Returns h =>
      let layerData :=
        _getGridLayerDataFromGridHash (gridHash h) (gridOffset h) in
      Returns {| data_gridOffset := gridOffset h; layerData := layerData |}
  end.

End GridAggregatorCalls.

(* ===================================================================== *)
(** * A reference [Math.cos], to run the model on concrete inputs *)
(* ===================================================================== *)

(** ECMA-262 (21.3.2.12) fixes [Math.cos] on NaN and the infinities (NaN)
    and on the two zeros (1), and leaves the other values
    implementation-approximated.  [cos_ref] follows those rules and
    approximates the rest by a Taylor polynomial after reduction of the
    argument to [[-pi/2, pi/2]].  Theorems below that depend on [Math.cos]
    quantify over it; [cos_ref] only instantiates them. *)
Section ReferenceCos.
Local Open Scope float_scope.

Fixpoint cos_horner (n : nat) (j r2 : float) : float :=
  match n with
  | O => 1
  | S n' => 1 - r2 / ((2 * j - 1) * (2 * j)) * cos_horner n' (j + 1) r2
  end.

Definition cos_ref (x : float) : float :=
  if is_nan x || is_infinity x then nan
  else if is_zero x then 1
  else
    let t := abs x in
    let turns := Math_floor (t / (2 * Math_PI) + 0.5) in
    let r := abs (t - turns * (2 * Math_PI)) in
    if r <=? Math_PI / 2 then cos_horner 12 1 (r * r)
    else
      let r' := Math_PI - r in
      - cos_horner 12 1 (r' * r').
End ReferenceCos.

(* ===================================================================== *)
(** * Part II.  Notions used by the statements *)
(* ===================================================================== *)

(** ** Binning points under an arbitrary key function

    The accumulation of [points.reduce] only depends on the key of each
    point: its invariants are stated for any key function [k]. *)
Section BinningNotions.
Variable P : Type.
Variable k : P -> string.

Local Open Scope Z_scope.

Definition add_point (accu : hash (GridCell.t P)) (pt : P)
  : hash (GridCell.t P) :=
  let cell :=
    match hash_get (k pt) accu with
    | Some c => c
    | None => GridCell.mk 0 []
    end in
  hash_set (k pt)
           (GridCell.mk (GridCell.count cell + 1)
                        (GridCell.points cell ++ [pt]))
           accu.

(** The points of [ps] whose key is [key], in the order of [ps]. *)
Definition with_key (key : string) (ps : list P) : list P :=
  filter (fun p => String.eqb (k p) key) ps.

Definition sum_counts (h : hash (GridCell.t P)) : Z :=
  fold_right Z.add 0 (map (fun e => GridCell.count (snd e)) h).

Definition all_points (h : hash (GridCell.t P)) : list P :=
  List.concat (map (fun e => GridCell.points (snd e)) h).

(** What holds of the hash once the points [ps] have been added. *)
Record hash_inv (ps : list P) (h : hash (GridCell.t P)) : Prop :=
  { inv_nodup : NoDup (Object_keys h);
    inv_cells : forall key c, In (key, c) h ->
        GridCell.points c = with_key key ps /\
        GridCell.count c = Z.of_nat (length (GridCell.points c)) /\
        GridCell.points c <> [];
    inv_total : forall p, In p ps -> In (k p) (Object_keys h) }.

(** The order in which keys are touched for the first time. *)
Definition touch (keys : list string) (key : string) : list string :=
  if in_dec string_dec key keys then keys else keys ++ [key].

Definition first_touch_order (keys : list string) : list string :=
  fold_left touch keys [].

End BinningNotions.

(** ** The layer data, entry by entry *)
Section LayerDataNotions.
Variable P : Type.
Local Open Scope float_scope.

(** The record pushed for the [i]-th key of the hash. *)
Definition datum_of (gridOffset : GridOffset) (i : nat)
           (entry : string * GridCell.t P) : LayerDatum.t P :=
  LayerDatum.mk i
    (-180 + xOffset gridOffset * key_lonIdx (fst entry),
     -90 + yOffset gridOffset * key_latIdx (fst entry))
    (GridCell.count (snd entry)) (GridCell.points (snd entry)).

Fixpoint data_from (gridOffset : GridOffset) (i : nat)
         (h : hash (GridCell.t P)) : list (LayerDatum.t P) :=
  match h with
  | [] => []
  | entry :: rest =>
      datum_of gridOffset i entry :: data_from gridOffset (S i) rest
  end.

End LayerDataNotions.

(** ** Numbers *)

(** The sign carried by a specification float that is no NaN. *)
Definition sf_signed (s : bool) (f : spec_float) : Prop :=
  match f with
  | S754_zero s' | S754_infinity s' | S754_finite s' _ _ => s' = s
  | S754_nan => False
  end.

(** No Number of the list is NaN. *)
Definition no_nan (l : list float) : Prop :=
  forall x, In x l -> is_nan x = false.

(** ** The offset, the guard and the keys of a call *)
Section CallNotions.
Variable Math_cos : float -> float.
Variable P : Type.
Variable getPosition : P -> list float.
Local Open Scope float_scope.

(** The offset a call computes, and whether its guard returns early. *)
Definition offset_of (points : list P) (cellSize : float) : GridOffset :=
  _calculateGridLatLonOffset Math_cos cellSize
                             (centerLat_of points getPosition).

Definition guard (gridOffset : GridOffset) : bool :=
  (xOffset gridOffset <=? 0) || (yOffset gridOffset <=? 0).

(** The key of a point under the offset of the call. *)
Definition point_key (gridOffset : GridOffset) (pt : P) : string :=
  key_of gridOffset (getPosition pt).

(** The offsets as the specification words them (section 4.1), with
    [R] = 6,378,000 m. *)
Definition spec_yOffset (cellSize : float) : float :=
  (cellSize / 6378000) * (180 / Math_PI).

Definition spec_xOffset (cellSize latitude : float) : float :=
  (cellSize / 6378000) * (180 / Math_PI)
  / Math_cos (latitude * Math_PI / 180).

End CallNotions.

(** The sum of the [count] fields of a layer data, and the concatenation
    of its [points] arrays. *)
Definition total_count {P : Type} (data : list (LayerDatum.t P)) : Z :=
  fold_right Z.add 0%Z (map (@LayerDatum.count P) data).

Definition cells_points {P : Type} (data : list (LayerDatum.t P)) : list P :=
  List.concat (map (@LayerDatum.points P) data).

(** The only use the examples make of [getPosition]: points that are
    their own position [[lon, lat]]. *)
Definition own_position (p : list float) : list float := p.

(** ** Inputs of the examples *)
Section Samples.
Local Open Scope float_scope.

(** The scenario of the specification: two points 78 m apart and a third
    one far away, with cells of 1000 m. *)
Definition sample_points : list (list float) :=
  [[0; 0]; [0.0005; 0.0005]; [10; 10]].

(** One point west of the antimeridian, at longitude -181. *)
Definition west_points : list (list float) := [[-181; 0]].

End Samples.

(** ** Decimal numerals and small quotients

    What the statements about reading an index back from a key use. *)
Section NumeralNotions.
Local Open Scope Z_scope.

(** The value of a decimal numeral read after the value [acc]. *)
Fixpoint uint_value (acc : Z) (d : Decimal.uint) : Z :=
  match d with
  | Decimal.Nil => acc
  | Decimal.D0 l => uint_value (10 * acc + 0) l
  | Decimal.D1 l => uint_value (10 * acc + 1) l
  | Decimal.D2 l => uint_value (10 * acc + 2) l
  | Decimal.D3 l => uint_value (10 * acc + 3) l
  | Decimal.D4 l => uint_value (10 * acc + 4) l
  | Decimal.D5 l => uint_value (10 * acc + 5) l
  | Decimal.D6 l => uint_value (10 * acc + 6) l
  | Decimal.D7 l => uint_value (10 * acc + 7) l
  | Decimal.D8 l => uint_value (10 * acc + 8) l
  | Decimal.D9 l => uint_value (10 * acc + 9) l
  end.

(** Every character of the string is a decimal digit. *)
Fixpoint all_digits (s : string) : bool :=
  match s with
  | EmptyString => true
  | String c rest =>
      match digit_value c with Some _ => all_digits rest | None => false end
  end.

(** A quotient that is at least zero and below 2^53: its floor is a
    natural number that a Number holds exactly. *)
Definition small_quotient (q : float) : Prop :=
  (0 <=? q)%float = true /\ (q <? 9007199254740992)%float = true.

End NumeralNotions.

(** ** Negative quotients, extrema, and what an entry shows

    What the statements about points outside the nominal ranges and about
    the order of the input use. *)
Section FurtherNotions.
Local Open Scope float_scope.

(** A quotient below zero and above -2^53: its floor is the opposite of a
    positive natural number that a Number holds exactly. *)
Definition small_negative_quotient (q : float) : Prop :=
  (q <? 0) = true /\ (-9007199254740992 <? q) = true.

(** [r] is the least element of [l], and the negative zero if it is a zero
    and [l] holds a negative zero. *)
Definition least_of (l : list float) (r : float) : Prop :=
  In r l /\ (forall x, In x l -> (r <=? x) = true) /\
  ((exists x, In x l /\ is_neg_zero x = true) ->
   is_zero r = true -> is_neg_zero r = true).

(** [r] is the greatest element of [l], and the positive zero if it is a
    zero and [l] holds a positive zero. *)
Definition greatest_of (l : list float) (r : float) : Prop :=
  In r l /\ (forall x, In x l -> (x <=? r) = true) /\
  ((exists x, In x l /\ is_pos_zero x = true) ->
   is_zero r = true -> is_pos_zero r = true).

(** The position the layer data gives to the entry of a key. *)
Definition position_of_key (gridOffset : GridOffset) (key : string)
  : float * float :=
  (-180 + xOffset gridOffset * key_lonIdx key,
   -90 + yOffset gridOffset * key_latIdx key).

(** The position and the count of an entry of the layer data. *)
Definition position_and_count {P : Type} (datum : LayerDatum.t P)
  : (float * float) * Z :=
  (LayerDatum.position datum, LayerDatum.count datum).

End FurtherNotions.

(** ** Inputs within the range of the specification *)
Section RangeNotions.
Local Open Scope float_scope.

(** A latitude strictly within (-89, 89). *)
Definition within_89 (lat : float) : Prop :=
  (-89 <? lat) = true /\ (lat <? 89) = true.

(** What the statement on inputs within the range asks of the engine's
    [Math.cos]: at the midpoint of two latitudes strictly within (-89, 89),
    converted to radians as the source does, it is positive and at most 1,
    as the cosine is. *)
Definition cosine_on_latitudes (Math_cos : float -> float) : Prop :=
  forall lo hi, within_89 lo -> within_89 hi ->
    (0 <? Math_cos ((lo + hi) / 2 * Math_PI / 180)) = true /\
    (Math_cos ((lo + hi) / 2 * Math_PI / 180) <=? 1) = true.

(** [cos_ref] where its value is positive and at most 1, and 1 elsewhere:
    a cosine that meets [cosine_on_latitudes] by its definition, and that
    is [cos_ref] wherever the examples evaluate it. *)
Definition cos_checked (x : float) : float :=
  let c := cos_ref x in
  if (0 <? c) && (c <=? 1) then c else 1.

End RangeNotions.

(** ** Exact values *)
Section ExactNotions.
Local Open Scope Z_scope.

(** The value of a finite specification float, in units of 2^-1074 (the
    least positive Number): an integer. *)
Definition SF_scaled (f : spec_float) : option Z :=
  match f with
  | S754_zero _ => Some 0
  | S754_finite s m e =>
      Some ((if s then -1 else 1) * (Z.pos m * 2 ^ (e + 1074)))
  | _ => None
  end.

(** The value of a finite Number in units of 2^-1074; [None] for NaN and
    the infinities. *)
Definition Number_scaled (x : float) : option Z := SF_scaled (Prim2SF x).

End ExactNotions.

(** ** The floor of a quotient, and the edge of a cell *)
Section FloorNotions.
Local Open Scope float_scope.

(** [idx] is the floor of the quotient [q]: [q] itself when [q] is
    integral; for a finite [q], the greatest integral Number that is not
    above [q]; the Number of [z] when [q] lies from [z] up to, but not at,
    [z + 1]; and a zero when [q] lies from 0 up to, but not at, 1. *)
Definition floor_of (q idx : float) : Prop :=
  (is_integral q = true -> idx = q) /\
  (is_finite q = true ->
   is_integral idx = true /\ (idx <=? q) = true /\
   forall n, is_integral n = true -> (n <=? q) = true ->
             (n <=? idx) = true) /\
  (forall z, (1 <= z)%Z -> (z + 1 < 2 ^ 53)%Z ->
     (Number_of_Z z <=? q) = true -> (q <? Number_of_Z (z + 1)) = true ->
     idx = Number_of_Z z) /\
  ((0 <=? q) = true -> (q <? 1) = true -> is_zero idx = true).

(** The latitude [lat] is exactly [-90 + yOffset * k], in the arithmetic
    of the reals: the lower edge of the cells of latitude index [k]. *)
Definition on_latitude_edge (yOffset lat : float) (k : Z) : Prop :=
  exists v vy,
    Number_scaled lat = Some v /\ Number_scaled yOffset = Some vy /\
    (v = -90 * 2 ^ 1074 + k * vy)%Z.

End FloorNotions.

(** ** Tactics for the order of specification floats *)

Ltac sf_cases :=
  repeat match goal with
  | |- context [(?a ?= ?b)%Z] =>
      destruct (Z.compare_spec a b); subst; simpl
  | H : context [(?a ?= ?b)%Z] |- _ =>
      destruct (Z.compare_spec a b); subst; simpl in H
  | |- context [(?a ?= ?b)%positive] =>
      destruct (Pos.compare_spec a b); subst; simpl
  | H : context [(?a ?= ?b)%positive] |- _ =>
      destruct (Pos.compare_spec a b); subst; simpl in H
  end.

Ltac sf_order :=
  unfold SFleb, SFltb, SFcompare;
  change (PosDef.Pos.compare_cont Eq) with Pos.compare;
  intros; sf_cases; try reflexivity; try discriminate; try lia.

(* ===================================================================== *)
(** * Part III.  Facts *)
(* ===================================================================== *)

(* ===================================================================== *)
(** * Facts about hash tables *)
(* ===================================================================== *)

Section HashFacts.
Variable V : Type.
Implicit Types (h : hash V) (key : string) (v : V).

Lemma hash_get_In h key v :
  hash_get key h = Some v -> In (key, v) h.
Proof.
  induction h as [|[k w] rest IH]; simpl; [discriminate|].
  destruct (String.eqb k key) eqn:E.
  - apply String.eqb_eq in E. intros [= ->]. left. now subst.
  - intros H. right. now apply IH.
Qed.

Lemma hash_get_None h key :
  hash_get key h = None <-> ~ In key (Object_keys h).
Proof.
  induction h as [|[k w] rest IH]; simpl.
  - tauto.
  - destruct (String.eqb k key) eqn:E.
    + apply String.eqb_eq in E. split; [discriminate|]. intros H.
      exfalso. apply H. now left.
    + apply String.eqb_neq in E. rewrite IH. tauto.
Qed.

Lemma In_keys h key v : In (key, v) h -> In key (Object_keys h).
Proof. intros H. apply (in_map fst) in H. exact H. Qed.

Lemma In_hash_get h key v :
  NoDup (Object_keys h) -> In (key, v) h -> hash_get key h = Some v.
Proof.
  induction h as [|[k w] rest IH]; simpl; [tauto|].
  intros ND [H|H].
  - injection H as -> ->. now rewrite String.eqb_refl.
  - inversion ND as [|? ? Hk ND']; subst.
    destruct (String.eqb k key) eqn:E.
    + apply String.eqb_eq in E. subst. exfalso. apply Hk.
      now apply In_keys with v.
    + now apply IH.
Qed.

Lemma keys_hash_set_old h key v :
  In key (Object_keys h) -> Object_keys (hash_set key v h) = Object_keys h.
Proof.
  induction h as [|[k w] rest IH]; simpl; [tauto|].
  intros H. destruct (String.eqb k key) eqn:E; simpl; [reflexivity|].
  apply String.eqb_neq in E. f_equal. apply IH. tauto.
Qed.

Lemma keys_hash_set_new h key v :
  ~ In key (Object_keys h) ->
  Object_keys (hash_set key v h) = Object_keys h ++ [key].
Proof.
  induction h as [|[k w] rest IH]; simpl; [reflexivity|].
  intros H. destruct (String.eqb k key) eqn:E; simpl.
  - apply String.eqb_eq in E. tauto.
  - f_equal. apply IH. tauto.
Qed.

Lemma NoDup_keys_hash_set h key v :
  NoDup (Object_keys h) -> NoDup (Object_keys (hash_set key v h)).
Proof.
  intros ND. destruct (in_dec string_dec key (Object_keys h)) as [H|H].
  - now rewrite keys_hash_set_old.
  - rewrite keys_hash_set_new by assumption.
    apply NoDup_app; [assumption|repeat constructor; simpl; tauto|].
    intros x Hx [<-|[]]. tauto.
Qed.

Lemma In_hash_set h key v key' v' :
  NoDup (Object_keys h) ->
  In (key', v') (hash_set key v h) ->
  (key' = key /\ v' = v) \/ (key' <> key /\ In (key', v') h).
Proof.
  induction h as [|[k w] rest IH]; simpl.
  - intros _ [[= <- <-]|[]]. now left.
  - intros ND. inversion ND as [|? ? Hk ND']; subst.
    destruct (String.eqb k key) eqn:E.
    + apply String.eqb_eq in E. subst k. simpl.
      intros [[= <- <-]|H]; [now left|].
      right. split; [|now right].
      intros ->. apply Hk. now apply In_keys with v'.
    + apply String.eqb_neq in E. simpl.
      intros [[= <- <-]|H].
      * right. split; [assumption|now left].
      * destruct (IH ND' H) as [?|[? ?]]; [now left|].
        right. split; [assumption|now right].
Qed.

Lemma hash_set_In_same h key v : In (key, v) (hash_set key v h).
Proof.
  induction h as [|[k w] rest IH]; simpl; [now left|].
  destruct (String.eqb k key) eqn:E.
  - apply String.eqb_eq in E. subst. now left.
  - now right.
Qed.

Lemma hash_set_In_other h key v key' v' :
  key' <> key -> In (key', v') h -> In (key', v') (hash_set key v h).
Proof.
  intros N. induction h as [|[k w] rest IH]; simpl; [tauto|].
  intros [[= -> ->]|H].
  - destruct (String.eqb key' key) eqn:E.
    + apply String.eqb_eq in E. contradiction.
    + now left.
  - destruct (String.eqb k key); right; [assumption|now apply IH].
Qed.

End HashFacts.

(* ===================================================================== *)
(** * Facts about binning *)
(* ===================================================================== *)

Section BinningFacts.
Variable P : Type.
Variable k : P -> string.

Local Open Scope Z_scope.

Lemma with_key_app key ps qs :
  with_key k key (ps ++ qs) = with_key k key ps ++ with_key k key qs.
Proof. apply filter_app. Qed.

Lemma with_key_absent key ps h :
  hash_inv k ps h -> ~ In key (Object_keys h) -> with_key k key ps = [].
Proof.
  intros I N. unfold with_key.
  destruct (filter _ ps) as [|p rest] eqn:E; [reflexivity|].
  assert (Hp : In p (filter (fun p => String.eqb (k p) key) ps))
    by (rewrite E; now left).
  apply filter_In in Hp. destruct Hp as [Hin Hk].
  apply String.eqb_eq in Hk. subst key.
  exfalso. apply N. now apply (inv_total I).
Qed.

Lemma hash_inv_nil : hash_inv k [] [].
Proof.
  split; simpl; [constructor| tauto | tauto].
Qed.

Lemma hash_inv_step ps h p :
  hash_inv k ps h -> hash_inv k (ps ++ [p]) (add_point k h p).
Proof.
  intros I. unfold add_point.
  set (cell := match hash_get (k p) h with Some c => c | None => _ end).
  assert (Hcell : GridCell.points cell = with_key k (k p) ps /\
                  GridCell.count cell
                  = Z.of_nat (length (GridCell.points cell))).
  { subst cell. destruct (hash_get (k p) h) as [c|] eqn:G.
    - apply hash_get_In in G.
      destruct (inv_cells I _ _ G) as (? & ? & _). tauto.
    - apply hash_get_None in G. simpl.
      rewrite (@with_key_absent _ _ _ I G). split; reflexivity. }
  destruct Hcell as [Hpts Hcnt].
  split.
  - apply NoDup_keys_hash_set, (inv_nodup I).
  - intros key c Hin.
    apply In_hash_set in Hin; [|apply (inv_nodup I)].
    destruct Hin as [[-> ->]|[N Hin]]; simpl.
    + rewrite with_key_app, Hpts. unfold with_key at 2. simpl.
      rewrite String.eqb_refl. repeat split.
      * rewrite Hcnt, Hpts, !length_app. simpl. lia.
      * destruct (with_key k (k p) ps); discriminate.
    + destruct (inv_cells I _ _ Hin) as (H1 & H2 & H3).
      rewrite with_key_app. unfold with_key at 2. simpl.
      destruct (String.eqb (k p) key) eqn:E.
      * apply String.eqb_eq in E. congruence.
      * rewrite app_nil_r. tauto.
  - intros q Hq. apply in_app_or in Hq.
    destruct Hq as [Hq|[<-|[]]].
    + pose proof (inv_total I _ Hq) as Hk.
      destruct (in_dec string_dec (k p) (Object_keys h)) as [H|H].
      * now rewrite keys_hash_set_old.
      * rewrite keys_hash_set_new by assumption.
        apply in_or_app. now left.
    + eapply In_keys, hash_set_In_same.
Qed.

Lemma hash_inv_fold rest :
  forall ps h, hash_inv k ps h ->
               hash_inv k (ps ++ rest) (fold_left (add_point k) rest h).
Proof.
  induction rest as [|p rest IH]; intros ps h I; simpl.
  - now rewrite app_nil_r.
  - replace (ps ++ p :: rest) with ((ps ++ [p]) ++ rest)
      by (rewrite <- app_assoc; reflexivity).
    apply IH, hash_inv_step, I.
Qed.

Lemma sum_counts_hash_set (h : hash (GridCell.t P)) key c c0 :
  (match hash_get key h with Some c' => c' | None => c0 end) = c ->
  forall pts,
  sum_counts (hash_set key (GridCell.mk (GridCell.count c + 1) pts) h)
  = sum_counts h + GridCell.count c0 + 1
    - (match hash_get key h with Some _ => GridCell.count c0 | None => 0 end).
Proof.
  unfold sum_counts.
  induction h as [|[k' w] rest IH]; simpl; intros Hc pts.
  - subst c. lia.
  - destruct (String.eqb k' key) eqn:E; simpl.
    + subst c. lia.
    + rewrite (IH Hc). lia.
Qed.

Lemma sum_counts_step (h : hash (GridCell.t P)) p :
  sum_counts (add_point k h p) = sum_counts h + 1.
Proof.
  unfold add_point.
  rewrite (@sum_counts_hash_set h (k p) _ (GridCell.mk 0 []) eq_refl).
  simpl. destruct (hash_get (k p) h); lia.
Qed.

Lemma sum_counts_fold ps :
  forall h, sum_counts (fold_left (add_point k) ps h)
            = sum_counts h + Z.of_nat (length ps).
Proof.
  induction ps as [|p ps IH]; intros h; simpl fold_left.
  - simpl. lia.
  - rewrite IH, sum_counts_step. simpl length. lia.
Qed.

Lemma all_points_hash_set (h : hash (GridCell.t P)) key c0 p n :
  GridCell.points c0 = [] ->
  Permutation
    (all_points
       (hash_set key
          (GridCell.mk n
             (GridCell.points
                (match hash_get key h with Some c => c | None => c0 end)
                ++ [p]))
          h))
    (p :: all_points h).
Proof.
  intros H0. unfold all_points.
  induction h as [|[k' w] rest IH]; simpl.
  - rewrite H0. simpl. apply Permutation_refl.
  - destruct (String.eqb k' key) eqn:E; simpl.
    + rewrite <- app_assoc. simpl.
      apply Permutation_sym, Permutation_middle.
    + eapply Permutation_trans.
      * apply Permutation_app_head, IH.
      * apply Permutation_sym, Permutation_middle.
Qed.

Lemma all_points_step (h : hash (GridCell.t P)) p :
  Permutation (all_points (add_point k h p)) (p :: all_points h).
Proof. unfold add_point. now apply all_points_hash_set. Qed.

Lemma all_points_fold ps :
  forall h, Permutation (all_points (fold_left (add_point k) ps h))
                        (all_points h ++ ps).
Proof.
  induction ps as [|p ps IH]; intros h; simpl fold_left.
  - rewrite app_nil_r. apply Permutation_refl.
  - eapply Permutation_trans; [apply IH|].
    eapply Permutation_trans.
    + apply Permutation_app_tail, all_points_step.
    + simpl. apply Permutation_middle.
Qed.

Lemma keys_add_point (h : hash (GridCell.t P)) p :
  Object_keys (add_point k h p) = touch (Object_keys h) (k p).
Proof.
  unfold add_point, touch.
  destruct (in_dec string_dec (k p) (Object_keys h)) as [H|H].
  - now apply keys_hash_set_old.
  - now apply keys_hash_set_new.
Qed.

Lemma keys_fold ps :
  forall h : hash (GridCell.t P),
    Object_keys (fold_left (add_point k) ps h)
    = fold_left touch (map k ps) (Object_keys h).
Proof.
  induction ps as [|p ps IH]; intros h; simpl; [reflexivity|].
  now rewrite IH, keys_add_point.
Qed.

End BinningFacts.

(** The callback of [points.reduce] ignores the index it receives. *)
Lemma reduce_from_fold_left {A B : Type} (g : B -> A -> B) (l : list A) :
  forall i accu, reduce_from (fun a x _ => g a x) l i accu = fold_left g l accu.
Proof.
  induction l as [|x l IH]; intros i accu; simpl; [reflexivity|apply IH].
Qed.

(* ===================================================================== *)
(** * Facts about the layer data *)
(* ===================================================================== *)

Section LayerDataFacts.
Variable P : Type.
Local Open Scope float_scope.

Lemma reduce_from_push gridOffset (h : hash (GridCell.t P)) :
  forall i accu,
    reduce_from (push_datum gridOffset) h i accu
    = accu ++ data_from gridOffset i h.
Proof.
  induction h as [|[key cell] rest IH]; intros i accu; simpl.
  - now rewrite app_nil_r.
  - rewrite IH, <- app_assoc. reflexivity.
Qed.

Lemma layerData_data_from (h : hash (GridCell.t P)) gridOffset :
  _getGridLayerDataFromGridHash h gridOffset = data_from gridOffset 0 h.
Proof.
  unfold _getGridLayerDataFromGridHash, Array_reduce.
  now rewrite reduce_from_push.
Qed.

Lemma length_data_from gridOffset (h : hash (GridCell.t P)) :
  forall i, length (data_from gridOffset i h) = length h.
Proof.
  induction h as [|e rest IH]; intros i; simpl; [reflexivity|].
  now rewrite IH.
Qed.

Lemma nth_error_data_from gridOffset (h : hash (GridCell.t P)) :
  forall i j,
    nth_error (data_from gridOffset i h) j
    = option_map (datum_of gridOffset (i + j)) (nth_error h j).
Proof.
  induction h as [|e rest IH]; intros i [|j]; simpl; try reflexivity.
  - now rewrite Nat.add_0_r.
  - rewrite IH. now rewrite Nat.add_succ_r.
Qed.

Lemma counts_data_from gridOffset (h : hash (GridCell.t P)) :
  forall i,
    map (@LayerDatum.count P) (data_from gridOffset i h)
    = map (fun e => GridCell.count (snd e)) h.
Proof.
  induction h as [|e rest IH]; intros i; simpl; [reflexivity|].
  now rewrite IH.
Qed.

Lemma points_data_from gridOffset (h : hash (GridCell.t P)) :
  forall i,
    map (@LayerDatum.points P) (data_from gridOffset i h)
    = map (fun e => GridCell.points (snd e)) h.
Proof.
  induction h as [|e rest IH]; intros i; simpl; [reflexivity|].
  now rewrite IH.
Qed.

Lemma indices_data_from gridOffset (h : hash (GridCell.t P)) :
  forall i,
    map (@LayerDatum.index P) (data_from gridOffset i h)
    = seq i (length h).
Proof.
  induction h as [|e rest IH]; intros i; simpl; [reflexivity|].
  now rewrite IH.
Qed.

Lemma In_data_from gridOffset (h : hash (GridCell.t P)) :
  forall i datum,
    In datum (data_from gridOffset i h) ->
    exists j entry, In entry h /\ datum = datum_of gridOffset j entry.
Proof.
  induction h as [|e rest IH]; intros i datum; simpl.
  - tauto.
  - intros [<-|Hin].
    + exists i, e. auto.
    + destruct (IH _ _ Hin) as (j & entry & Hentry & ->).
      exists j, entry. auto.
Qed.

Lemma data_from_In gridOffset (h : hash (GridCell.t P)) :
  forall i entry,
    In entry h -> exists j, In (datum_of gridOffset j entry)
                               (data_from gridOffset i h).
Proof.
  induction h as [|e rest IH]; intros i entry; simpl.
  - tauto.
  - intros [<-|Hin].
    + exists i. auto.
    + destruct (IH (S i) _ Hin) as (j & Hj). exists j. auto.
Qed.

End LayerDataFacts.

(* ===================================================================== *)
(** * Facts about Numbers *)
(* ===================================================================== *)

(** Facts about binary64 arithmetic are proved on the specification of the
    primitive operations ([SpecFloat]), to which [FloatAxioms] relates
    them. *)
Section NumberFacts.
Local Open Scope float_scope.

Lemma shr_1_nonneg mrs : (0 <= shr_m mrs)%Z -> (0 <= shr_m (shr_1 mrs))%Z.
Proof.
  destruct mrs as [m r s]. simpl.
  destruct m as [|p|p]; [| |lia]; intros _.
  - simpl. lia.
  - destruct p; simpl; lia.
Qed.

Lemma iter_pos_shr_1_nonneg p :
  forall mrs, (0 <= shr_m mrs)%Z ->
              (0 <= shr_m (SpecFloat.iter_pos shr_1 p mrs))%Z.
Proof.
  induction p as [p IH|p IH|]; intros mrs H; simpl.
  - apply IH, IH, shr_1_nonneg, H.
  - apply IH, IH, H.
  - apply shr_1_nonneg, H.
Qed.

Lemma shr_fexp_nonneg m e l :
  (0 <= m)%Z -> (0 <= shr_m (fst (shr_fexp prec emax m e l)))%Z.
Proof.
  intros H. unfold shr_fexp, shr.
  assert (H0 : (0 <= shr_m (shr_record_of_loc m l))%Z).
  { destruct l as [|[]]; simpl; exact H. }
  destruct (fexp prec emax (Zdigits2 m + e) - e)%Z; simpl;
    [exact H0| |exact H0].
  apply iter_pos_shr_1_nonneg, H0.
Qed.

Lemma round_nearest_even_nonneg m l :
  (0 <= m)%Z -> (0 <= round_nearest_even m l)%Z.
Proof.
  intros H. destruct l as [|[]]; simpl; try lia.
  destruct (Z.even m); lia.
Qed.

Lemma binary_round_aux_signed s m e l :
  (0 <= m)%Z -> sf_signed s (binary_round_aux prec emax s m e l).
Proof.
  intros H. unfold binary_round_aux.
  pose proof (@shr_fexp_nonneg m e l H) as H1.
  destruct (shr_fexp prec emax m e l) as [mrs' e'] eqn:E1. simpl in H1.
  pose proof (@round_nearest_even_nonneg _ (loc_of_shr_record mrs') H1) as H2.
  pose proof (@shr_fexp_nonneg _ e' loc_Exact H2) as H3.
  destruct (shr_fexp prec emax _ e' loc_Exact) as [mrs'' e''] eqn:E2.
  simpl in H3.
  unfold sf_signed. destruct (shr_m mrs'') as [|p|p]; [reflexivity| |lia].
  destruct (e'' <=? emax - prec)%Z; reflexivity.
Qed.

Lemma div_eucl_nonneg a b :
  (0 <= a)%Z -> (0 <= fst (Z.div_eucl a (Z.pos b)))%Z.
Proof.
  intros H. change (fst (Z.div_eucl a (Z.pos b))) with (a / Z.pos b)%Z.
  apply Z.div_pos; lia.
Qed.

Lemma SFdiv_core_nonneg mx ex my ey :
  (0 <= fst (fst (SFdiv_core_binary prec emax (Z.pos mx) ex (Z.pos my) ey)))%Z.
Proof.
  unfold SFdiv_core_binary.
  set (s := (ex - ey - _)%Z).
  set (m' := match s with Z0 => _ | Z.pos _ => _ | Z.neg _ => _ end).
  assert (H : (0 <= m')%Z).
  { subst m'. destruct s; [lia| |lia]. apply Z.shiftl_nonneg. lia. }
  pose proof (@div_eucl_nonneg m' my H) as Hq.
  destruct (Z.div_eucl m' (Z.pos my)) as [q r]. exact Hq.
Qed.

(** Dividing or multiplying by a positive finite number keeps the sign. *)
Lemma SFdiv_signed s x my ey :
  sf_signed s x -> sf_signed s (SF64div x (S754_finite false my ey)).
Proof.
  unfold SF64div, SFdiv. destruct x as [sx|sx| |sx mx ex]; simpl;
    try (intros <-; now rewrite xorb_false_r); [tauto|].
  intros <-. 
  pose proof (SFdiv_core_nonneg mx ex my ey) as H.
  destruct (SFdiv_core_binary prec emax (Z.pos mx) ex (Z.pos my) ey)
    as [[mz ez] lz]. simpl in H.
  rewrite xorb_false_r. now apply binary_round_aux_signed.
Qed.

Lemma SFmul_signed s x my ey :
  sf_signed s x -> sf_signed s (SF64mul x (S754_finite false my ey)).
Proof.
  unfold SF64mul, SFmul. destruct x as [sx|sx| |sx mx ex]; simpl;
    try (intros <-; now rewrite xorb_false_r); [tauto|].
  intros <-. rewrite xorb_false_r. apply binary_round_aux_signed. lia.
Qed.

Lemma SFleb_zero x : SFleb x (S754_zero false) = true <-> 
   (x = S754_zero false \/ x = S754_zero true \/ sf_signed true x).
Proof.
  destruct x as [[]|[]| |[] m e]; simpl; unfold SFleb; simpl; intuition (try discriminate; try congruence).
Qed.

Lemma SFleb_refl a : a <> S754_nan -> SFleb a a = true.
Proof.
  destruct a as [[]|[]| |[] m e]; try reflexivity; try congruence;
  intros _; unfold SFleb, SFcompare;
  change (PosDef.Pos.compare_cont Eq) with Pos.compare;
  rewrite Z.compare_refl, Pos.compare_refl; reflexivity.
Qed.

Lemma SFleb_trans a b c :
  SFleb a b = true -> SFleb b c = true -> SFleb a c = true.
Proof.
  destruct a as [[]|[]| |[] ma ea], b as [[]|[]| |[] mb eb],
    c as [[]|[]| |[] mc ec]; try reflexivity; try discriminate; sf_order.
Qed.

Lemma SFltb_SFleb a b : SFltb a b = true -> SFleb a b = true.
Proof.
  unfold SFltb, SFleb. destruct (SFcompare a b) as [[]|]; congruence.
Qed.

Lemma SFltb_false_SFleb a b :
  a <> S754_nan -> b <> S754_nan -> SFltb a b = false -> SFleb b a = true.
Proof.
  destruct a as [[]|[]| |[] ma ea], b as [[]|[]| |[] mb eb];
    try reflexivity; try discriminate; try congruence; sf_order.
Qed.

Lemma SFleb_zero_sign s s' x :
  SFleb (S754_zero s) x = SFleb (S754_zero s') x.
Proof. destruct x; reflexivity. Qed.


(** ** The same facts on Numbers *)

Lemma Prim2SF_nan_inv x : Prim2SF x = S754_nan -> x = nan.
Proof. intros H. apply Prim2SF_inj. exact H. Qed.

Lemma is_nan_false x : is_nan x = false <-> Prim2SF x <> S754_nan.
Proof.
  unfold is_nan. rewrite FloatAxioms.eqb_spec. unfold SFeqb.
  destruct (Prim2SF x) as [[]|[]| |[] m e]; simpl;
    change (PosDef.Pos.compare_cont Eq) with Pos.compare;
    rewrite ?Z.compare_refl, ?Pos.compare_refl; simpl;
    split; congruence.
Qed.

Lemma is_nan_true x : is_nan x = true -> x = nan.
Proof.
  intros H. apply Prim2SF_nan_inv.
  destruct (Prim2SF x) eqn:E; try reflexivity;
    assert (N : is_nan x = false) by (apply is_nan_false; congruence);
    congruence.
Qed.

Lemma leb_refl x : is_nan x = false -> (x <=? x) = true.
Proof.
  intros H. rewrite leb_spec. apply SFleb_refl. now apply is_nan_false.
Qed.

Lemma leb_trans x y z :
  (x <=? y) = true -> (y <=? z) = true -> (x <=? z) = true.
Proof. rewrite !leb_spec. apply SFleb_trans. Qed.

Lemma ltb_leb x y : (x <? y) = true -> (x <=? y) = true.
Proof. rewrite ltb_spec, leb_spec. apply SFltb_SFleb. Qed.

Lemma ltb_false_leb x y :
  is_nan x = false -> is_nan y = false ->
  (x <? y) = false -> (y <=? x) = true.
Proof.
  rewrite ltb_spec, leb_spec, !is_nan_false. apply SFltb_false_SFleb.
Qed.

Lemma is_zero_Prim2SF x :
  is_zero x = true -> exists s, Prim2SF x = S754_zero s.
Proof.
  unfold is_zero. rewrite FloatAxioms.eqb_spec.
  change (Prim2SF PrimFloat.zero) with (S754_zero false). unfold SFeqb.
  destruct (Prim2SF x) as [s|[]| |[] m e]; simpl; try discriminate.
  intros _. now exists s.
Qed.

Lemma zeros_leb x y :
  is_zero x = true -> is_zero y = true -> (x <=? y) = true.
Proof.
  intros Hx Hy. apply is_zero_Prim2SF in Hx, Hy.
  destruct Hx as [sx Hx], Hy as [sy Hy].
  rewrite leb_spec, Hx, Hy. reflexivity.
Qed.

Lemma leb_infinity_l x : (infinity <=? x) = true -> x = infinity.
Proof.
  rewrite leb_spec. change (Prim2SF infinity) with (S754_infinity false).
  intros H. apply Prim2SF_inj.
  change (Prim2SF infinity) with (S754_infinity false).
  destruct (Prim2SF x) as [[]|[]| |[] m e]; try discriminate. reflexivity.
Qed.

Lemma leb_neg_infinity_r x :
  (x <=? neg_infinity) = true -> x = neg_infinity.
Proof.
  rewrite leb_spec. change (Prim2SF neg_infinity) with (S754_infinity true).
  intros H. apply Prim2SF_inj.
  change (Prim2SF neg_infinity) with (S754_infinity true).
  destruct (Prim2SF x) as [[]|[]| |[] m e]; try discriminate. reflexivity.
Qed.

(** Any Number divided by NaN is NaN. *)
Lemma div_nan_r x : x / nan = nan.
Proof.
  apply Prim2SF_inj. rewrite div_spec.
  change (Prim2SF nan) with S754_nan.
  destruct (Prim2SF x); reflexivity.
Qed.

Lemma nan_div_l x : nan / x = nan.
Proof.
  apply Prim2SF_inj. rewrite div_spec.
  change (Prim2SF nan) with S754_nan. reflexivity.
Qed.

(** A positive Number divided by zero is +Infinity. *)
Lemma div_pos_zero y : (0 <? y) = true -> y / 0 = infinity.
Proof.
  rewrite ltb_spec. change (Prim2SF 0) with (S754_zero false).
  intros H. apply Prim2SF_inj. rewrite div_spec.
  change (Prim2SF 0) with (S754_zero false).
  change (Prim2SF infinity) with (S754_infinity false).
  destruct (Prim2SF y) as [[]|[]| |[] m e]; try discriminate; reflexivity.
Qed.

(** A positive Number is not [<= 0]. *)
Lemma ltb_zero_not_leb x : (0 <? x) = true -> (x <=? 0) = false.
Proof.
  rewrite ltb_spec, leb_spec. change (Prim2SF 0) with (S754_zero false).
  destruct (Prim2SF x) as [[]|[]| |[] m e]; try discriminate; reflexivity.
Qed.

(** NaN compares with nothing. *)
Lemma nan_leb x : (nan <=? x) = false.
Proof. rewrite leb_spec. reflexivity. Qed.

(** A cell size that is zero or negative gives a latitude offset that is
    zero or negative. *)
Lemma _calculateLatOffset_nonpos cellSize :
  (cellSize <=? 0) = true -> (_calculateLatOffset cellSize <=? 0) = true.
Proof.
  unfold _calculateLatOffset. rewrite !leb_spec, mul_spec, div_spec.
  change (Prim2SF 0) with (S754_zero false).
  assert (HR : exists m e, Prim2SF R_EARTH = S754_finite false m e)
    by (do 2 eexists; vm_compute; reflexivity).
  assert (HK : exists m e, Prim2SF (180 / Math_PI) = S754_finite false m e)
    by (do 2 eexists; vm_compute; reflexivity).
  destruct HR as (mR & eR & ->), HK as (mK & eK & ->).
  intros H. apply SFleb_zero in H. apply SFleb_zero.
  destruct H as [H|[H|H]].
  - rewrite H. left. reflexivity.
  - rewrite H. right. left. reflexivity.
  - right. right. apply SFmul_signed, SFdiv_signed, H.
Qed.

(** ** [Math.min] and [Math.max] *)

Lemma min_loop_spec l :
  forall lowest,
    no_nan l -> is_nan lowest = false ->
    let r := min_loop lowest l in
    (r = lowest \/ In r l) /\ is_nan r = false /\
    (r <=? lowest) = true /\ forall x, In x l -> (r <=? x) = true.
Proof.
  induction l as [|number rest IH]; intros lowest Hl Hlow; simpl.
  - repeat split; [now left|assumption|now apply leb_refl|tauto].
  - assert (Hn : is_nan number = false) by (apply Hl; now left).
    assert (Hrest : no_nan rest) by (intros x Hx; apply Hl; now right).
    rewrite Hn.
    set (lowest1 := if is_neg_zero number && is_pos_zero lowest
                    then number else lowest).
    set (lowest2 := if number <? lowest1 then number else lowest1).
    assert (H2 : (lowest2 = lowest \/ lowest2 = number) /\
                 is_nan lowest2 = false /\
                 (lowest2 <=? lowest) = true /\
                 (lowest2 <=? number) = true).
    { subst lowest2 lowest1.
      destruct (is_neg_zero number && is_pos_zero lowest) eqn:Z.
      - apply andb_prop in Z. destruct Z as [Z1 Z2].
        unfold is_neg_zero in Z1. unfold is_pos_zero in Z2.
        apply andb_prop in Z1, Z2. destruct Z1 as [Z1 _], Z2 as [Z2 _].
        assert ((number <? number) = false) as ->.
        { rewrite ltb_spec. destruct (is_zero_Prim2SF Z1) as [s ->].
          reflexivity. }
        repeat split; [now right|assumption|now apply zeros_leb|
                        now apply leb_refl].
      - destruct (number <? lowest) eqn:L.
        + repeat split; [now right|assumption|now apply ltb_leb|
                          now apply leb_refl].
        + repeat split; [now left|assumption|now apply leb_refl|
                          now apply ltb_false_leb]. }
    destruct H2 as (Hin2 & Hnan2 & Hle2 & Hlen2).
    destruct (IH lowest2 Hrest Hnan2) as (Hr & Hrn & Hrl & Hrx).
    repeat split.
    + destruct Hr as [Hr|Hr]; [|right; now right].
      rewrite Hr. destruct Hin2 as [->| ->]; [now left|right; now left].
    + assumption.
    + eapply leb_trans; eassumption.
    + intros x [<-|Hx]; [eapply leb_trans; eassumption|now apply Hrx].
Qed.

Lemma max_loop_spec l :
  forall highest,
    no_nan l -> is_nan highest = false ->
    let r := max_loop highest l in
    (r = highest \/ In r l) /\ is_nan r = false /\
    (highest <=? r) = true /\ forall x, In x l -> (x <=? r) = true.
Proof.
  induction l as [|number rest IH]; intros highest Hl Hhigh; simpl.
  - repeat split; [now left|assumption|now apply leb_refl|tauto].
  - assert (Hn : is_nan number = false) by (apply Hl; now left).
    assert (Hrest : no_nan rest) by (intros x Hx; apply Hl; now right).
    rewrite Hn.
    set (highest1 := if is_pos_zero number && is_neg_zero highest
                     then number else highest).
    set (highest2 := if highest1 <? number then number else highest1).
    assert (H2 : (highest2 = highest \/ highest2 = number) /\
                 is_nan highest2 = false /\
                 (highest <=? highest2) = true /\
                 (number <=? highest2) = true).
    { subst highest2 highest1.
      destruct (is_pos_zero number && is_neg_zero highest) eqn:Z.
      - apply andb_prop in Z. destruct Z as [Z1 Z2].
        unfold is_pos_zero in Z1. unfold is_neg_zero in Z2.
        apply andb_prop in Z1, Z2. destruct Z1 as [Z1 _], Z2 as [Z2 _].
        assert ((number <? number) = false) as ->.
        { rewrite ltb_spec. destruct (is_zero_Prim2SF Z1) as [s ->].
          reflexivity. }
        repeat split; [now right|assumption|now apply zeros_leb|
                        now apply leb_refl].
      - destruct (highest <? number) eqn:L.
        + repeat split; [now right|assumption|now apply ltb_leb|
                          now apply leb_refl].
        + repeat split; [now left|assumption|now apply leb_refl|
                          now apply ltb_false_leb]. }
    destruct H2 as (Hin2 & Hnan2 & Hle2 & Hlen2).
    destruct (IH highest2 Hrest Hnan2) as (Hr & Hrn & Hrl & Hrx).
    repeat split.
    + destruct Hr as [Hr|Hr]; [|right; now right].
      rewrite Hr. destruct Hin2 as [->| ->]; [now left|right; now left].
    + assumption.
    + eapply leb_trans; eassumption.
    + intros x [<-|Hx]; [eapply leb_trans; eassumption|now apply Hrx].
Qed.

(** On a non-empty list without NaN, [Math.min] is an element of the list
    below all the others. *)
Lemma Math_min_least l :
  l <> [] -> no_nan l ->
  In (Math_min l) l /\ forall x, In x l -> (Math_min l <=? x) = true.
Proof.
  intros Hne Hl. unfold Math_min.
  destruct (@min_loop_spec l infinity Hl eq_refl) as (Hr & _ & _ & Hx).
  split; [|exact Hx].
  destruct Hr as [Hr|Hr]; [|exact Hr].
  destruct l as [|y rest]; [congruence|].
  assert (Hy : (min_loop infinity (y :: rest) <=? y) = true)
    by (apply Hx; now left).
  rewrite Hr in Hy. apply leb_infinity_l in Hy.
  rewrite Hr, <- Hy. now left.
Qed.

Lemma Math_max_greatest l :
  l <> [] -> no_nan l ->
  In (Math_max l) l /\ forall x, In x l -> (x <=? Math_max l) = true.
Proof.
  intros Hne Hl. unfold Math_max.
  destruct (@max_loop_spec l neg_infinity Hl eq_refl) as (Hr & _ & _ & Hx).
  split; [|exact Hx].
  destruct Hr as [Hr|Hr]; [|exact Hr].
  destruct l as [|y rest]; [congruence|].
  assert (Hy : (y <=? max_loop neg_infinity (y :: rest)) = true)
    by (apply Hx; now left).
  rewrite Hr in Hy. apply leb_neg_infinity_r in Hy.
  rewrite Hr, <- Hy. now left.
Qed.

(** A NaN among the arguments makes both NaN. *)
Lemma min_loop_nan l :
  forall lowest, (exists x, In x l /\ is_nan x = true) ->
                 min_loop lowest l = nan.
Proof.
  induction l as [|y rest IH]; intros lowest [x [Hin Hx]]; simpl.
  - destruct Hin.
  - destruct (is_nan y) eqn:E; [reflexivity|].
    apply IH. exists x. destruct Hin as [->|Hin]; [congruence|tauto].
Qed.

Lemma max_loop_nan l :
  forall highest, (exists x, In x l /\ is_nan x = true) ->
                  max_loop highest l = nan.
Proof.
  induction l as [|y rest IH]; intros highest [x [Hin Hx]]; simpl.
  - destruct Hin.
  - destruct (is_nan y) eqn:E; [reflexivity|].
    apply IH. exists x. destruct Hin as [->|Hin]; [congruence|tauto].
Qed.

End NumberFacts.

(* ===================================================================== *)
(** * Natural numbers as Numbers, and their decimal numerals *)
(* ===================================================================== *)

(** ** The binary64 value of a natural number below 2^53 *)
Section NaturalNumbers.
Local Open Scope Z_scope.

Lemma digits2_pos_bounds p :
  2 ^ (Z.pos (digits2_pos p) - 1) <= Z.pos p < 2 ^ Z.pos (digits2_pos p).
Proof.
  induction p as [p IH|p IH|]; simpl digits2_pos.
  - rewrite Pos2Z.inj_succ.
    replace (Z.succ (Z.pos (digits2_pos p)) - 1) with
      (Z.succ (Z.pos (digits2_pos p) - 1)) by lia.
    rewrite !Z.pow_succ_r by lia. lia.
  - rewrite Pos2Z.inj_succ.
    replace (Z.succ (Z.pos (digits2_pos p)) - 1) with
      (Z.succ (Z.pos (digits2_pos p) - 1)) by lia.
    rewrite !Z.pow_succ_r by lia. lia.
  - simpl. lia.
Qed.

Lemma digits2_pos_iter_xO p k :
  Z.pos (digits2_pos (Pos.iter xO p k)) = Z.pos (digits2_pos p) + Z.pos k.
Proof.
  induction k as [|k IH] using Pos.peano_ind.
  - simpl. lia.
  - rewrite Pos.iter_succ. simpl digits2_pos. lia.
Qed.

Lemma pos_iter_xO p k : Z.pos (Pos.iter xO p k) = Z.pos p * 2 ^ Z.pos k.
Proof.
  induction k as [|k IH] using Pos.peano_ind.
  - simpl. lia.
  - rewrite Pos.iter_succ, Pos2Z.inj_xO, IH, Pos2Z.inj_succ,
      Z.pow_succ_r by lia. lia.
Qed.

Lemma shr_fexp_canonical m e :
  Z.pos (digits2_pos m) = 53 -> -1074 <= e ->
  shr_fexp prec emax (Z.pos m) e loc_Exact
  = ({| shr_m := Z.pos m; shr_r := false; shr_s := false |}, e).
Proof.
  intros Hd He. unfold shr_fexp. simpl Zdigits2. rewrite Hd.
  replace (fexp prec emax (53 + e) - e) with 0
    by (unfold fexp, emin, prec, emax; lia).
  reflexivity.
Qed.

Lemma binary_round_aux_canonical m e :
  Z.pos (digits2_pos m) = 53 -> -1074 <= e <= 971 ->
  binary_round_aux prec emax false (Z.pos m) e loc_Exact
  = S754_finite false m e.
Proof.
  intros Hd He. unfold binary_round_aux.
  rewrite shr_fexp_canonical by (assumption || lia).
  cbn [shr_m loc_of_shr_record round_nearest_even].
  rewrite shr_fexp_canonical by (assumption || lia).
  cbn [shr_m].
  replace (e <=? emax - prec) with true; [reflexivity|].
  symmetry. apply Z.leb_le. unfold emax, prec. lia.
Qed.

(** The specification float of a positive integer below 2^53: the
    integer itself, shifted to a mantissa of 53 bits. *)
Lemma binary_round_small p :
  Z.pos p < 2 ^ 53 ->
  exists m e,
    binary_round prec emax false p 0 = S754_finite false m e /\
    -52 <= e <= 0 /\ Z.pos m = Z.pos p * 2 ^ (- e) /\
    Z.pos (digits2_pos m) = 53.
Proof.
  intros Hp. pose proof (digits2_pos_bounds p) as Hd.
  set (d := Z.pos (digits2_pos p)) in *.
  assert (Hd53 : 1 <= d <= 53).
  { split; [subst d; lia|].
    destruct (Z_le_gt_dec d 53) as [H|H]; [exact H|exfalso].
    assert (2 ^ 53 <= 2 ^ (d - 1)) by (apply Z.pow_le_mono_r; lia). lia. }
  unfold binary_round.
  replace (fexp prec emax (Z.pos (digits2_pos p) + 0)) with (d - 53).
  2:{ unfold fexp, emin, prec, emax. fold d. lia. }
  unfold shl_align.
  destruct (d - 53 - 0) as [|q|q] eqn:E; [| lia |].
  - (* d = 53 *)
    assert (d = 53) by lia.
    exists p, 0. split; [|split; [lia|split; [simpl; lia|assumption]]].
    apply binary_round_aux_canonical; [assumption|lia].
  - (* d < 53 *)
    assert (Hq : Z.pos q = 53 - d) by lia.
    exists (Pos.iter xO p q), (d - 53).
    pose proof (digits2_pos_iter_xO p q) as Hdig. fold d in Hdig.
    split; [|split; [lia|split]].
    + apply binary_round_aux_canonical; lia.
    + rewrite pos_iter_xO. f_equal. f_equal. lia.
    + lia.
Qed.

(** The Number of a natural number below 2^53 is that number, exactly. *)
Lemma Prim2SF_Number_of_Z z :
  0 < z < 2 ^ 53 ->
  exists m e,
    Prim2SF (Number_of_Z z) = S754_finite false m e /\
    -52 <= e <= 0 /\ Z.pos m = z * 2 ^ (- e) /\
    Z.pos (digits2_pos m) = 53.
Proof.
  intros Hz. destruct z as [|p|p]; try lia.
  destruct (@binary_round_small p (proj2 Hz)) as (m & e & Hr & He & Hm & Hd).
  exists m, e. split; [|tauto].
  unfold Number_of_Z, binary_normalize. rewrite Hr.
  apply Prim2SF_SF2Prim. simpl. unfold bounded, canonical_mantissa.
  rewrite Hd. apply andb_true_intro. split.
  - apply Z.eqb_eq. unfold fexp, emin, prec, emax. lia.
  - apply Z.leb_le. unfold emax, prec. lia.
Qed.

End NaturalNumbers.

(** ** The shortest decimal digits of a natural number *)
Section SmallNaturals.
Local Open Scope Z_scope.
(** A natural number [z] below 2^53 as a binary64 value: the mantissa
    [z * 2^t] with the exponent [- t]. *)
Variables z t : Z.
Hypothesis Hz : 1 <= z.
Hypothesis Ht : 0 <= t.
Local Abbreviation x := {| pf_m := z * 2 ^ t; pf_e := - t |}.

Lemma pf_val_small : pf_val x = z * 2 ^ (t + 2).
Proof.
  unfold pf_val. cbn [pf_m]. rewrite Z.pow_add_r by lia.
  change (2 ^ 2) with 4. lia.
Qed.

Lemma cmp_dec_small s p b :
  cmp_dec x s p b
  = (s * 10 ^ Z.max p 0 * 2 ^ (t + 2) ?= b * 10 ^ Z.max (- p) 0).
Proof.
  unfold cmp_dec. simpl pf_e.
  replace (Z.max (2 - - t) 0) with (t + 2) by lia.
  replace (Z.max (- t - 2) 0) with 0 by lia.
  now rewrite Z.pow_0_r, Z.mul_1_r.
Qed.

Lemma pow2_pos : 0 < 2 ^ (t + 2).
Proof. apply Z.pow_pos_nonneg; lia. Qed.

(** [10^n > z], as the search for the decimal exponent tests it. *)
Lemma cmp_pow10 n :
  cmp_dec x 1 n (pf_val x) = Gt <-> 0 <= n /\ z < 10 ^ n.
Proof.
  rewrite cmp_dec_small, pf_val_small. pose proof pow2_pos as H2.
  destruct (Z_lt_le_dec n 0) as [Hn|Hn].
  - replace (Z.max n 0) with 0 by lia.
    replace (Z.max (- n) 0) with (- n) by lia.
    assert (Hp : 0 < 10 ^ (- n)) by (apply Z.pow_pos_nonneg; lia).
    split; [|lia]. intros Hc. apply Z.compare_gt_iff in Hc.
    exfalso. rewrite Z.pow_0_r in Hc.
    assert (1 <= z * 10 ^ (- n)) by nia.
    assert (2 ^ (t + 2) * 1 <= 2 ^ (t + 2) * (z * 10 ^ (- n)))
      by (apply Z.mul_le_mono_nonneg_l; lia).
    lia.
  - replace (Z.max n 0) with n by lia.
    replace (Z.max (- n) 0) with 0 by lia.
    rewrite Z.pow_0_r, Z.mul_1_r, Z.compare_gt_iff.
    split; [intros H; split; [lia|nia] | intros [_ H]; nia].
Qed.

(** The number of decimal digits of [z]. *)
Variable N : Z.
Hypothesis HN : 10 ^ (N - 1) <= z < 10 ^ N.

Lemma N_pos : 1 <= N.
Proof.
  destruct (Z_lt_le_dec N 1) as [H|H]; [|exact H].
  assert (10 ^ N <= 10 ^ 0) by (apply Z.pow_le_mono_r; lia).
  simpl in *. lia.
Qed.

Lemma exp_down_small fuel :
  forall n, n - N <= Z.of_nat fuel ->
            exp_down fuel x n = Z.min n N.
Proof.
  pose proof N_pos as HN1.
  induction fuel as [|fuel IH]; intros n Hf.
  - simpl. lia.
  - cbn [exp_down].
    destruct (cmp_dec x 1 (n - 1) (pf_val x)) eqn:E.
    + assert (~ (0 <= n - 1 /\ z < 10 ^ (n - 1)))
        by (rewrite <- cmp_pow10; congruence).
      destruct (Z_lt_le_dec N n) as [H'|H']; [|lia].
      exfalso. apply H. split; [lia|].
      assert (10 ^ N <= 10 ^ (n - 1)) by (apply Z.pow_le_mono_r; lia). lia.
    + assert (~ (0 <= n - 1 /\ z < 10 ^ (n - 1)))
        by (rewrite <- cmp_pow10; congruence).
      destruct (Z_lt_le_dec N n) as [H'|H']; [|lia].
      exfalso. apply H. split; [lia|].
      assert (10 ^ N <= 10 ^ (n - 1)) by (apply Z.pow_le_mono_r; lia). lia.
    + apply cmp_pow10 in E. destruct E as [E1 E2].
      assert (N <= n - 1).
      { destruct (Z_lt_le_dec (n - 1) N) as [H'|H']; [|exact H'].
        assert (10 ^ (n - 1) <= 10 ^ (N - 1))
          by (apply Z.pow_le_mono_r; lia). lia. }
      rewrite IH by lia. lia.
Qed.

Lemma exp_up_small fuel :
  forall n, 0 <= n -> N - n <= Z.of_nat fuel -> n <= N ->
            exp_up fuel x n = N.
Proof.
  pose proof N_pos as HN1.
  induction fuel as [|fuel IH]; intros n Hn Hf Hle.
  - simpl. lia.
  - cbn [exp_up].
    destruct (cmp_dec x 1 n (pf_val x)) eqn:E.
    + assert (H : ~ (0 <= n /\ z < 10 ^ n))
        by (rewrite <- cmp_pow10; congruence).
      assert (n < N) by (destruct (Z.eq_dec n N); [subst; tauto|lia]).
      apply IH; lia.
    + assert (H : ~ (0 <= n /\ z < 10 ^ n))
        by (rewrite <- cmp_pow10; congruence).
      assert (n < N) by (destruct (Z.eq_dec n N); [subst; tauto|lia]).
      apply IH; lia.
    + apply cmp_pow10 in E. destruct E as [E1 E2].
      destruct (Z_lt_le_dec n N) as [H'|H']; [|lia].
      assert (10 ^ n <= 10 ^ (N - 1)) by (apply Z.pow_le_mono_r; lia). lia.
Qed.

Lemma floor_scaled_small p : 0 <= p -> floor_scaled x p = z / 10 ^ p.
Proof.
  intros Hp. unfold floor_scaled. rewrite pf_val_small. simpl pf_e.
  replace (Z.max (- p) 0) with 0 by lia.
  replace (Z.max (- t - 2) 0) with 0 by lia.
  replace (Z.max p 0) with p by lia.
  replace (Z.max (2 - - t) 0) with (t + 2) by lia.
  rewrite Z.pow_0_r, !Z.mul_1_r.
  pose proof pow2_pos.
  apply Z.div_mul_cancel_r; [|lia].
  assert (0 < 10 ^ p) by (apply Z.pow_pos_nonneg; lia). lia.
Qed.

(** Only the decimal that is [z] itself rounds to [z]. *)
Lemma rounds_to_small s p :
  0 <= p -> rounds_to x s p = (s * 10 ^ p =? z).
Proof.
  intros Hp. unfold rounds_to. rewrite !cmp_dec_small.
  replace (Z.max p 0) with p by lia.
  replace (Z.max (- p) 0) with 0 by lia.
  rewrite Z.pow_0_r, !Z.mul_1_r.
  pose proof pow2_pos as HM.
  assert (H4 : 4 <= 2 ^ (t + 2)).
  { change 4 with (2 ^ 2). apply Z.pow_le_mono_r; lia. }
  assert (Hhi : pf_hi x = z * 2 ^ (t + 2) + 2).
  { unfold pf_hi. cbn [pf_m]. rewrite Z.pow_add_r by lia.
    change (2 ^ 2) with 4. lia. }
  assert (Hlo : z * 2 ^ (t + 2) - 2 <= pf_lo x < z * 2 ^ (t + 2)).
  { unfold pf_lo. cbn [pf_m pf_e]. rewrite Z.pow_add_r by lia.
    change (2 ^ 2) with 4. destruct (_ && _); lia. }
  rewrite Hhi. set (M := 2 ^ (t + 2)) in *. set (lo := pf_lo x) in *.
  set (v := s * 10 ^ p).
  destruct (Z.compare_spec v z) as [E|E|E].
  - rewrite E. replace (z * M ?= lo) with Gt
      by (symmetry; apply Z.compare_gt_iff; lia).
    replace (z * M ?= z * M + 2) with Lt
      by (symmetry; apply Z.compare_lt_iff; lia).
    symmetry. apply Z.eqb_refl.
  - assert (v * M <= (z - 1) * M) by (apply Z.mul_le_mono_nonneg_r; lia).
    replace (v * M ?= lo) with Lt
      by (symmetry; apply Z.compare_lt_iff; lia).
    replace (v * M ?= z * M + 2) with Lt
      by (symmetry; apply Z.compare_lt_iff; lia).
    symmetry. apply Z.eqb_neq. lia.
  - assert ((z + 1) * M <= v * M) by (apply Z.mul_le_mono_nonneg_r; lia).
    replace (v * M ?= lo) with Gt
      by (symmetry; apply Z.compare_gt_iff; lia).
    replace (v * M ?= z * M + 2) with Gt
      by (symmetry; apply Z.compare_gt_iff; lia).
    symmetry. apply Z.eqb_neq. lia.
Qed.

Lemma pick_small k :
  k <= N ->
  pick x N k
  = if z / 10 ^ (N - k) * 10 ^ (N - k) =? z
    then Some (z / 10 ^ (N - k)) else None.
Proof.
  intros Hk. unfold pick.
  rewrite floor_scaled_small, !rounds_to_small by lia.
  set (q := 10 ^ (N - k)).
  assert (Hq : 0 < q) by (apply Z.pow_pos_nonneg; lia).
  assert (Hs2 : ((z / q + 1) * q =? z) = false).
  { apply Z.eqb_neq. pose proof (Z.mul_succ_div_gt z q Hq). lia. }
  rewrite Hs2. destruct (z / q * q =? z); reflexivity.
Qed.

Lemma shortest_small fuel :
  forall k, 1 <= k <= N -> N - k < Z.of_nat fuel ->
    exists s k', shortest fuel x N k = (s, k', N) /\
                 k <= k' <= N /\ s * 10 ^ (N - k') = z /\ 1 <= s.
Proof.
  induction fuel as [|fuel IH]; intros k Hk Hf; [simpl in Hf; lia|].
  cbn [shortest]. rewrite pick_small by lia.
  set (q := 10 ^ (N - k)).
  assert (Hq : 0 < q) by (apply Z.pow_pos_nonneg; lia).
  destruct (z / q * q =? z) eqn:E.
  - apply Z.eqb_eq in E.
    assert (Hs1 : 1 <= z / q).
    { destruct (Z_lt_le_dec (z / q) 1) as [H|H]; [|exact H].
      assert (z / q <= 0) by lia.
      assert (0 <= z / q) by (apply Z.div_pos; lia).
      assert (z / q = 0) by lia. rewrite H2 in E. lia. }
    assert (Hs2 : z / q < 10 ^ k).
    { apply Z.div_lt_upper_bound; [lia|]. unfold q.
      rewrite <- Z.pow_add_r by lia.
      replace (N - k + k) with N by lia. lia. }
    replace (z / q =? 10 ^ k) with false by (symmetry; apply Z.eqb_neq; lia).
    replace (z / q =? 0) with false by (symmetry; apply Z.eqb_neq; lia).
    exists (z / q), k. repeat split; lia.
  - destruct (Z.eq_dec k N) as [->|Hne].
    + exfalso. apply Z.eqb_neq in E. apply E. unfold q.
      rewrite Z.sub_diag, Z.pow_0_r, Z.div_1_r. lia.
    + destruct (IH (k + 1)) as (s & k' & Hs & Hk' & Hv & H1); try lia.
      exists s, k'. repeat split; try lia. exact Hs.
Qed.

End SmallNaturals.

(** ** Printing a natural number, and reading it back *)
Section Numerals.
Import DecimalPos DecimalFacts.
Local Open Scope Z_scope.

Lemma uint_value_acc d :
  forall acc, uint_value (Z.pos acc) d = Z.pos (Pos.of_uint_acc d acc).
Proof.
  induction d; intros acc; cbn [uint_value Pos.of_uint_acc];
    try reflexivity; rewrite <- IHd; f_equal; lia.
Qed.

Lemma uint_value_0 d : uint_value 0 d = Z.of_N (Pos.of_uint d).
Proof.
  induction d; cbn [uint_value Pos.of_uint]; try reflexivity;
    try exact IHd; apply (uint_value_acc d).
Qed.

Lemma parse_digits_uint d :
  forall acc r,
    parse_digits (Some acc) (NilEmpty.string_of_uint d ++ r)
    = parse_digits (Some (uint_value acc d)) r.
Proof.
  induction d; intros acc r; simpl; try reflexivity; apply IHd.
Qed.

Lemma parse_digits_uint_start d r :
  d <> Decimal.Nil ->
  parse_digits None (NilEmpty.string_of_uint d ++ r)
  = parse_digits (Some (uint_value 0 d)) r.
Proof.
  destruct d; intros H; try congruence; simpl; apply parse_digits_uint.
Qed.

Lemma parse_digits_zeros n :
  forall acc r,
    parse_digits (Some acc) (zeros n ++ r)
    = parse_digits (Some (acc * 10 ^ Z.of_nat n)) r.
Proof.
  induction n as [|n IH]; intros acc r.
  - simpl. now rewrite Z.mul_1_r.
  - change (zeros (S n) ++ r)%string with (String "0" (zeros n ++ r)).
    cbn [parse_digits]. change (digit_value "0") with (Some 0).
    cbv iota. rewrite IH. f_equal. f_equal.
    rewrite Nat2Z.inj_succ, Z.pow_succ_r by lia. lia.
Qed.

Lemma all_digits_uint d : all_digits (NilEmpty.string_of_uint d) = true.
Proof. induction d; simpl; auto. Qed.

Lemma all_digits_zeros n : all_digits (zeros n) = true.
Proof. induction n; simpl; auto. Qed.

Lemma all_digits_app a b :
  all_digits a = true -> all_digits b = true -> all_digits (a ++ b) = true.
Proof.
  induction a as [|c a IH]; simpl; [auto|].
  destruct (digit_value c); [auto|discriminate].
Qed.

Lemma string_app_assoc (a b c : string) :
  ((a ++ b) ++ c = a ++ (b ++ c))%string.
Proof. induction a as [|x a IH]; simpl; [reflexivity|now rewrite IH]. Qed.

(** The decimal numeral of a positive integer. *)
Lemma string_of_Z_pos p :
  string_of_Z (Z.pos p) = NilEmpty.string_of_uint (Pos.to_uint p).
Proof.
  unfold string_of_Z. simpl.
  pose proof (Unsigned.to_uint_nonnil p) as H.
  destruct (Pos.to_uint p); simpl; congruence.
Qed.

Lemma parse_digits_string_of_Z s n r :
  1 <= s ->
  parse_digits None ((string_of_Z s ++ zeros n) ++ r)
  = parse_digits (Some (s * 10 ^ Z.of_nat n)) r.
Proof.
  intros Hs. destruct s as [|p|p]; try lia.
  rewrite string_of_Z_pos, string_app_assoc.
  rewrite parse_digits_uint_start by apply Unsigned.to_uint_nonnil.
  rewrite uint_value_0, DecimalPos.Unsigned.of_to.
  apply parse_digits_zeros.
Qed.

Lemma string_of_Z_digits s : 1 <= s -> all_digits (string_of_Z s) = true.
Proof.
  intros Hs. destruct s as [|p|p]; try lia.
  rewrite string_of_Z_pos. apply all_digits_uint.
Qed.

Lemma string_of_Z_nonempty s :
  1 <= s -> exists c rest, string_of_Z s = String c rest.
Proof.
  intros Hs. destruct s as [|p|p]; try lia.
  rewrite string_of_Z_pos.
  pose proof (Unsigned.to_uint_nonnil p) as H.
  destruct (Pos.to_uint p); try congruence; simpl; eauto.
Qed.

(** ** Number to String on the natural numbers below 2^53 *)

Lemma decimal_width (n : nat) :
  forall z, 1 <= z < 10 ^ Z.of_nat n ->
            exists N, 1 <= N <= Z.of_nat n /\ 10 ^ (N - 1) <= z < 10 ^ N.
Proof.
  induction n as [|n IH]; intros z Hz; [simpl in Hz; lia|].
  destruct (Z_lt_le_dec z (10 ^ Z.of_nat n)) as [H|H].
  - destruct (IH z) as (N & HN & Hb); [lia|]. exists N. split; [lia|exact Hb].
  - exists (Z.of_nat (S n)). split; [lia|].
    replace (Z.of_nat (S n) - 1) with (Z.of_nat n) by lia. lia.
Qed.

Lemma Number_toString_natural z :
  1 <= z < 2 ^ 53 ->
  exists s n,
    Number_toString (Number_of_Z z) = (string_of_Z s ++ zeros n)%string /\
    1 <= s /\ s * 10 ^ Z.of_nat n = z.
Proof.
  intros Hz.
  destruct (@Prim2SF_Number_of_Z z) as (m & e & Hx & He & Hm & Hd); [lia|].
  destruct (@decimal_width 16 z) as (N & HN & Hb).
  { split; [lia|]. change (10 ^ Z.of_nat 16) with 10000000000000000.
    change (2 ^ 53) with 9007199254740992 in Hz. lia. }
  set (t := - e).
  assert (Ht : 0 <= t <= 52) by (unfold t; lia).
  assert (Hm' : Z.pos m = z * 2 ^ t) by exact Hm.
  assert (Hlog : Z.log2 (z * 2 ^ t) = 52).
  { rewrite <- Hm'. apply Z.log2_unique; [lia|].
    pose proof (digits2_pos_bounds m) as Hb2. rewrite Hd in Hb2.
    replace (53 - 1) with 52 in Hb2 by lia.
    replace (52 + 1) with 53 by lia. exact Hb2. }
  unfold Number_toString. rewrite Hx, Hm'.
  replace e with (- t) by (unfold t; lia).
  unfold digits_of.
  assert (Hdec : dec_exponent {| pf_m := z * 2 ^ t; pf_e := - t |} = N).
  { unfold dec_exponent. cbn [pf_m pf_e]. rewrite Hlog.
    set (est := (52 + - t) * 1233 / 4096).
    assert (Hest : 0 <= est <= 16).
    { unfold est. split.
      - apply Z.div_pos; lia.
      - apply Z.div_le_upper_bound; lia. }
    rewrite (@exp_down_small z t) with (N := N); try lia.
    apply (@exp_up_small z t); lia. }
  rewrite Hdec.
  destruct (@shortest_small z t) with (N := N) (fuel := 17%nat) (k := 1)
    as (s & k' & Hs & Hk' & Hv & H1); try lia.
  rewrite Hs. exists s, (Z.to_nat (N - k')).
  split; [|split; [exact H1|]].
  - unfold format_digits.
    replace (k' <=? N) with true by (symmetry; apply Z.leb_le; lia).
    replace (N <=? 21) with true by (symmetry; apply Z.leb_le; lia).
    reflexivity.
  - rewrite Z2Nat.id by lia. exact Hv.
Qed.

Lemma digit_is_plain c d :
  digit_value c = Some d ->
  is_white_space c = false /\ Ascii.eqb c "-" = false /\
  Ascii.eqb c "+" = false.
Proof.
  destruct c as [[] [] [] [] [] [] [] []]; simpl; try discriminate;
    intros _; repeat split.
Qed.

Lemma string_app_nil_r (s : string) : (s ++ "")%string = s.
Proof. induction s as [|c s IH]; simpl; [reflexivity|now rewrite IH]. Qed.

(** [parseInt] reads back a decimal numeral followed by zeros. *)
Lemma parseInt10_numeral s n :
  1 <= s ->
  parseInt10 (string_of_Z s ++ zeros n) = Number_of_Z (s * 10 ^ Z.of_nat n).
Proof.
  intros Hs. unfold parseInt10.
  pose proof (@parse_digits_string_of_Z s n "" Hs) as Hp.
  rewrite string_app_nil_r in Hp. simpl parse_digits at 2 in Hp.
  destruct (string_of_Z_nonempty Hs) as (c & rest & Hc).
  pose proof (string_of_Z_digits Hs) as Hd. rewrite Hc in Hd, Hp |- *.
  simpl in Hd. destruct (digit_value c) as [d|] eqn:Ed; [|discriminate].
  destruct (digit_is_plain _ Ed) as (Hw & Hm & Hpl).
  change ((String c rest ++ zeros n)%string)
    with (String c (rest ++ zeros n)) in *.
  cbn [trim_start]. rewrite Hw.
  assert (Hsign :
    (match String c (rest ++ zeros n) with
     | String "-" r => (true, r)
     | String "+" r => (false, r)
     | _ => (false, String c (rest ++ zeros n))
     end) = (false, String c (rest ++ zeros n))).
  { destruct c as [[] [] [] [] [] [] [] []]; try reflexivity;
      simpl in Hm, Hpl; discriminate. }
  rewrite Hsign, Hp.
  assert (0 < 10 ^ Z.of_nat n) by (apply Z.pow_pos_nonneg; lia).
  replace (s * 10 ^ Z.of_nat n =? 0) with false
    by (symmetry; apply Z.eqb_neq; nia).
  reflexivity.
Qed.

(** Number to String and [parseInt] on the Numbers of the naturals below
    2^53: the string is made of digits, and it parses back. *)
Lemma natural_roundtrip a :
  0 <= a < 2 ^ 53 ->
  all_digits (Number_toString (Number_of_Z a)) = true /\
  parseInt10 (Number_toString (Number_of_Z a)) = Number_of_Z a.
Proof.
  intros Ha. destruct (Z.eq_dec a 0) as [->|Hne].
  - vm_compute. split; reflexivity.
  - destruct (@Number_toString_natural a) as (s & n & Hs & H1 & Hv); [lia|].
    rewrite Hs. split.
    + apply all_digits_app;
        [now apply string_of_Z_digits|apply all_digits_zeros].
    + rewrite parseInt10_numeral by assumption. now rewrite Hv.
Qed.

Lemma split_digits (s : string) :
  all_digits s = true -> String_split "-" s = [s].
Proof.
  induction s as [|c s IH]; simpl; [reflexivity|].
  destruct (digit_value c) as [d|] eqn:E; [|discriminate].
  destruct (digit_is_plain _ E) as (_ & Hm & _). rewrite Hm.
  intros H. now rewrite IH.
Qed.

Lemma split_digits_dash (a b : string) :
  all_digits a = true ->
  String_split "-" (a ++ String "-" b) = a :: String_split "-" b.
Proof.
  induction a as [|c a IH]; simpl; [reflexivity|].
  destruct (digit_value c) as [d|] eqn:E; [|discriminate].
  destruct (digit_is_plain _ E) as (_ & Hm & _). rewrite Hm.
  intros H. now rewrite IH.
Qed.

(** The key of two natural indices reads back as these indices. *)
Lemma key_of_naturals a b :
  0 <= a < 2 ^ 53 -> 0 <= b < 2 ^ 53 ->
  key_latIdx (make_key (Number_of_Z a) (Number_of_Z b)) = Number_of_Z a /\
  key_lonIdx (make_key (Number_of_Z a) (Number_of_Z b)) = Number_of_Z b.
Proof.
  intros Ha Hb.
  destruct (natural_roundtrip Ha) as [Hda Hpa].
  destruct (natural_roundtrip Hb) as [Hdb Hpb].
  unfold key_latIdx, key_lonIdx, make_key.
  change ("-" ++ Number_toString (Number_of_Z b))%string
    with (String "-" (Number_toString (Number_of_Z b))).
  rewrite split_digits_dash, split_digits by assumption.
  split; assumption.
Qed.

End Numerals.

(** ** The floor of a small quotient *)
Section SmallQuotients.
Local Open Scope Z_scope.

Lemma valid_mantissa s m e :
  valid_binary (S754_finite s m e) = true ->
  Z.pos (digits2_pos m) <= 53 /\
  (Z.pos (digits2_pos m) = 53 \/ e = -1074).
Proof.
  simpl. unfold bounded, canonical_mantissa, fexp, emin, prec, emax.
  intros H. apply andb_prop in H. destruct H as [H _].
  apply Z.eqb_eq in H. lia.
Qed.

Lemma pow2_le_mono a b : a <= b -> 0 <= a -> 2 ^ a <= 2 ^ b.
Proof. intros. apply Z.pow_le_mono_r; lia. Qed.

(** A mantissa of 53 bits determines its exponent. *)
Lemma same_scale z a b :
  0 <= a -> 0 <= b ->
  2 ^ 52 <= z * 2 ^ a < 2 ^ 53 -> 2 ^ 52 <= z * 2 ^ b < 2 ^ 53 -> a = b.
Proof.
  intros Ha Hb H1 H2.
  assert (Hz : 0 < z).
  { assert (0 < 2 ^ a) by (apply Z.pow_pos_nonneg; lia).
    assert (0 < 2 ^ 52) by (apply Z.pow_pos_nonneg; lia). nia. }
  destruct (Z.lt_trichotomy a b) as [H|[H|H]]; [exfalso|exact H|exfalso].
  - assert (2 ^ (a + 1) <= 2 ^ b) by (apply pow2_le_mono; lia).
    rewrite Z.pow_add_r in H0 by lia. change (2 ^ 1) with 2 in H0.
    assert (z * (2 ^ a * 2) <= z * 2 ^ b)
      by (apply Z.mul_le_mono_nonneg_l; lia).
    change (2 ^ 53) with (2 ^ 52 * 2) in *. lia.
  - assert (2 ^ (b + 1) <= 2 ^ a) by (apply pow2_le_mono; lia).
    rewrite Z.pow_add_r in H0 by lia. change (2 ^ 1) with 2 in H0.
    assert (z * (2 ^ b * 2) <= z * 2 ^ a)
      by (apply Z.mul_le_mono_nonneg_l; lia).
    change (2 ^ 53) with (2 ^ 52 * 2) in *. lia.
Qed.

(** The floor of a small quotient is the Number of a natural number below
    2^53, or the negative zero. *)
Lemma floor_small q :
  small_quotient q ->
  (exists a, 0 <= a < 2 ^ 53 /\ Math_floor q = Number_of_Z a) \/
  Math_floor q = (- 0)%float.
Proof.
  intros [H0 Hlt]. rewrite leb_spec in H0. rewrite ltb_spec in Hlt.
  change (Prim2SF 0) with (S754_zero false) in H0.
  change (Prim2SF 9007199254740992)
    with (S754_finite false 4503599627370496 1) in Hlt.
  pose proof (Prim2SF_valid q) as Hv.
  unfold Math_floor, is_integral.
  destruct (Prim2SF q) as [s|s| |s m e] eqn:E.
  - destruct s.
    + right. apply Prim2SF_inj. rewrite E. reflexivity.
    + left. exists 0. split; [lia|].
      apply Prim2SF_inj. rewrite E. reflexivity.
  - destruct s; [discriminate H0|discriminate Hlt].
  - discriminate H0.
  - destruct s; [discriminate H0|].
    destruct (valid_mantissa _ _ _ Hv) as [Hd Hc].
    pose proof (digits2_pos_bounds m) as Hb.
    assert (Hm53 : Z.pos m < 2 ^ 53).
    { assert (2 ^ Z.pos (digits2_pos m) <= 2 ^ 53)
        by (apply pow2_le_mono; lia). lia. }
    assert (He : e <= 0).
    { unfold SFltb, SFcompare in Hlt.
      destruct (Z.compare_spec e 1) as [H|H|H]; [|lia|discriminate Hlt].
      exfalso. subst e.
      change (PosDef.Pos.compare_cont Eq) with Pos.compare in Hlt.
      destruct (Pos.compare_spec m 4503599627370496%positive) as [H|H|H];
        try discriminate Hlt.
      apply Pos2Z.pos_lt_pos in H.
      destruct Hc as [Hc|Hc]; [|discriminate Hc].
      rewrite Hc in Hb. change (2 ^ (53 - 1)) with 4503599627370496 in Hb.
      lia. }
    set (d := 2 ^ (- e)).
    assert (Hdpos : 1 <= d).
    { assert (0 < d) by (apply Z.pow_pos_nonneg; lia). lia. }
    destruct ((0 <=? e) || (Z.pos m mod d =? 0)) eqn:I.
    + (* an integral quotient *)
      left. exists (Z.pos m / d).
      assert (Hexact : Z.pos m / d * d = Z.pos m).
      { destruct (Z.leb_spec 0 e) as [H|H].
        - assert (e = 0) by lia. subst e. unfold d.
          change (2 ^ (- 0)) with 1. rewrite Z.div_1_r. lia.
        - simpl in I. apply Z.eqb_eq in I.
          pose proof (Z.div_mod (Z.pos m) d). lia. }
      assert (Hz : 1 <= Z.pos m / d < 2 ^ 53).
      { assert (0 <= Z.pos m / d) by (apply Z.div_pos; lia). nia. }
      split; [lia|].
      assert (Hd53 : Z.pos (digits2_pos m) = 53).
      { destruct Hc as [Hc|Hc]; [exact Hc|exfalso].
        subst e. unfold d in *. simpl Z.opp in *.
        assert (2 ^ 53 <= 2 ^ 1074) by (apply pow2_le_mono; lia).
        assert (0 < Z.pos m / 2 ^ 1074) by lia. nia. }
      destruct (@Prim2SF_Number_of_Z (Z.pos m / d))
        as (m' & e' & Hx & He' & Hm' & Hd'); [lia|].
      pose proof (digits2_pos_bounds m') as Hb'.
      rewrite Hd53 in Hb. rewrite Hd' in Hb'.
      assert (- e = - e').
      { apply (@same_scale (Z.pos m / d)); [lia|lia| |].
        - fold d. rewrite Hexact. exact Hb.
        - rewrite <- Hm'. exact Hb'. }
      assert (e' = e) by lia. subst e'.
      assert (m' = m).
      { fold d in Hm'. rewrite Hexact in Hm'. congruence. }
      subst m'. apply Prim2SF_inj. now rewrite E, Hx.
    + (* the floor of a quotient with a fractional part *)
      left. exists (Z.pos m / d). split; [|reflexivity].
      split; [apply Z.div_pos; lia|].
      apply Z.le_lt_trans with (Z.pos m); [|exact Hm53].
      apply Z.div_le_upper_bound; nia.
Qed.

End SmallQuotients.

Section DecodedIndices.
Local Open Scope float_scope.

(** Adding a product by zero to a finite Number that is not zero: the sign
    of the zero does not matter. *)
Lemma add_mul_zero c y s m e :
  Prim2SF c = S754_finite s m e -> c + y * 0 = c + y * (- 0).
Proof.
  intros Hc. apply Prim2SF_inj. rewrite !add_spec, !mul_spec, Hc.
  change (Prim2SF 0) with (S754_zero false).
  change (Prim2SF (- 0)) with (S754_zero true).
  destruct (Prim2SF y) as [sy|sy| |sy my ey]; reflexivity.
Qed.

(** The indices read back from the key of two small quotients give the
    position that the indices themselves give. *)
Lemma key_of_small_quotients qlat qlon x y :
  small_quotient qlat -> small_quotient qlon ->
  let key := make_key (Math_floor qlat) (Math_floor qlon) in
  -180 + x * key_lonIdx key = -180 + x * Math_floor qlon /\
  -90 + y * key_latIdx key = -90 + y * Math_floor qlat.
Proof.
  intros Hlat Hlon key.
  assert (Hnorm : forall q, small_quotient q ->
            exists a, (0 <= a < 2 ^ 53)%Z /\
                      Number_toString (Math_floor q)
                      = Number_toString (Number_of_Z a) /\
                      (Math_floor q = Number_of_Z a \/
                       (Math_floor q = - 0 /\ Number_of_Z a = 0))).
  { intros q Hq. destruct (floor_small Hq) as [(a & Ha & Hf)|Hf].
    - exists a. rewrite Hf. auto.
    - exists 0%Z. rewrite Hf. split; [lia|]. split; [reflexivity|].
      right. split; reflexivity. }
  destruct (Hnorm _ Hlat) as (a & Ha & Hsa & Hfa).
  destruct (Hnorm _ Hlon) as (b & Hb & Hsb & Hfb).
  assert (Hkey : key = make_key (Number_of_Z a) (Number_of_Z b)).
  { unfold key, make_key. now rewrite Hsa, Hsb. }
  destruct (key_of_naturals Ha Hb) as [Hka Hkb].
  rewrite Hkey, Hka, Hkb. split.
  - destruct Hfb as [->|[-> ->]]; [reflexivity|].
    apply (@add_mul_zero (-180) x true 6333186975989760 (-45)). reflexivity.
  - destruct Hfa as [->|[-> ->]]; [reflexivity|].
    apply (@add_mul_zero (-90) y true 6333186975989760 (-46)). reflexivity.
Qed.

End DecodedIndices.

(* ===================================================================== *)
(** * Further facts: counts, NaN, signs, zeros, extrema, negative indices *)
(* ===================================================================== *)

(** ** Counts *)
Section CountFacts.
Variable P : Type.
Local Open Scope Z_scope.

(** Cells that all count at least one point: there are no more cells than
    points counted. *)
Lemma length_le_sum_counts (h : hash (GridCell.t P)) :
  (forall key c, In (key, c) h -> 1 <= GridCell.count c) ->
  Z.of_nat (length h) <= sum_counts h.
Proof.
  unfold sum_counts. induction h as [|[key c] rest IH]; intros H.
  - simpl. lia.
  - assert (1 <= GridCell.count c) by (apply (H key); now left).
    assert (Z.of_nat (length rest)
            <= fold_right Z.add 0 (map (fun e => GridCell.count (snd e)) rest)).
    { apply IH. intros key' c' Hin. apply (H key'). now right. }
    cbn [length map fold_right snd]. lia.
Qed.

End CountFacts.

(** ** Arithmetic on NaN *)
Section NaNFacts.
Local Open Scope float_scope.

Lemma nan_add_l x : nan + x = nan.
Proof.
  apply Prim2SF_inj. rewrite add_spec.
  change (Prim2SF nan) with S754_nan. reflexivity.
Qed.

Lemma add_nan_r x : x + nan = nan.
Proof.
  apply Prim2SF_inj. rewrite add_spec.
  change (Prim2SF nan) with S754_nan. destruct (Prim2SF x); reflexivity.
Qed.

Lemma nan_mul_l x : nan * x = nan.
Proof.
  apply Prim2SF_inj. rewrite mul_spec.
  change (Prim2SF nan) with S754_nan. reflexivity.
Qed.

Lemma Math_floor_nan : Math_floor nan = nan.
Proof. reflexivity. Qed.


Lemma mul_nan_r x : x * nan = nan.
Proof.
  apply Prim2SF_inj. rewrite mul_spec.
  change (Prim2SF nan) with S754_nan. destruct (Prim2SF x); reflexivity.
Qed.

End NaNFacts.

(** ** Distinct natural numbers *)
Section DistinctNaturals.
Local Open Scope Z_scope.

(** Distinct natural numbers below 2^53 are distinct Numbers. *)
Lemma Number_of_Z_inj a b :
  0 <= a < 2 ^ 53 -> 0 <= b < 2 ^ 53 ->
  Number_of_Z a = Number_of_Z b -> a = b.
Proof.
  intros Ha Hb H.
  assert (Hz : forall z, 0 < z < 2 ^ 53 -> Number_of_Z z <> Number_of_Z 0).
  { intros z Hz E. destruct (Prim2SF_Number_of_Z Hz) as (m & e & Hp & _).
    rewrite E in Hp. discriminate Hp. }
  destruct (Z.eq_dec a 0) as [->|Na], (Z.eq_dec b 0) as [->|Nb].
  - reflexivity.
  - exfalso. apply (Hz b); [lia|]. now symmetry.
  - exfalso. apply (Hz a); [lia|]. assumption.
  - destruct (@Prim2SF_Number_of_Z a) as (ma & ea & Hpa & Hea & Hma & _);
      [lia|].
    destruct (@Prim2SF_Number_of_Z b) as (mb & eb & Hpb & Heb & Hmb & _);
      [lia|].
    rewrite H, Hpb in Hpa. injection Hpa as Hm He. subst mb eb.
    rewrite Hma in Hmb.
    assert (0 < 2 ^ (- ea)) by (apply Z.pow_pos_nonneg; lia).
    nia.
Qed.

End DistinctNaturals.

(** ** The sign of the latitude offset *)
Section OffsetSign.
Local Open Scope float_scope.

Lemma sf_signed_not_nan s x : sf_signed s x -> x <> S754_nan.
Proof. destruct x; simpl; congruence. Qed.

(** The latitude offset has the sign of the cell size. *)
Lemma _calculateLatOffset_signed dy s :
  sf_signed s (Prim2SF dy) -> sf_signed s (Prim2SF (_calculateLatOffset dy)).
Proof.
  assert (HR : exists m e, Prim2SF R_EARTH = S754_finite false m e)
    by (do 2 eexists; vm_compute; reflexivity).
  assert (HK : exists m e, Prim2SF (180 / Math_PI) = S754_finite false m e)
    by (do 2 eexists; vm_compute; reflexivity).
  destruct HR as (mR & eR & HR), HK as (mK & eK & HK).
  intros H. unfold _calculateLatOffset.
  rewrite mul_spec, div_spec, HR, HK.
  apply SFmul_signed, SFdiv_signed, H.
Qed.

(** The latitude offset of a zero is that zero. *)
Lemma _calculateLatOffset_zero dy s :
  Prim2SF dy = S754_zero s ->
  Prim2SF (_calculateLatOffset dy) = S754_zero s.
Proof.
  assert (HR : exists m e, Prim2SF R_EARTH = S754_finite false m e)
    by (do 2 eexists; vm_compute; reflexivity).
  assert (HK : exists m e, Prim2SF (180 / Math_PI) = S754_finite false m e)
    by (do 2 eexists; vm_compute; reflexivity).
  destruct HR as (mR & eR & HR), HK as (mK & eK & HK).
  intros H. unfold _calculateLatOffset.
  rewrite mul_spec, div_spec, H, HR, HK. destruct s; reflexivity.
Qed.

(** The latitude offset is NaN exactly when the cell size is. *)
Lemma _calculateLatOffset_is_nan dy :
  is_nan (_calculateLatOffset dy) = is_nan dy.
Proof.
  destruct (is_nan dy) eqn:E.
  - apply is_nan_true in E. subst dy. vm_compute. reflexivity.
  - apply is_nan_false. apply is_nan_false in E.
    destruct (Prim2SF dy) as [s|s| |s m e] eqn:D; try congruence;
      apply (@sf_signed_not_nan s), _calculateLatOffset_signed;
      rewrite D; reflexivity.
Qed.

End OffsetSign.

(** ** The floor of a small negative quotient *)
Section NegativeIndices.
Local Open Scope Z_scope.

(** Comparing two negative finite numbers is comparing their opposites
    the other way round. *)
Lemma SFltb_opp m1 e1 m2 e2 :
  SFltb (S754_finite true m1 e1) (S754_finite true m2 e2)
  = SFltb (S754_finite false m2 e2) (S754_finite false m1 e1).
Proof.
  unfold SFltb, SFcompare.
  rewrite (Z.compare_antisym e1 e2).
  change (PosDef.Pos.compare_cont Eq) with Pos.compare.
  rewrite (Pos.compare_antisym m1 m2).
  destruct (e1 ?= e2); reflexivity.
Qed.

Lemma opp_opp (x : float) : (- - x)%float = x.
Proof.
  apply Prim2SF_inj. rewrite !opp_spec.
  destruct (Prim2SF x) as [s|s| |s m e]; simpl; now rewrite ?negb_involutive.
Qed.

(** The floor of a small negative quotient is the opposite of a positive
    natural number below 2^53. *)
Lemma floor_small_negative q :
  small_negative_quotient q ->
  exists a, 1 <= a < 2 ^ 53 /\ Math_floor q = (- Number_of_Z a)%float.
Proof.
  intros [H0 Hgt]. 
  pose proof (Prim2SF_valid q) as Hv.
  assert (Hs : exists m e, Prim2SF q = S754_finite true m e).
  { rewrite ltb_spec in H0, Hgt.
    change (Prim2SF 0) with (S754_zero false) in H0.
    change (Prim2SF (-9007199254740992))
      with (S754_finite true 4503599627370496 1) in Hgt.
    destruct (Prim2SF q) as [s|s| |s m e].
    - destruct s; discriminate H0.
    - destruct s; [discriminate Hgt|discriminate H0].
    - discriminate H0.
    - destruct s; [eauto|discriminate H0]. }
  destruct Hs as (m & e & E).
  assert (Eo : Prim2SF (- q) = S754_finite false m e)
    by (rewrite opp_spec, E; reflexivity).
  destruct (is_integral q) eqn:I.
  - (* an integral quotient is its own floor *)
    assert (Hf : Math_floor q = q).
    { unfold Math_floor. rewrite E, I. reflexivity. }
    assert (Hfo : Math_floor (- q) = (- q)%float).
    { unfold Math_floor. rewrite Eo.
      replace (is_integral (- q)) with true; [reflexivity|].
      rewrite <- I. unfold is_integral. now rewrite E, Eo. }
    assert (Hsmall : small_quotient (- q)).
    { split; rewrite ?leb_spec, ?ltb_spec, Eo; [reflexivity|].
      rewrite ltb_spec, E in Hgt.
      change (Prim2SF (-9007199254740992))
        with (S754_finite true 4503599627370496 1) in Hgt.
      change (Prim2SF 9007199254740992)
        with (S754_finite false 4503599627370496 1).
      rewrite <- SFltb_opp. exact Hgt. }
    destruct (floor_small Hsmall) as [(a & Ha & Hfa)|Hfa].
    + exists a. rewrite Hfo in Hfa. split.
      * destruct (Z.eq_dec a 0) as [->|]; [exfalso|lia].
        rewrite Hfa in Eo. discriminate Eo.
      * rewrite Hf, <- Hfa. symmetry. apply opp_opp.
    + exfalso. rewrite Hfo in Hfa. rewrite Hfa in Eo. discriminate Eo.
  - (* a fractional part: the floor is one below the truncation *)
    unfold Math_floor. rewrite E, I.
    exists (Z.pos m / 2 ^ (- e) + 1). split; [|reflexivity].
    unfold is_integral in I. rewrite E in I.
    apply orb_false_elim in I. destruct I as [I _].
    apply Z.leb_gt in I.
    rewrite E in Hv. destruct (valid_mantissa _ _ _ Hv) as [Hd _].
    pose proof (digits2_pos_bounds m) as Hb.
    assert (Hm53 : Z.pos m < 2 ^ 53).
    { assert (2 ^ Z.pos (digits2_pos m) <= 2 ^ 53)
        by (apply pow2_le_mono; lia). lia. }
    assert (H2 : 2 <= 2 ^ (- e)).
    { change 2 with (2 ^ 1) at 1. apply pow2_le_mono; lia. }
    assert (Hq0 : 0 <= Z.pos m / 2 ^ (- e)) by (apply Z.div_pos; lia).
    assert (Hq1 : Z.pos m / 2 ^ (- e) <= Z.pos m / 2).
    { apply Z.div_le_compat_l; lia. }
    assert (Hq2 : Z.pos m / 2 < 2 ^ 52).
    { apply Z.div_lt_upper_bound; [lia|].
      change (2 * 2 ^ 52) with (2 ^ 53). exact Hm53. }
    split; [clear - Hq0; lia|].
    apply Z.lt_le_trans with (2 ^ 52 + 1); [clear - Hq1 Hq2; lia|].
    apply Z.leb_le. vm_compute. reflexivity.
Qed.

End NegativeIndices.

(** ** Keys of negative indices *)
Section NegativeKeys.
Local Open Scope Z_scope.

(** The numeral of the opposite of a positive natural number is the
    numeral of the number after a minus sign. *)
Lemma Number_toString_opp a :
  1 <= a < 2 ^ 53 ->
  Number_toString (- Number_of_Z a)
  = String "-" (Number_toString (Number_of_Z a)).
Proof.
  intros Ha.
  destruct (@Prim2SF_Number_of_Z a) as (m & e & Hp & _); [lia|].
  unfold Number_toString. rewrite opp_spec, Hp. cbn [SFopp negb].
  destruct (digits_of {| pf_m := Z.pos m; pf_e := e |}) as [[s k] n].
  reflexivity.
Qed.

(** A negative latitude index: the key starts with the separator, so the
    first piece is empty and the second piece is the numeral of the
    absolute value of the latitude index. *)
Lemma key_of_negative_lat a (lonIdx : float) :
  1 <= a < 2 ^ 53 ->
  let key := make_key (- Number_of_Z a) lonIdx in
  key_latIdx key = nan /\ key_lonIdx key = Number_of_Z a.
Proof.
  intros Ha key.
  destruct (@natural_roundtrip a) as [Hd Hp]; [lia|].
  assert (Hs : String_split "-" key
               = EmptyString :: Number_toString (Number_of_Z a)
                   :: String_split "-" (Number_toString lonIdx)).
  { unfold key, make_key. rewrite Number_toString_opp by assumption.
    change (String "-" (Number_toString (Number_of_Z a))
            ++ "-" ++ Number_toString lonIdx)%string
      with (String "-" (Number_toString (Number_of_Z a)
                        ++ String "-" (Number_toString lonIdx))).
    cbn [String_split]. rewrite Ascii.eqb_refl.
    now rewrite split_digits_dash. }
  unfold key_latIdx, key_lonIdx. rewrite Hs. split; [reflexivity|exact Hp].
Qed.

(** A negative longitude index after a natural latitude index: the piece
    after the first separator is empty. *)
Lemma key_of_negative_lon a b :
  0 <= a < 2 ^ 53 -> 1 <= b < 2 ^ 53 ->
  let key := make_key (Number_of_Z a) (- Number_of_Z b) in
  key_latIdx key = Number_of_Z a /\ key_lonIdx key = nan.
Proof.
  intros Ha Hb key.
  destruct (natural_roundtrip Ha) as [Hd Hp].
  assert (Hs : String_split "-" key
               = Number_toString (Number_of_Z a) :: EmptyString
                   :: String_split "-" (Number_toString (Number_of_Z b))).
  { unfold key, make_key. rewrite Number_toString_opp by assumption.
    change ("-" ++ String "-" (Number_toString (Number_of_Z b)))%string
      with (String "-" (String "-" (Number_toString (Number_of_Z b)))).
    rewrite split_digits_dash by assumption.
    cbn [String_split]. rewrite Ascii.eqb_refl. reflexivity. }
  unfold key_latIdx, key_lonIdx. rewrite Hs. split; [exact Hp|reflexivity].
Qed.

End NegativeKeys.

(** ** Keys of infinite indices *)
Section InfiniteKeys.
Local Open Scope Z_scope.

(** An infinite longitude index after a natural latitude index: the piece
    after the first separator holds no digit. *)
Lemma key_of_infinite_lon a (lonIdx : float) :
  0 <= a < 2 ^ 53 -> lonIdx = infinity \/ lonIdx = neg_infinity ->
  let key := make_key (Number_of_Z a) lonIdx in
  key_latIdx key = Number_of_Z a /\ key_lonIdx key = nan.
Proof.
  intros Ha Hl key.
  destruct (natural_roundtrip Ha) as [Hd Hp].
  unfold key_latIdx, key_lonIdx, key, make_key.
  destruct Hl as [-> | ->].
  - change ("-" ++ Number_toString infinity)%string
      with (String "-" "Infinity").
    rewrite split_digits_dash by assumption.
    split; [exact Hp|reflexivity].
  - change ("-" ++ Number_toString neg_infinity)%string
      with (String "-" "-Infinity").
    rewrite split_digits_dash by assumption.
    split; [exact Hp|reflexivity].
Qed.

End InfiniteKeys.

(** ** The two zeros *)
Section ZeroFacts.
Local Open Scope float_scope.

Lemma is_zero_spec x :
  is_zero x = true <-> exists s, Prim2SF x = S754_zero s.
Proof.
  split; [apply is_zero_Prim2SF|]. intros [s H].
  unfold is_zero. rewrite FloatAxioms.eqb_spec, H. reflexivity.
Qed.

Lemma get_sign_zero x s : Prim2SF x = S754_zero s -> get_sign x = s.
Proof.
  intros H. unfold get_sign.
  replace (is_zero x) with true
    by (symmetry; apply is_zero_spec; now exists s).
  rewrite ltb_spec, div_spec, H.
  change (Prim2SF PrimFloat.zero) with (S754_zero false).
  change (Prim2SF PrimFloat.one) with (S754_finite false 4503599627370496 (-52)).
  destruct s; reflexivity.
Qed.

Lemma is_neg_zero_spec x :
  is_neg_zero x = true <-> Prim2SF x = S754_zero true.
Proof.
  unfold is_neg_zero. split.
  - intros H. apply andb_prop in H. destruct H as [Hz Hs].
    destruct (is_zero_Prim2SF Hz) as [s E].
    rewrite (@get_sign_zero _ _ E) in Hs. now subst s.
  - intros E. rewrite (@get_sign_zero _ _ E).
    replace (is_zero x) with true; [reflexivity|].
    symmetry. apply is_zero_spec. now exists true.
Qed.

Lemma is_pos_zero_spec x :
  is_pos_zero x = true <-> Prim2SF x = S754_zero false.
Proof.
  unfold is_pos_zero. split.
  - intros H. apply andb_prop in H. destruct H as [Hz Hs].
    destruct (is_zero_Prim2SF Hz) as [s E].
    rewrite (@get_sign_zero _ _ E) in Hs. destruct s; [discriminate Hs|exact E].
  - intros E. rewrite (@get_sign_zero _ _ E).
    replace (is_zero x) with true; [reflexivity|].
    symmetry. apply is_zero_spec. now exists false.
Qed.

(** Two specification floats each below the other are equal, or two
    zeros. *)
Lemma SFleb_antisym a b :
  SFleb a b = true -> SFleb b a = true ->
  a = b \/ exists s s', a = S754_zero s /\ b = S754_zero s'.
Proof.
  destruct a as [sa|[]| |[] ma ea], b as [sb|[]| |[] mb eb];
    try (intros H; discriminate H); try (intros _ H; discriminate H);
    try (left; reflexivity); try (right; eauto; fail);
    unfold SFleb, SFcompare;
    change (PosDef.Pos.compare_cont Eq) with Pos.compare;
    rewrite (Z.compare_antisym ea eb), (Pos.compare_antisym ma mb);
    destruct (Z.compare_spec ea eb) as [He|He|He]; simpl;
    try (intros H; discriminate H); try (intros _ H; discriminate H);
    destruct (Pos.compare_spec ma mb) as [Hm|Hm|Hm]; simpl;
    try (intros H; discriminate H); try (intros _ H; discriminate H);
    intros _ _; left; congruence.
Qed.

(** Numbers each below the other are equal, or two zeros. *)
Lemma leb_antisym x y :
  (x <=? y) = true -> (y <=? x) = true ->
  x = y \/ (is_zero x = true /\ is_zero y = true).
Proof.
  rewrite !leb_spec. intros H1 H2.
  destruct (SFleb_antisym _ _ H1 H2) as [H|(s & s' & Hx & Hy)].
  - left. now apply Prim2SF_inj.
  - right. split; apply is_zero_spec; eauto.
Qed.

(** What lies between two zeros is a zero. *)
Lemma between_zeros x y z :
  is_zero x = true -> is_zero z = true ->
  (x <=? y) = true -> (y <=? z) = true -> is_zero y = true.
Proof.
  intros Hx Hz. apply is_zero_spec in Hx, Hz.
  destruct Hx as [sx Hx], Hz as [sz Hz].
  rewrite !leb_spec, Hx, Hz. intros H1 H2. apply is_zero_spec.
  destruct (Prim2SF y) as [s|[]| |[] m e]; try discriminate H1;
    try discriminate H2. now exists s.
Qed.

Lemma zero_sign_cases x :
  is_zero x = true -> is_neg_zero x = true \/ is_pos_zero x = true.
Proof.
  intros H. unfold is_neg_zero, is_pos_zero. rewrite H.
  destruct (get_sign x); auto.
Qed.

Lemma neg_zero_not_pos x :
  is_neg_zero x = true -> is_pos_zero x = false.
Proof.
  unfold is_neg_zero, is_pos_zero. intros H. apply andb_prop in H.
  destruct H as [-> ->]. reflexivity.
Qed.

Lemma pos_zero_not_neg x :
  is_pos_zero x = true -> is_neg_zero x = false.
Proof.
  unfold is_neg_zero, is_pos_zero. intros H. apply andb_prop in H.
  destruct H as [-> H]. destruct (get_sign x); [discriminate H|reflexivity].
Qed.

Lemma is_neg_zero_is_zero x : is_neg_zero x = true -> is_zero x = true.
Proof. unfold is_neg_zero. intros H. apply andb_prop in H. tauto. Qed.

Lemma is_pos_zero_is_zero x : is_pos_zero x = true -> is_zero x = true.
Proof. unfold is_pos_zero. intros H. apply andb_prop in H. tauto. Qed.

(** Nothing is strictly below a zero and a zero at once. *)
Lemma ltb_zero_not_zero x y :
  is_zero y = true -> (x <? y) = true -> is_zero x = false.
Proof.
  intros Hy H. destruct (is_zero x) eqn:Hx; [|reflexivity].
  apply is_zero_spec in Hx, Hy. destruct Hx as [sx Hx], Hy as [sy Hy].
  rewrite ltb_spec, Hx, Hy in H. discriminate H.
Qed.

End ZeroFacts.

(** ** The least and the greatest element *)
Section Extrema.
Local Open Scope float_scope.

(** One step of the loop of [Math.min]. *)
Lemma min_step lowest number :
  is_nan lowest = false -> is_nan number = false ->
  let lowest1 := if is_neg_zero number && is_pos_zero lowest
                 then number else lowest in
  let lowest2 := if number <? lowest1 then number else lowest1 in
  is_nan lowest2 = false /\
  (lowest2 <=? lowest) = true /\ (lowest2 <=? number) = true /\
  (is_zero lowest2 = true ->
   is_neg_zero lowest = true \/ is_neg_zero number = true ->
   is_neg_zero lowest2 = true).
Proof.
  intros Hlow Hn lowest1 lowest2. subst lowest2 lowest1.
  destruct (is_neg_zero number && is_pos_zero lowest) eqn:Z.
  - apply andb_prop in Z. destruct Z as [Z1 Z2].
    assert ((number <? number) = false) as ->.
    { rewrite ltb_spec. apply is_neg_zero_spec in Z1. rewrite Z1.
      reflexivity. }
    repeat split; [assumption| |now apply leb_refl|auto].
    apply zeros_leb;
      [now apply is_neg_zero_is_zero|now apply is_pos_zero_is_zero].
  - destruct (number <? lowest) eqn:L.
    + repeat split; [assumption|now apply ltb_leb|now apply leb_refl|].
      intros Hz [H|H]; [|exact H].
      rewrite (@ltb_zero_not_zero number lowest) in Hz;
        [discriminate Hz|now apply is_neg_zero_is_zero|exact L].
    + repeat split; [assumption|now apply leb_refl|now apply ltb_false_leb|].
      intros Hz [H|H]; [exact H|].
      destruct (@zero_sign_cases _ Hz) as [H'|H']; [exact H'|].
      rewrite H, H' in Z. discriminate Z.
Qed.

Lemma min_loop_zero l :
  forall lowest,
    no_nan l -> is_nan lowest = false ->
    (exists x, In x (lowest :: l) /\ is_neg_zero x = true) ->
    is_zero (min_loop lowest l) = true ->
    is_neg_zero (min_loop lowest l) = true.
Proof.
  induction l as [|number rest IH]; intros lowest Hl Hlow Hex; simpl.
  - intros _. destruct Hex as (x & [<-|[]] & Hx). exact Hx.
  - assert (Hn : is_nan number = false) by (apply Hl; now left).
    assert (Hrest : no_nan rest) by (intros x Hx; apply Hl; now right).
    rewrite Hn.
    destruct (@min_step lowest number Hlow Hn) as (Hn2 & Hle & Hlen & Hz2).
    cbv zeta in Hn2, Hle, Hlen, Hz2.
    set (lowest2 := if number <? _ then number else _) in *.
    intros Hz. apply IH; try assumption.
    destruct Hex as (x & Hin & Hx).
    destruct Hin as [Hin|[Hin|Hin]]; [| |exists x; split; [now right|exact Hx]].
    + subst x. exists lowest2. split; [now left|]. apply Hz2; [|now left].
      destruct (@min_loop_spec rest lowest2 Hrest Hn2) as (_ & _ & Hr & _).
      apply (@between_zeros (min_loop lowest2 rest) lowest2 lowest);
        [exact Hz|now apply is_neg_zero_is_zero|exact Hr|exact Hle].
    + subst x. exists lowest2. split; [now left|]. apply Hz2; [|now right].
      destruct (@min_loop_spec rest lowest2 Hrest Hn2) as (_ & _ & Hr & _).
      apply (@between_zeros (min_loop lowest2 rest) lowest2 number);
        [exact Hz|now apply is_neg_zero_is_zero|exact Hr|exact Hlen].
Qed.

(** One step of the loop of [Math.max]. *)
Lemma max_step highest number :
  is_nan highest = false -> is_nan number = false ->
  let highest1 := if is_pos_zero number && is_neg_zero highest
                  then number else highest in
  let highest2 := if highest1 <? number then number else highest1 in
  is_nan highest2 = false /\
  (highest <=? highest2) = true /\ (number <=? highest2) = true /\
  (is_zero highest2 = true ->
   is_pos_zero highest = true \/ is_pos_zero number = true ->
   is_pos_zero highest2 = true).
Proof.
  intros Hhigh Hn highest1 highest2. subst highest2 highest1.
  destruct (is_pos_zero number && is_neg_zero highest) eqn:Z.
  - apply andb_prop in Z. destruct Z as [Z1 Z2].
    assert ((number <? number) = false) as ->.
    { rewrite ltb_spec. apply is_pos_zero_spec in Z1. rewrite Z1.
      reflexivity. }
    repeat split; [assumption| |now apply leb_refl|auto].
    apply zeros_leb;
      [now apply is_neg_zero_is_zero|now apply is_pos_zero_is_zero].
  - destruct (highest <? number) eqn:L.
    + repeat split; [assumption|now apply ltb_leb|now apply leb_refl|].
      intros Hz [H|H]; [|exact H].
      (* a positive zero strictly below a zero: impossible *)
      exfalso. apply is_pos_zero_spec in H.
      apply is_zero_spec in Hz. destruct Hz as [s Hz].
      rewrite ltb_spec, H, Hz in L. discriminate L.
    + repeat split; [assumption|now apply leb_refl|now apply ltb_false_leb|].
      intros Hz [H|H]; [exact H|].
      destruct (@zero_sign_cases _ Hz) as [H'|H']; [|exact H'].
      rewrite H, H' in Z. discriminate Z.
Qed.

Lemma max_loop_zero l :
  forall highest,
    no_nan l -> is_nan highest = false ->
    (exists x, In x (highest :: l) /\ is_pos_zero x = true) ->
    is_zero (max_loop highest l) = true ->
    is_pos_zero (max_loop highest l) = true.
Proof.
  induction l as [|number rest IH]; intros highest Hl Hhigh Hex; simpl.
  - intros _. destruct Hex as (x & [<-|[]] & Hx). exact Hx.
  - assert (Hn : is_nan number = false) by (apply Hl; now left).
    assert (Hrest : no_nan rest) by (intros x Hx; apply Hl; now right).
    rewrite Hn.
    destruct (@max_step highest number Hhigh Hn) as (Hn2 & Hle & Hlen & Hz2).
    cbv zeta in Hn2, Hle, Hlen, Hz2.
    set (highest2 := if _ <? number then number else _) in *.
    intros Hz. apply IH; try assumption.
    destruct Hex as (x & Hin & Hx).
    destruct Hin as [Hin|[Hin|Hin]]; [| |exists x; split; [now right|exact Hx]].
    + subst x. exists highest2. split; [now left|]. apply Hz2; [|now left].
      destruct (@max_loop_spec rest highest2 Hrest Hn2) as (_ & _ & Hr & _).
      apply (@between_zeros highest highest2 (max_loop highest2 rest));
        [now apply is_pos_zero_is_zero|exact Hz|exact Hle|exact Hr].
    + subst x. exists highest2. split; [now left|]. apply Hz2; [|now right].
      destruct (@max_loop_spec rest highest2 Hrest Hn2) as (_ & _ & Hr & _).
      apply (@between_zeros number highest2 (max_loop highest2 rest));
        [now apply is_pos_zero_is_zero|exact Hz|exact Hlen|exact Hr].
Qed.

(** The loops compute the least and the greatest element. *)
Lemma min_loop_least l lowest :
  no_nan l -> is_nan lowest = false ->
  least_of (lowest :: l) (min_loop lowest l).
Proof.
  intros Hl Hlow.
  destruct (@min_loop_spec l lowest Hl Hlow) as (Hr & _ & Hle & Hx).
  split; [|split].
  - destruct Hr as [->|Hr]; [now left|now right].
  - intros x [<-|Hin]; [exact Hle|now apply Hx].
  - now apply min_loop_zero.
Qed.

Lemma max_loop_greatest l highest :
  no_nan l -> is_nan highest = false ->
  greatest_of (highest :: l) (max_loop highest l).
Proof.
  intros Hl Hhigh.
  destruct (@max_loop_spec l highest Hl Hhigh) as (Hr & _ & Hle & Hx).
  split; [|split].
  - destruct Hr as [->|Hr]; [now left|now right].
  - intros x [<-|Hin]; [exact Hle|now apply Hx].
  - now apply max_loop_zero.
Qed.

(** The least and the greatest element are unique. *)
Lemma least_of_unique l r r' : least_of l r -> least_of l r' -> r = r'.
Proof.
  intros (Hin & Hle & Hz) (Hin' & Hle' & Hz').
  destruct (@leb_antisym _ _ (Hle _ Hin') (Hle' _ Hin)) as [H|[Z Z']];
    [exact H|].
  assert (Hs : is_neg_zero r = is_neg_zero r').
  { destruct (existsb is_neg_zero l) eqn:E.
    - apply existsb_exists in E. now rewrite Hz, Hz'.
    - assert (N : forall x, In x l -> is_neg_zero x = false).
      { intros x Hx. destruct (is_neg_zero x) eqn:Ex; [|reflexivity].
        rewrite <- E. symmetry. apply existsb_exists. eauto. }
      now rewrite (N _ Hin), (N _ Hin'). }
  apply Prim2SF_inj.
  destruct (@zero_sign_cases _ Z) as [H|H].
  - rewrite H in Hs. symmetry in Hs.
    apply is_neg_zero_spec in H, Hs. congruence.
  - destruct (@zero_sign_cases _ Z') as [H'|H'].
    + rewrite H', (@pos_zero_not_neg _ H) in Hs. discriminate Hs.
    + apply is_pos_zero_spec in H, H'. congruence.
Qed.

Lemma greatest_of_unique l r r' :
  greatest_of l r -> greatest_of l r' -> r = r'.
Proof.
  intros (Hin & Hle & Hz) (Hin' & Hle' & Hz').
  destruct (@leb_antisym _ _ (Hle' _ Hin) (Hle _ Hin')) as [H|[Z Z']];
    [exact H|].
  assert (Hs : is_pos_zero r = is_pos_zero r').
  { destruct (existsb is_pos_zero l) eqn:E.
    - apply existsb_exists in E. now rewrite Hz, Hz'.
    - assert (N : forall x, In x l -> is_pos_zero x = false).
      { intros x Hx. destruct (is_pos_zero x) eqn:Ex; [|reflexivity].
        rewrite <- E. symmetry. apply existsb_exists. eauto. }
      now rewrite (N _ Hin), (N _ Hin'). }
  apply Prim2SF_inj.
  destruct (@zero_sign_cases _ Z) as [H|H].
  - destruct (@zero_sign_cases _ Z') as [H'|H'].
    + apply is_neg_zero_spec in H, H'. congruence.
    + rewrite H', (@neg_zero_not_pos _ H) in Hs. discriminate Hs.
  - rewrite H in Hs. symmetry in Hs.
    apply is_pos_zero_spec in H, Hs. congruence.
Qed.

Lemma least_of_perm l l' r : Permutation l l' -> least_of l r -> least_of l' r.
Proof.
  intros Hp (Hin & Hle & Hz). split; [|split].
  - now apply (Permutation_in _ Hp).
  - intros x Hx. apply Hle. now apply (Permutation_in _ (Permutation_sym Hp)).
  - intros (x & Hx & Hn). apply Hz. exists x. split; [|exact Hn].
    now apply (Permutation_in _ (Permutation_sym Hp)).
Qed.

Lemma greatest_of_perm l l' r :
  Permutation l l' -> greatest_of l r -> greatest_of l' r.
Proof.
  intros Hp (Hin & Hle & Hz). split; [|split].
  - now apply (Permutation_in _ Hp).
  - intros x Hx. apply Hle. now apply (Permutation_in _ (Permutation_sym Hp)).
  - intros (x & Hx & Hn). apply Hz. exists x. split; [|exact Hn].
    now apply (Permutation_in _ (Permutation_sym Hp)).
Qed.

(** A list holds a NaN, or none of its elements is NaN. *)
Lemma nan_or_not l :
  (exists x, In x l /\ is_nan x = true) \/ no_nan l.
Proof.
  destruct (existsb is_nan l) eqn:E.
  - left. now apply existsb_exists.
  - right. intros x Hx. destruct (is_nan x) eqn:Ex; [|reflexivity].
    rewrite <- E. symmetry. apply existsb_exists. eauto.
Qed.

(** [Math.min] and [Math.max] do not depend on the order of their
    arguments. *)
Lemma Math_min_perm l l' : Permutation l l' -> Math_min l = Math_min l'.
Proof.
  intros Hp. unfold Math_min.
  destruct (nan_or_not l) as [(x & Hx & Hn)|Hl].
  - rewrite !min_loop_nan; [reflexivity| |]; exists x; split; try assumption.
    now apply (Permutation_in _ Hp).
  - assert (Hl' : no_nan l').
    { intros x Hx. apply Hl.
      now apply (Permutation_in _ (Permutation_sym Hp)). }
    apply (@least_of_unique (infinity :: l')).
    + apply (@least_of_perm (infinity :: l)); [now constructor|].
      now apply min_loop_least.
    + now apply min_loop_least.
Qed.

Lemma Math_max_perm l l' : Permutation l l' -> Math_max l = Math_max l'.
Proof.
  intros Hp. unfold Math_max.
  destruct (nan_or_not l) as [(x & Hx & Hn)|Hl].
  - rewrite !max_loop_nan; [reflexivity| |]; exists x; split; try assumption.
    now apply (Permutation_in _ Hp).
  - assert (Hl' : no_nan l').
    { intros x Hx. apply Hl.
      now apply (Permutation_in _ (Permutation_sym Hp)). }
    apply (@greatest_of_unique (neg_infinity :: l')).
    + apply (@greatest_of_perm (neg_infinity :: l)); [now constructor|].
      now apply max_loop_greatest.
    + now apply max_loop_greatest.
Qed.

End Extrema.

(** ** Binning a permutation of the points *)
Section PermutationFacts.
Variable P : Type.
Variable k : P -> string.

Lemma Permutation_filter' (f : P -> bool) (l l' : list P) :
  Permutation l l' -> Permutation (filter f l) (filter f l').
Proof.
  induction 1 as [|x l l' _ IH|x y l|l l' l'' _ IH1 _ IH2]; simpl.
  - constructor.
  - destruct (f x); [now constructor|exact IH].
  - destruct (f x), (f y); try apply Permutation_refl. constructor.
  - eapply Permutation_trans; eassumption.
Qed.

Lemma with_key_perm key (ps ps' : list P) :
  Permutation ps ps' -> Permutation (with_key k key ps) (with_key k key ps').
Proof. apply Permutation_filter'. Qed.

(** The keys of the hash are the keys of the points that were added. *)
Lemma keys_of_points (ps : list P) (h : hash (GridCell.t P)) key :
  hash_inv k ps h ->
  (In key (Object_keys h) <-> exists p, In p ps /\ k p = key).
Proof.
  intros I. split.
  - intros Hin. apply in_map_iff in Hin. destruct Hin as ([key' c] & <- & Hin).
    destruct (inv_cells I _ _ Hin) as (Hp & _ & Hn). simpl.
    destruct (GridCell.points c) as [|p rest] eqn:E; [congruence|].
    assert (Hp' : In p (with_key k key' ps)) by (rewrite <- Hp; now left).
    apply filter_In in Hp'. destruct Hp' as [Hp1 Hp2].
    apply String.eqb_eq in Hp2. eauto.
  - intros (p & Hin & <-). now apply (inv_total I).
Qed.

Lemma keys_perm (ps ps' : list P) (h h' : hash (GridCell.t P)) :
  Permutation ps ps' -> hash_inv k ps h -> hash_inv k ps' h' ->
  Permutation (Object_keys h) (Object_keys h').
Proof.
  intros Hp I I'.
  apply NoDup_Permutation; [apply (inv_nodup I)|apply (inv_nodup I')|].
  intros key. rewrite (keys_of_points key I), (keys_of_points key I').
  split; intros (p & Hin & Hk); exists p; split; try assumption.
  - now apply (Permutation_in _ Hp).
  - now apply (Permutation_in _ (Permutation_sym Hp)).
Qed.

End PermutationFacts.

Section PositionsAndCounts.
Variable P : Type.
Local Open Scope float_scope.

Lemma positions_and_counts_data_from gridOffset (k : P -> string)
      (ps : list P) (h : hash (GridCell.t P)) :
  hash_inv k ps h ->
  forall i,
    map position_and_count (data_from gridOffset i h)
    = map (fun key => (position_of_key gridOffset key,
                       Z.of_nat (length (with_key k key ps))))
          (Object_keys h).
Proof.
  intros I.
  assert (H : forall key c, In (key, c) h ->
                GridCell.count c = Z.of_nat (length (with_key k key ps))).
  { intros key c Hin. destruct (inv_cells I _ _ Hin) as (Hp & Hc & _).
    now rewrite Hc, Hp. }
  clear I. induction h as [|[key c] rest IH]; intros i; simpl.
  - reflexivity.
  - rewrite IH by (intros key' c' Hin; apply H; now right).
    unfold position_and_count at 1, datum_of at 1. simpl.
    rewrite (H key c) by now left. reflexivity.
Qed.

End PositionsAndCounts.

(** ** Division by a negative Number *)
Section NegativeDivisor.
Local Open Scope float_scope.

(** Dividing by a negative finite number changes the sign. *)
Lemma SFdiv_signed_neg s x my ey :
  sf_signed s x -> sf_signed (negb s) (SF64div x (S754_finite true my ey)).
Proof.
  unfold SF64div, SFdiv. destruct x as [sx|sx| |sx mx ex]; simpl;
    try (intros <-; now rewrite xorb_true_r); [tauto|].
  intros <-.
  pose proof (SFdiv_core_nonneg mx ex my ey) as H.
  destruct (SFdiv_core_binary prec emax (Z.pos mx) ex (Z.pos my) ey)
    as [[mz ez] lz]. simpl in H.
  rewrite xorb_true_r. now apply binary_round_aux_signed.
Qed.

(** A positive Number divided by a negative finite Number or by the
    negative zero is zero or negative. *)
Lemma div_pos_neg y c :
  is_nan y = false -> (y <=? 0) = false ->
  ((c <? 0) = true /\ (neg_infinity <? c) = true) \/ is_neg_zero c = true ->
  (y / c <=? 0) = true.
Proof.
  intros Hn Hy Hc. rewrite is_nan_false in Hn.
  rewrite leb_spec in *. rewrite div_spec.
  change (Prim2SF 0) with (S754_zero false) in *.
  assert (Hs : sf_signed false (Prim2SF y) /\
               forall s, Prim2SF y <> S754_zero s).
  { destruct (Prim2SF y) as [[]|[]| |[] m e]; simpl; try discriminate Hy;
      try congruence; split; try reflexivity; intros s H; discriminate H. }
  destruct Hs as [Hs Hnz].
  apply SFleb_zero. right. right.
  destruct Hc as [[Hc1 Hc2]|Hc].
  - rewrite ltb_spec in Hc1, Hc2.
    change (Prim2SF 0) with (S754_zero false) in Hc1.
    change (Prim2SF neg_infinity) with (S754_infinity true) in Hc2.
    destruct (Prim2SF c) as [[]|[]| |[] mc ec]; try discriminate Hc1;
      try discriminate Hc2.
    apply (@SFdiv_signed_neg false). exact Hs.
  - apply is_neg_zero_spec in Hc. rewrite Hc.
    destruct (Prim2SF y) as [[]|[]| |[] m e]; simpl in Hs;
      try discriminate Hs; try tauto; try reflexivity.
    exfalso. now apply (Hnz false).
Qed.

End NegativeDivisor.

(** ** Rounding does not lose a positive value *)
Section Rounding.
Local Open Scope Z_scope.

Lemma shr_1_m mrs : 0 <= shr_m mrs -> shr_m (shr_1 mrs) = shr_m mrs / 2.
Proof.
  destruct mrs as [m r s]. cbn [shr_m].
  destruct m as [|p|p]; [reflexivity| |lia]. intros _.
  destruct p as [p|p|]; cbn [shr_1 shr_m].
  - rewrite Pos2Z.inj_xI.
    apply (Z.div_unique_pos _ _ _ 1); lia.
  - rewrite Pos2Z.inj_xO.
    apply (Z.div_unique_pos _ _ _ 0); lia.
  - reflexivity.
Qed.

Lemma iter_pos_shr_1_m p :
  forall mrs, 0 <= shr_m mrs ->
              shr_m (SpecFloat.iter_pos shr_1 p mrs)
              = shr_m mrs / 2 ^ Z.pos p.
Proof.
  induction p as [p IH|p IH|]; intros mrs H; cbn [SpecFloat.iter_pos].
  - rewrite IH by (apply iter_pos_shr_1_nonneg, shr_1_nonneg, H).
    rewrite IH by (apply shr_1_nonneg, H).
    rewrite shr_1_m by exact H.
    rewrite Pos2Z.inj_xI.
    replace (2 * Z.pos p + 1) with (1 + Z.pos p + Z.pos p) by lia.
    rewrite !Z.pow_add_r by lia. change (2 ^ 1) with 2.
    rewrite !Z.div_div; try lia; try (apply Z.pow_pos_nonneg; lia).
    f_equal. lia.
  - rewrite IH by (apply iter_pos_shr_1_nonneg, H).
    rewrite IH by exact H.
    rewrite Z.div_div; try lia; try (apply Z.pow_pos_nonneg; lia).
    rewrite <- Z.pow_add_r by lia. f_equal. f_equal. lia.
  - apply shr_1_m, H.
Qed.

(** The first step of rounding: the mantissa is shifted to the exponent of
    the format. *)
Lemma shr_fexp_m m e l :
  0 <= m ->
  let n := Z.max (fexp prec emax (Zdigits2 m + e) - e) 0 in
  shr_m (fst (shr_fexp prec emax m e l)) = m / 2 ^ n /\
  snd (shr_fexp prec emax m e l) = e + n.
Proof.
  intros H n. subst n. unfold shr_fexp, shr.
  assert (H0 : shr_m (shr_record_of_loc m l) = m)
    by (destruct l as [|[]]; reflexivity).
  destruct (fexp prec emax (Zdigits2 m + e) - e) as [|p|p] eqn:E.
  - cbn [fst snd]. rewrite H0. change (Z.max 0 0) with 0.
    rewrite Z.div_1_r. split; [reflexivity|lia].
  - cbn [fst snd]. rewrite iter_pos_shr_1_m by (rewrite H0; exact H).
    rewrite H0. replace (Z.max (Z.pos p) 0) with (Z.pos p) by lia.
    split; reflexivity.
  - cbn [fst snd]. rewrite H0.
    replace (Z.max (Z.neg p) 0) with 0 by lia.
    rewrite Z.div_1_r. split; [reflexivity|lia].
Qed.

Lemma round_nearest_even_ge m l : m <= round_nearest_even m l.
Proof.
  destruct l as [|[]]; simpl; try lia. destruct (Z.even m); lia.
Qed.

(** A positive mantissa that is worth at least the least positive Number
    keeps a positive mantissa when it is shifted. *)
Lemma shr_fexp_positive p e l :
  (e < -1074 -> 2 ^ (-1074 - e) <= Z.pos p) ->
  0 < shr_m (fst (shr_fexp prec emax (Z.pos p) e l)) /\
  -1074 <= snd (shr_fexp prec emax (Z.pos p) e l).
Proof.
  intros He.
  destruct (@shr_fexp_m (Z.pos p) e l) as [Hm Hs]; [lia|].
  cbv zeta in Hm, Hs. rewrite Hm, Hs. clear Hm Hs.
  pose proof (digits2_pos_bounds p) as Hd.
  cbn [Zdigits2]. set (d := Z.pos (digits2_pos p)) in *.
  assert (Hd1 : 1 <= d) by (subst d; lia).
  unfold fexp, emin, prec, emax.
  set (n := Z.max (Z.max (d + e - 53) (3 - 1024 - 53) - e) 0).
  assert (Hn : 0 <= n) by (subst n; lia).
  assert (Hpow : 2 ^ n <= Z.pos p).
  { destruct (Z.eq_dec n 0) as [->|Hn0]; [simpl; lia|].
    destruct (Z_le_gt_dec (3 - 1024 - 53) (d + e - 53)) as [H|H].
    - assert (n = d - 53) by (subst n; lia).
      apply Z.le_trans with (2 ^ (d - 1)); [|lia].
      apply Z.pow_le_mono_r; lia.
    - assert (n = -1074 - e) by (subst n; lia).
      rewrite H0. apply He. lia. }
  split.
  - apply Z.div_str_pos. split; [apply Z.pow_pos_nonneg; lia|exact Hpow].
  - subst n. lia.
Qed.

(** Rounding such a mantissa does not give a zero. *)
Lemma binary_round_aux_nonzero s p e l :
  (e < -1074 -> 2 ^ (-1074 - e) <= Z.pos p) ->
  forall s', binary_round_aux prec emax s (Z.pos p) e l <> S754_zero s'.
Proof.
  intros He s'. unfold binary_round_aux.
  destruct (@shr_fexp_positive p e l He) as [H1 H1e].
  destruct (shr_fexp prec emax (Z.pos p) e l) as [mrs' e'] eqn:E1.
  cbn [fst snd] in H1, H1e.
  pose proof (round_nearest_even_ge (shr_m mrs') (loc_of_shr_record mrs'))
    as H2.
  set (m2 := round_nearest_even (shr_m mrs') (loc_of_shr_record mrs')) in *.
  destruct m2 as [|p2|p2] eqn:E2; try lia.
  destruct (@shr_fexp_positive p2 e' loc_Exact) as [H3 _]; [lia|].
  destruct (shr_fexp prec emax (Z.pos p2) e' loc_Exact) as [mrs'' e''].
  cbn [fst] in H3.
  destruct (shr_m mrs'') as [|p3|p3]; try lia.
  destruct (e'' <=? emax - prec); discriminate.
Qed.

End Rounding.

(** ** Division by a positive Number that is at most 1 *)
Section PositiveQuotients.
Local Open Scope Z_scope.

(** The quotient of the division of a positive Number by a positive Number
    that is at most 1: a positive mantissa, at an exponent that is not
    below the least one. *)
Lemma SFdiv_core_le_one my ey mc ec :
  -1074 <= ey -> ec <= 0 -> Z.pos mc <= 2 ^ (- ec) ->
  exists q e l,
    SFdiv_core_binary prec emax (Z.pos my) ey (Z.pos mc) ec
    = (Z.pos q, e, l) /\ -1074 <= e.
Proof.
  intros Hey Hec Hmc. unfold SFdiv_core_binary.
  pose proof (digits2_pos_bounds my) as Hd1.
  pose proof (digits2_pos_bounds mc) as Hd2.
  cbn [Zdigits2].
  set (d1 := Z.pos (digits2_pos my)) in *.
  set (d2 := Z.pos (digits2_pos mc)) in *.
  assert (1 <= d1) by (subst d1; lia).
  assert (1 <= d2) by (subst d2; lia).
  unfold fexp, emin, prec, emax.
  set (e' := Z.min (Z.max (d1 + ey - (d2 + ec) - 53) (3 - 1024 - 53))
                   (ey - ec)).
  assert (He' : -1074 <= e') by (subst e'; lia).
  set (s := ey - ec - e').
  assert (Hs : 0 <= s) by (subst s e'; lia).
  set (m' := match s with
             | 0 => Z.pos my
             | Z.pos _ => Z.shiftl (Z.pos my) s
             | Z.neg _ => 0
             end).
  assert (Hm' : m' = Z.pos my * 2 ^ s).
  { subst m'. destruct s as [|ps|ps] eqn:Es; [simpl; lia| |lia].
    apply Z.shiftl_mul_pow2. lia. }
  assert (Hle : Z.pos mc <= m').
  { rewrite Hm'.
    assert (Hpow : 0 < 2 ^ s) by (apply Z.pow_pos_nonneg; lia).
    destruct (Z_le_gt_dec e' (-1074)) as [Hlow|Hhigh].
    - (* the least exponent *)
      assert (- ec <= s) by (subst s; lia).
      assert (2 ^ (- ec) <= 2 ^ s) by (apply Z.pow_le_mono_r; lia).
      nia.
    - (* the exponent of a normal quotient *)
      assert (d2 - d1 + 1 <= s) by (subst s e'; lia).
      assert (Hb : 2 ^ d2 <= 2 ^ (d1 - 1) * 2 ^ s).
      { rewrite <- Z.pow_add_r by lia. apply Z.pow_le_mono_r; lia. }
      assert (2 ^ (d1 - 1) * 2 ^ s <= Z.pos my * 2 ^ s)
        by (apply Z.mul_le_mono_nonneg_r; lia).
      lia. }
  assert (Hq : 0 < m' / Z.pos mc).
  { apply Z.div_str_pos. lia. }
  assert (Hfst : fst (Z.div_eucl m' (Z.pos mc)) = m' / Z.pos mc)
    by reflexivity.
  destruct (Z.div_eucl m' (Z.pos mc)) as [q r]. cbn [fst] in Hfst.
  subst q. destruct (m' / Z.pos mc) as [|q|q]; try lia.
  exists q, e'. eexists. split; [reflexivity|exact He'].
Qed.

End PositiveQuotients.

Section PositiveQuotientFacts.
Local Open Scope float_scope.

(** A positive Number divided by a positive Number that is at most 1 is
    positive: the division does not round to zero. *)
Lemma div_pos_le_one y c :
  (0 <? y) = true -> (0 <? c) = true -> (c <=? 1) = true ->
  (0 <? y / c) = true.
Proof.
  intros Hy Hc0 Hc1.
  pose proof (Prim2SF_valid y) as Vy. pose proof (Prim2SF_valid c) as Vc.
  rewrite ltb_spec in *. rewrite leb_spec in Hc1. rewrite div_spec.
  change (Prim2SF 0) with (S754_zero false) in *.
  change (Prim2SF 1) with (S754_finite false 4503599627370496 (-52)) in Hc1.
  destruct (Prim2SF c) as [[]|[]| |[] mc ec]; try discriminate Hc0;
    try discriminate Hc1.
  destruct (valid_mantissa _ _ _ Vc) as [Hdc _].
  pose proof (digits2_pos_bounds mc) as Hbc.
  assert (Hc : (ec <= 0 /\ Z.pos mc <= 2 ^ (- ec))%Z).
  { unfold SFleb, SFcompare in Hc1.
    assert (Hm53 : (Z.pos mc < 2 ^ 53)%Z).
    { assert (2 ^ Z.pos (digits2_pos mc) <= 2 ^ 53)%Z
        by (apply pow2_le_mono; lia). lia. }
    destruct (Z.compare_spec ec (-52)) as [He|He|He].
    - subst ec. split; [lia|].
      change (PosDef.Pos.compare_cont Eq) with Pos.compare in Hc1.
      destruct (Pos.compare_spec mc 4503599627370496%positive) as [H|H|H];
        try discriminate Hc1.
      + subst mc. apply Z.leb_le. vm_compute. reflexivity.
      + apply Pos2Z.pos_lt_pos in H.
        change (2 ^ (- -52))%Z with 4503599627370496%Z. clear - H. lia.
    - split; [lia|].
      assert (2 ^ 53 <= 2 ^ (- ec))%Z by (apply pow2_le_mono; lia).
      clear - Hm53 H. lia.
    - discriminate Hc1. }
  destruct Hc as [Hec Hmc].
  destruct (Prim2SF y) as [[]|[]| |[] my ey]; try discriminate Hy;
    [reflexivity|].
  assert (Hey : (-1074 <= ey)%Z).
  { simpl in Vy. unfold bounded, canonical_mantissa, fexp, emin, prec, emax
      in Vy.
    apply andb_prop in Vy. destruct Vy as [Vy _]. apply Z.eqb_eq in Vy.
    clear - Vy. lia. }
  unfold SF64div, SFdiv. cbn [xorb].
  destruct (@SFdiv_core_le_one my ey mc ec Hey Hec Hmc)
    as (q & e & l & Hq & He).
  rewrite Hq.
  pose proof (@binary_round_aux_signed false (Z.pos q) e l) as Hs.
  pose proof (@binary_round_aux_nonzero false q e l) as Hn.
  destruct (binary_round_aux prec emax false (Z.pos q) e l)
    as [s'|[]| |[] mz ez]; simpl in Hs; try reflexivity.
  - exfalso. apply (Hn ltac:(intros; exfalso; clear - He H; lia) s').
    reflexivity.
  - specialize (Hs ltac:(lia)). discriminate Hs.
  - specialize (Hs ltac:(lia)). exact (False_ind _ Hs).
  - specialize (Hs ltac:(lia)). discriminate Hs.
Qed.

End PositiveQuotientFacts.

Section RangeFacts.
Local Open Scope float_scope.

Lemma ltb_not_nan_l x y : (x <? y) = true -> is_nan x = false.
Proof.
  rewrite ltb_spec. intros H. apply is_nan_false.
  destruct (Prim2SF x); try discriminate; discriminate H.
Qed.

Lemma cos_checked_on_latitudes : cosine_on_latitudes cos_checked.
Proof.
  intros lo hi _ _. unfold cos_checked.
  destruct ((0 <? cos_ref _) && (cos_ref _ <=? 1)) eqn:E.
  - apply andb_prop in E. exact E.
  - split; reflexivity.
Qed.

End RangeFacts.

(** ** The order of Numbers is the order of their values *)
Section ExactOrder.
Local Open Scope Z_scope.

Lemma valid_exponent s m e :
  valid_binary (S754_finite s m e) = true -> -1074 <= e.
Proof.
  simpl. unfold bounded, canonical_mantissa, fexp, emin, prec, emax.
  intros H. apply andb_prop in H. destruct H as [H _].
  apply Z.eqb_eq in H. lia.
Qed.

(** Among valid specification floats, a greater exponent is a greater
    magnitude. *)
Lemma magnitude_lt s1 m1 e1 s2 m2 e2 :
  valid_binary (S754_finite s1 m1 e1) = true ->
  valid_binary (S754_finite s2 m2 e2) = true ->
  e1 < e2 ->
  Z.pos m1 * 2 ^ (e1 + 1074) < Z.pos m2 * 2 ^ (e2 + 1074).
Proof.
  intros V1 V2 H.
  pose proof (valid_exponent _ _ _ V1) as He1.
  destruct (valid_mantissa _ _ _ V1) as [Hd1 _].
  destruct (valid_mantissa _ _ _ V2) as [_ Hd2].
  pose proof (digits2_pos_bounds m1) as Hb1.
  pose proof (digits2_pos_bounds m2) as Hb2.
  destruct Hd2 as [Hd2|Hd2]; [|lia]. rewrite Hd2 in Hb2.
  assert (Hm1 : Z.pos m1 < 2 ^ 53).
  { assert (2 ^ Z.pos (digits2_pos m1) <= 2 ^ 53)
      by (apply pow2_le_mono; lia). lia. }
  set (a := e1 + 1074) in *.
  assert (Ha : 0 <= a) by (subst a; lia).
  replace (e2 + 1074) with (a + (e2 - e1)) by (subst a; lia).
  rewrite Z.pow_add_r by lia.
  assert (Hpa : 0 < 2 ^ a) by (apply Z.pow_pos_nonneg; lia).
  assert (Hp2 : 2 ^ 1 <= 2 ^ (e2 - e1)) by (apply pow2_le_mono; lia).
  change (2 ^ 1) with 2 in Hp2.
  change (2 ^ (53 - 1)) with (2 ^ 52) in Hb2.
  change (2 ^ 53) with (2 * 2 ^ 52) in Hm1.
  set (t := 2 ^ 52) in *. set (u := 2 ^ (e2 - e1)) in *.
  set (pa := 2 ^ a) in *.
  assert (Z.pos m1 * pa < 2 * t * pa) by (apply Z.mul_lt_mono_pos_r; lia).
  assert (2 * t * pa <= Z.pos m2 * (pa * u)).
  { replace (Z.pos m2 * (pa * u)) with (Z.pos m2 * u * pa) by ring.
    apply Z.mul_le_mono_nonneg_r; [lia|].
    assert (t * 2 <= Z.pos m2 * u)
      by (apply Z.mul_le_mono_nonneg; lia).
    lia. }
  lia.
Qed.

(** The order of valid finite specification floats is the order of their
    values. *)
Lemma SFcompare_scaled X Y a b :
  valid_binary X = true -> valid_binary Y = true ->
  SF_scaled X = Some a -> SF_scaled Y = Some b ->
  SFcompare X Y = Some (a ?= b).
Proof.
  intros VX VY HX HY.
  assert (Hpos : forall s m e, valid_binary (S754_finite s m e) = true ->
                               0 < Z.pos m * 2 ^ (e + 1074)).
  { intros s m e V. pose proof (valid_exponent _ _ _ V).
    apply Z.mul_pos_pos; [lia|apply Z.pow_pos_nonneg; lia]. }
  destruct X as [sx|sx| |sx mx ex], Y as [sy|sy| |sy my ey];
    try discriminate HX; try discriminate HY;
    cbn [SF_scaled] in HX, HY;
    match type of HX with Some ?v = Some _ =>
      assert (Ea : a = v) by congruence end;
    match type of HY with Some ?v = Some _ =>
      assert (Eb : b = v) by congruence end;
    subst a b; clear HX HY.
  - reflexivity.
  - pose proof (Hpos _ _ _ VY). cbn [SFcompare]. f_equal.
    destruct sy; symmetry;
      [apply Z.compare_gt_iff|apply Z.compare_lt_iff]; lia.
  - pose proof (Hpos _ _ _ VX). cbn [SFcompare]. f_equal.
    destruct sx; symmetry;
      [apply Z.compare_lt_iff|apply Z.compare_gt_iff]; lia.
  - pose proof (Hpos _ _ _ VX) as Px. pose proof (Hpos _ _ _ VY) as Py.
    cbn [SFcompare]. f_equal.
    change (PosDef.Pos.compare_cont Eq) with Pos.compare.
    set (vx := Z.pos mx * 2 ^ (ex + 1074)) in *.
    set (vy := Z.pos my * 2 ^ (ey + 1074)) in *.
    assert (Hlt : ex < ey -> vx < vy)
      by (intros; now apply (@magnitude_lt sx mx ex sy my ey)).
    assert (Hgt : ey < ex -> vy < vx)
      by (intros; now apply (@magnitude_lt sy my ey sx mx ex)).
    assert (Heq : ex = ey -> (mx ?= my)%positive = (vx ?= vy)).
    { intros ->. subst vx vy. rewrite Pos2Z.inj_compare.
      pose proof (valid_exponent _ _ _ VY).
      assert (Hp : 0 < 2 ^ (ey + 1074)) by (apply Z.pow_pos_nonneg; lia).
      destruct (Z.compare_spec (Z.pos mx) (Z.pos my)) as [E|E|E]; symmetry.
      - apply Z.compare_eq_iff. now rewrite E.
      - apply Z.compare_lt_iff. now apply Z.mul_lt_mono_pos_r.
      - apply Z.compare_gt_iff. now apply Z.mul_lt_mono_pos_r. }
    destruct sx, sy.
    + destruct (Z.compare_spec ex ey) as [E|E|E].
      * rewrite (Heq E), <- Z.compare_antisym.
        replace (-1 * vx) with (- vx) by lia.
        replace (-1 * vy) with (- vy) by lia.
        now rewrite Z.compare_opp.
      * specialize (Hlt E). symmetry. apply Z.compare_gt_iff. lia.
      * specialize (Hgt E). symmetry. apply Z.compare_lt_iff. lia.
    + symmetry. apply Z.compare_lt_iff. lia.
    + symmetry. apply Z.compare_gt_iff. lia.
    + destruct (Z.compare_spec ex ey) as [E|E|E].
      * rewrite (Heq E). f_equal; lia.
      * specialize (Hlt E). symmetry. apply Z.compare_lt_iff. lia.
      * specialize (Hgt E). symmetry. apply Z.compare_gt_iff. lia.
Qed.

End ExactOrder.

Section ExactNumbers.
Local Open Scope Z_scope.

Lemma leb_scaled x y a b :
  Number_scaled x = Some a -> Number_scaled y = Some b ->
  (x <=? y)%float = (a <=? b).
Proof.
  intros Hx Hy. rewrite leb_spec. unfold SFleb.
  rewrite (@SFcompare_scaled _ _ a b (Prim2SF_valid x) (Prim2SF_valid y)
             Hx Hy).
  unfold Z.leb. destruct (a ?= b); reflexivity.
Qed.

Lemma ltb_scaled x y a b :
  Number_scaled x = Some a -> Number_scaled y = Some b ->
  (x <? y)%float = (a <? b).
Proof.
  intros Hx Hy. rewrite ltb_spec. unfold SFltb.
  rewrite (@SFcompare_scaled _ _ a b (Prim2SF_valid x) (Prim2SF_valid y)
             Hx Hy).
  unfold Z.ltb. destruct (a ?= b); reflexivity.
Qed.

(** Finite Numbers of the same value are equal, or two zeros. *)
Lemma scaled_inj x y a :
  Number_scaled x = Some a -> Number_scaled y = Some a -> a <> 0 -> x = y.
Proof.
  intros Hx Hy Ha.
  assert (H1 : (x <=? y)%float = true)
    by (rewrite (@leb_scaled x y a a Hx Hy); apply Z.leb_refl).
  assert (H2 : (y <=? x)%float = true)
    by (rewrite (@leb_scaled y x a a Hy Hx); apply Z.leb_refl).
  destruct (@leb_antisym _ _ H1 H2) as [H|[Zx _]]; [exact H|exfalso].
  apply is_zero_spec in Zx. destruct Zx as [s Zx].
  unfold Number_scaled in Hx. rewrite Zx in Hx. simpl in Hx. congruence.
Qed.

Lemma scaled_Number_of_Z z :
  0 <= z < 2 ^ 53 -> Number_scaled (Number_of_Z z) = Some (z * 2 ^ 1074).
Proof.
  intros Hz. destruct (Z.eq_dec z 0) as [->|Hne]; [reflexivity|].
  destruct (@Prim2SF_Number_of_Z z) as (m & e & Hp & He & Hm & _); [lia|].
  unfold Number_scaled. rewrite Hp. cbn [SF_scaled]. f_equal.
  rewrite Hm, Z.mul_1_l, <- Z.mul_assoc, <- Z.pow_add_r by lia.
  f_equal. f_equal. lia.
Qed.

Lemma scaled_opp x v :
  Number_scaled x = Some v -> Number_scaled (- x) = Some (- v).
Proof.
  unfold Number_scaled. rewrite opp_spec.
  destruct (Prim2SF x) as [s|s| |s m e]; cbn [SFopp SF_scaled];
    try discriminate; intros H.
  - assert (v = 0) by congruence. subst v. reflexivity.
  - match type of H with Some ?w = _ => assert (E : v = w) by congruence end.
    subst v. f_equal. destruct s; cbn [negb]; lia.
Qed.

(** An integral Number is a whole multiple of the unit. *)
Lemma scaled_integral x :
  is_integral x = true -> exists w, Number_scaled x = Some (w * 2 ^ 1074).
Proof.
  unfold is_integral, Number_scaled. pose proof (Prim2SF_valid x) as V.
  destruct (Prim2SF x) as [s|s| |s m e]; try discriminate; intros H.
  - exists 0. reflexivity.
  - pose proof (valid_exponent _ _ _ V) as He. cbn [SF_scaled].
    apply orb_prop in H. destruct H as [H|H].
    + apply Z.leb_le in H.
      exists ((if s then -1 else 1) * (Z.pos m * 2 ^ e)). f_equal.
      rewrite Z.pow_add_r by lia. ring.
    + destruct (Z.leb_spec 0 e) as [H0|H0].
      * exists ((if s then -1 else 1) * (Z.pos m * 2 ^ e)). f_equal.
        rewrite Z.pow_add_r by lia. ring.
      * apply Z.eqb_eq in H.
        assert (Hd : 0 < 2 ^ (- e)) by (apply Z.pow_pos_nonneg; lia).
        pose proof (Z.div_mod (Z.pos m) (2 ^ (- e))) as Hdm.
        exists ((if s then -1 else 1) * (Z.pos m / 2 ^ (- e))). f_equal.
        replace (2 ^ 1074) with (2 ^ (- e) * 2 ^ (e + 1074))
          by (rewrite <- Z.pow_add_r by lia; f_equal; lia).
        rewrite Hdm at 1 by lia. rewrite H. ring.
Qed.

Lemma is_integral_Number_of_Z z :
  0 <= z < 2 ^ 53 -> is_integral (Number_of_Z z) = true.
Proof.
  intros Hz. destruct (Z.eq_dec z 0) as [->|Hne]; [reflexivity|].
  destruct (@Prim2SF_Number_of_Z z) as (m & e & Hp & He & Hm & _); [lia|].
  unfold is_integral. rewrite Hp, Hm.
  rewrite Z.mod_mul by (apply Z.pow_nonzero; lia).
  apply orb_true_r.
Qed.

Lemma is_integral_opp x : is_integral (- x) = is_integral x.
Proof.
  unfold is_integral. rewrite opp_spec.
  destruct (Prim2SF x); reflexivity.
Qed.

(** [Math.floor] is the floor: in units of 2^-1074, the greatest multiple
    of 2^1074 that is not above the value. *)
Lemma Math_floor_scaled q v :
  Number_scaled q = Some v ->
  Number_scaled (Math_floor q) = Some (v / 2 ^ 1074 * 2 ^ 1074) /\
  is_integral (Math_floor q) = true.
Proof.
  intros Hq. pose proof (Prim2SF_valid q) as V.
  assert (HD : 0 < 2 ^ 1074) by (apply Z.pow_pos_nonneg; lia).
  destruct (is_integral q) eqn:I.
  - (* an integral Number is its own floor *)
    assert (Hf : Math_floor q = q).
    { unfold Math_floor. rewrite I. destruct (Prim2SF q); reflexivity. }
    rewrite Hf. split; [|exact I].
    destruct (@scaled_integral q I) as [w Hw].
    rewrite Hq in Hw. injection Hw as ->.
    rewrite Hq. f_equal. rewrite Z.div_mul by lia. reflexivity.
  - unfold Math_floor. unfold is_integral in I. unfold Number_scaled in Hq.
    destruct (Prim2SF q) as [s|s| |s m e] eqn:E; try discriminate.
    replace (is_integral q) with false
      by (unfold is_integral; now rewrite E).
    apply orb_false_elim in I. destruct I as [I1 I2].
    apply Z.leb_gt in I1. apply Z.eqb_neq in I2.
    pose proof (valid_exponent _ _ _ V) as He.
    destruct (valid_mantissa _ _ _ V) as [Hd _].
    pose proof (digits2_pos_bounds m) as Hb.
    assert (Hm53 : Z.pos m < 2 ^ 53).
    { assert (2 ^ Z.pos (digits2_pos m) <= 2 ^ 53)
        by (apply pow2_le_mono; lia). lia. }
    set (d := 2 ^ (- e)) in *.
    assert (Hd2 : 2 <= d).
    { change 2 with (2 ^ 1). apply pow2_le_mono; lia. }
    assert (Hq0 : 0 <= Z.pos m / d) by (apply Z.div_pos; lia).
    assert (Hq1 : Z.pos m / d < 2 ^ 52).
    { apply Z.le_lt_trans with (Z.pos m / 2).
      - apply Z.div_le_compat_l; lia.
      - apply Z.div_lt_upper_bound; [lia|].
        change (2 * 2 ^ 52) with (2 ^ 53). exact Hm53. }
    assert (Hq2 : Z.pos m / d + 1 < 2 ^ 53).
    { apply Z.lt_le_trans with (2 ^ 52 + 1); [clear - Hq1; lia|].
      apply Z.leb_le. vm_compute. reflexivity. }
    assert (HDd : 2 ^ 1074 = d * 2 ^ (e + 1074)).
    { unfold d. rewrite <- Z.pow_add_r by lia. f_equal. lia. }
    assert (Hp : 0 < 2 ^ (e + 1074)) by (apply Z.pow_pos_nonneg; lia).
    cbn [SF_scaled] in Hq.
    match type of Hq with Some ?w = _ => assert (Ev : v = w) by congruence end.
    clear Hq. destruct s.
    + (* below zero: one below the truncation *)
      split.
      * rewrite (@scaled_opp _ _ (@scaled_Number_of_Z (Z.pos m / d + 1)
                                    ltac:(clear - Hq0 Hq2; lia))).
        f_equal. subst v. rewrite HDd.
        replace (-1 * (Z.pos m * 2 ^ (e + 1074)))
          with (- Z.pos m * 2 ^ (e + 1074)) by ring.
        rewrite Z.div_mul_cancel_r by lia.
        rewrite Z.div_opp_l_nz by lia. ring.
      * rewrite is_integral_opp. apply is_integral_Number_of_Z.
        clear - Hq0 Hq2. lia.
    + split.
      * rewrite (@scaled_Number_of_Z (Z.pos m / d)
                   ltac:(clear - Hq0 Hq2; lia)).
        f_equal. subst v. rewrite HDd, Z.mul_1_l.
        rewrite Z.div_mul_cancel_r by lia. reflexivity.
      * apply is_integral_Number_of_Z. clear - Hq0 Hq2. lia.
Qed.

End ExactNumbers.

(** ** [Math.floor] is the floor *)
Section FloorFacts.
Local Open Scope float_scope.

Lemma finite_scaled q :
  is_finite q = true -> exists v, Number_scaled q = Some v.
Proof.
  unfold is_finite, is_infinity, Number_scaled. intros H.
  apply negb_true_iff, orb_false_elim in H. destruct H as [Hn Hi].
  apply is_nan_false in Hn.
  rewrite FloatAxioms.eqb_spec, abs_spec in Hi.
  change (Prim2SF infinity) with (S754_infinity false) in Hi.
  destruct (Prim2SF q) as [s|s| |s m e]; cbn [SF_scaled]; eauto.
  - discriminate Hi.
  - congruence.
Qed.

Lemma scaled_zero x : Number_scaled x = Some 0%Z -> is_zero x = true.
Proof.
  unfold Number_scaled. pose proof (Prim2SF_valid x) as V. intros H.
  apply is_zero_spec.
  destruct (Prim2SF x) as [s|s| |s m e]; try discriminate H; eauto.
  exfalso. pose proof (valid_exponent _ _ _ V) as He.
  cbn [SF_scaled] in H.
  assert (0 < Z.pos m * 2 ^ (e + 1074))%Z
    by (apply Z.mul_pos_pos; [lia|apply Z.pow_pos_nonneg; lia]).
  assert (E : ((if s then -1 else 1) * (Z.pos m * 2 ^ (e + 1074)) = 0)%Z)
    by congruence.
  destruct s; lia.
Qed.

(** A Number that compares with a finite Number on both sides is finite. *)
Lemma between_finite lo q hi a b :
  Number_scaled lo = Some a -> Number_scaled hi = Some b ->
  (lo <=? q) = true -> (q <? hi) = true ->
  exists v, Number_scaled q = Some v.
Proof.
  unfold Number_scaled. rewrite leb_spec, ltb_spec. intros Hlo Hhi H1 H2.
  destruct (Prim2SF q) as [s|s| |s m e]; cbn [SF_scaled]; eauto.
  - destruct s.
    + destruct (Prim2SF lo) as [?|[]| |[] ? ?]; try discriminate Hlo;
        discriminate H1.
    + destruct (Prim2SF hi) as [?|[]| |[] ? ?]; try discriminate Hhi;
        discriminate H2.
  - destruct (Prim2SF lo); discriminate H1.
Qed.

(** [Math.floor] is the floor. *)
Lemma Math_floor_floor_of q : floor_of q (Math_floor q).
Proof.
  assert (HD : (0 < 2 ^ 1074)%Z) by (apply Z.pow_pos_nonneg; lia).
  set (D := (2 ^ 1074)%Z) in *.
  split; [|split; [|split]].
  - intros I. unfold Math_floor. rewrite I.
    destruct (Prim2SF q); reflexivity.
  - intros F. destruct (@finite_scaled q F) as [v Hv].
    destruct (@Math_floor_scaled _ _ Hv) as [Hf Hi]. fold D in Hf.
    split; [exact Hi|]. split.
    + rewrite (@leb_scaled _ _ _ _ Hf Hv). apply Z.leb_le.
      pose proof (Z.mul_div_le v D HD). lia.
    + intros n In Hn. destruct (@scaled_integral n In) as [w Hw].
      fold D in Hw. rewrite (@leb_scaled _ _ _ _ Hw Hv) in Hn.
      apply Z.leb_le in Hn.
      rewrite (@leb_scaled _ _ _ _ Hw Hf). apply Z.leb_le.
      apply Z.mul_le_mono_nonneg_r; [lia|].
      apply Z.div_le_lower_bound; lia.
  - intros z Hz1 Hz2 Hlo Hhi.
    pose proof (@scaled_Number_of_Z z ltac:(lia)) as Sz.
    pose proof (@scaled_Number_of_Z (z + 1) ltac:(lia)) as Sz1.
    fold D in Sz, Sz1.
    destruct (@between_finite _ _ _ _ _ Sz Sz1 Hlo Hhi) as [v Hv].
    destruct (@Math_floor_scaled _ _ Hv) as [Hf _]. fold D in Hf.
    rewrite (@leb_scaled _ _ _ _ Sz Hv) in Hlo. apply Z.leb_le in Hlo.
    rewrite (@ltb_scaled _ _ _ _ Hv Sz1) in Hhi. apply Z.ltb_lt in Hhi.
    assert (Hdiv : (v / D = z)%Z).
    { symmetry. apply (Z.div_unique_pos v D z (v - z * D)); lia. }
    rewrite Hdiv in Hf.
    apply (@scaled_inj _ _ (z * D)%Z Hf Sz). nia.
  - intros Hlo Hhi.
    assert (S0 : Number_scaled 0 = Some 0%Z) by reflexivity.
    assert (S1 : Number_scaled 1 = Some D)
      by exact (@scaled_Number_of_Z 1 ltac:(lia)).
    destruct (@between_finite _ _ _ _ _ S0 S1 Hlo Hhi) as [v Hv].
    destruct (@Math_floor_scaled _ _ Hv) as [Hf _]. fold D in Hf.
    rewrite (@leb_scaled _ _ _ _ S0 Hv) in Hlo. apply Z.leb_le in Hlo.
    rewrite (@ltb_scaled _ _ _ _ Hv S1) in Hhi. apply Z.ltb_lt in Hhi.
    rewrite Z.div_small in Hf by lia.
    apply scaled_zero. exact Hf.
Qed.

End FloorFacts.

(* ===================================================================== *)
(** * The grid hash and the layer data of a call *)
(* ===================================================================== *)

Section Aggregation.
Variable Math_cos : float -> float.
Variable P : Type.
Variable getPosition : P -> list float.
Local Open Scope float_scope.

Lemma hashing_gridOffset points cellSize :
  gridOffset (_pointsToGridHashing Math_cos points cellSize getPosition)
  = offset_of Math_cos getPosition points cellSize.
Proof.
  unfold _pointsToGridHashing, offset_of.
  destruct (_ || _); reflexivity.
Qed.

Lemma hashing_guarded points cellSize :
  guard (offset_of Math_cos getPosition points cellSize) = true ->
  _pointsToGridHashing Math_cos points cellSize getPosition
  = {| gridHash := []; gridOffset := offset_of Math_cos getPosition points cellSize |}.
Proof.
  unfold guard, _pointsToGridHashing, offset_of. intros ->. reflexivity.
Qed.

Lemma hashing_binned points cellSize :
  guard (offset_of Math_cos getPosition points cellSize) = false ->
  gridHash (_pointsToGridHashing Math_cos points cellSize getPosition)
  = fold_left (add_point (point_key getPosition (offset_of Math_cos getPosition points cellSize))) points [].
Proof.
  unfold guard, _pointsToGridHashing, offset_of. intros ->.
  unfold gridHash, Array_reduce.
  apply (reduce_from_fold_left
           (add_point (point_key getPosition
              (_calculateGridLatLonOffset Math_cos cellSize
                 (centerLat_of points getPosition))))).
Qed.

(** The invariant of the grid hash of a call: on the points that were
    binned, which are all of them unless the guard returned early. *)
Lemma hashing_inv points cellSize :
  hash_inv (point_key getPosition (offset_of Math_cos getPosition points cellSize))
           (if guard (offset_of Math_cos getPosition points cellSize) then [] else points)
           (gridHash
              (_pointsToGridHashing Math_cos points cellSize getPosition)).
Proof.
  destruct (guard (offset_of Math_cos getPosition points cellSize)) eqn:G.
  - rewrite hashing_guarded by assumption. apply hash_inv_nil.
  - rewrite hashing_binned by assumption.
    apply (@hash_inv_fold _ _ points [] []), hash_inv_nil.
Qed.

Lemma data_layerData points cellSize :
  layerData (pointToDensityGridData Math_cos points cellSize getPosition)
  = data_from (offset_of Math_cos getPosition points cellSize) 0
      (gridHash (_pointsToGridHashing Math_cos points cellSize getPosition)).
Proof.
  unfold pointToDensityGridData, layerData.
  now rewrite layerData_data_from, hashing_gridOffset.
Qed.

End Aggregation.

(** ** Calls that return, and calls that throw *)
Section CallFacts.
Variable Math_cos : float -> float.
Variable max_arguments : nat.
Variable P : Type.
Variable getPosition : P -> list float.
Local Open Scope float_scope.

(** A call on no more points than the engine passes as arguments returns
    what the functions of the model compute. *)
Lemma hashing_call_returns (points : list P) (cellSize : float) :
  (length points <= max_arguments)%nat ->
  _pointsToGridHashing_call Math_cos max_arguments points cellSize getPosition
  = Returns (_pointsToGridHashing Math_cos points cellSize getPosition).
Proof.
  intros H. unfold _pointsToGridHashing_call, Function_apply.
  rewrite length_map. apply Nat.leb_le in H. rewrite H.
  unfold _pointsToGridHashing, centerLat_of.
  destruct (_ || _); reflexivity.
Qed.

Lemma call_returns (points : list P) (cellSize : float) :
  (length points <= max_arguments)%nat ->
  pointToDensityGridData_call Math_cos max_arguments points cellSize
                              getPosition
  = Returns (pointToDensityGridData Math_cos points cellSize getPosition).
Proof.
  intros H. unfold pointToDensityGridData_call.
  now rewrite hashing_call_returns.
Qed.

(** A call on more points throws, before anything else is computed. *)
Lemma hashing_call_throws (points : list P) (cellSize : float) :
  (max_arguments < length points)%nat ->
  _pointsToGridHashing_call Math_cos max_arguments points cellSize getPosition
  = Throws_RangeError.
Proof.
  intros H. unfold _pointsToGridHashing_call, Function_apply.
  rewrite length_map. apply Nat.leb_gt in H. now rewrite H.
Qed.

End CallFacts.

(* ===================================================================== *)
(** * Properties of the aggregation *)
(* ===================================================================== *)

Section Claims.
Variable Math_cos : float -> float.
Variable P : Type.
Variable getPosition : P -> list float.
Local Open Scope float_scope.

(** Offsets that are both positive pass the guard. *)
Lemma positive_offsets_pass_guard (gridOffset : GridOffset) :
  (0 <? xOffset gridOffset) = true -> (0 <? yOffset gridOffset) = true ->
  guard gridOffset = false.
Proof.
  intros Hx Hy. unfold guard.
  now rewrite (ltb_zero_not_leb Hx), (ltb_zero_not_leb Hy).
Qed.

(** A positive cell size so small that [cellSize / R_EARTH] rounds to
    zero gives a zero latitude offset, whatever [Math.cos] is: the guard
    returns early and nothing is binned. *)
Lemma underflow_guarded (points : list P) :
  guard (offset_of Math_cos getPosition points 1e-320) = true.
Proof.
  unfold guard, offset_of, _calculateGridLatLonOffset. simpl yOffset.
  replace (_calculateLatOffset 1e-320) with 0 by (vm_compute; reflexivity).
  apply orb_true_r.
Qed.

(** Whenever the guard of the call does not return early, the [count]
    fields of the layer data add up to the number of input points, and the
    [points] arrays of the cells together hold every input point exactly
    once. *)
Lemma counts_cover_binned_points (points : list P) (cellSize : float) :
  guard (offset_of Math_cos getPosition points cellSize) = false ->
  let data :=
    layerData (pointToDensityGridData Math_cos points cellSize getPosition) in
  total_count data = Z.of_nat (length points) /\
  Permutation (cells_points data) points.
Proof.
  intros G data. subst data. rewrite data_layerData.
  unfold total_count, cells_points.
  rewrite counts_data_from, points_data_from, hashing_binned by assumption.
  set (k := point_key getPosition _). split.
  - exact (sum_counts_fold k points []).
  - exact (all_points_fold k points []).
Qed.

(** Inputs within the range of the specification pass the guard. *)
Lemma in_range_inputs_pass_guard (points : list P) (cellSize : float) :
  points <> [] ->
  (forall pt, In pt points -> within_89 (get_index (getPosition pt) 1)) ->
  (0 <? _calculateLatOffset cellSize) = true ->
  cosine_on_latitudes Math_cos ->
  let gridOffset := offset_of Math_cos getPosition points cellSize in
  (0 <? xOffset gridOffset) = true /\ (0 <? yOffset gridOffset) = true /\
  guard gridOffset = false.
Proof.
  intros Hne Hlat Hy Hcos off.
  set (allLat := map (fun p => get_index (getPosition p) 1) points).
  assert (Hl : allLat <> []).
  { subst allLat. destruct points; [congruence|discriminate]. }
  assert (Hin : forall lat, In lat allLat -> within_89 lat).
  { intros lat H. apply in_map_iff in H. destruct H as (pt & <- & Hpt).
    now apply Hlat. }
  assert (Hnan : no_nan allLat).
  { intros lat H. destruct (Hin lat H) as [_ H89].
    exact (@ltb_not_nan_l _ _ H89). }
  destruct (Math_min_least Hl Hnan) as [Hmin _].
  destruct (Math_max_greatest Hl Hnan) as [Hmax _].
  destruct (Hcos _ _ (Hin _ Hmin) (Hin _ Hmax)) as [Hc0 Hc1].
  assert (Hx : (0 <? xOffset off) = true).
  { unfold off, offset_of, _calculateGridLatLonOffset, xOffset,
      _calculateLonOffset, centerLat_of. fold allLat.
    apply div_pos_le_one; assumption. }
  split; [exact Hx|]. split; [exact Hy|].
  apply positive_offsets_pass_guard; assumption.
Qed.

(** C1 (amended).  For a non-empty sequence of points whose latitudes are
    all strictly within (-89, 89), and a cell size that is positive and
    whose latitude offset is positive (it is not so small that the offset
    rounds to zero), on an engine whose [Math.cos] is positive and at most
    1 at the midpoint of two latitudes within (-89, 89): the guard does
    not return early, the [count] fields of the layer data add up to the
    number of input points, and the [points] arrays of the cells together
    hold every input point exactly once. *)
Theorem counts_cover_points (points : list P) (cellSize : float) :
  points <> [] ->
  (forall pt, In pt points -> within_89 (get_index (getPosition pt) 1)) ->
  (0 <? cellSize) = true ->
  (0 <? _calculateLatOffset cellSize) = true ->
  cosine_on_latitudes Math_cos ->
  let data :=
    layerData (pointToDensityGridData Math_cos points cellSize getPosition) in
  guard (offset_of Math_cos getPosition points cellSize) = false /\
  total_count data = Z.of_nat (length points) /\
  Permutation (cells_points data) points.
Proof.
  intros Hne Hlat _ Hy Hcos data.
  destruct (@in_range_inputs_pass_guard points cellSize Hne Hlat Hy Hcos)
    as (_ & _ & G).
  split; [exact G|]. now apply counts_cover_binned_points.
Qed.

(** C9.  Every cell of the grid hash holds exactly the input points whose
    key is the key of the cell, in input order; its [count] is the length
    of its [points] and at least 1; the layer data carries both unchanged,
    entry by entry, in the order of the keys; when the guard does not
    return early every input point is held by the cell of its own key,
    and by the entry of that cell; and when the guard returns early there
    is no cell and no entry. *)
Theorem cells_hold_their_points (points : list P) (cellSize : float) :
  let h := _pointsToGridHashing Math_cos points cellSize getPosition in
  let data :=
    layerData (pointToDensityGridData Math_cos points cellSize getPosition) in
  NoDup (Object_keys (gridHash h)) /\
  (forall key cell, In (key, cell) (gridHash h) ->
     GridCell.points cell
     = filter (fun pt => String.eqb (key_of (gridOffset h) (getPosition pt))
                                    key) points /\
     GridCell.count cell = Z.of_nat (length (GridCell.points cell)) /\
     (1 <= GridCell.count cell)%Z) /\
  length data = length (gridHash h) /\
  (forall i key cell, nth_error (gridHash h) i = Some (key, cell) ->
     exists datum, nth_error data i = Some datum /\
                   LayerDatum.index datum = i /\
                   LayerDatum.count datum = GridCell.count cell /\
                   LayerDatum.points datum = GridCell.points cell) /\
  (guard (gridOffset h) = false ->
   forall pt, In pt points ->
     exists i cell datum,
       nth_error (gridHash h) i
       = Some (key_of (gridOffset h) (getPosition pt), cell) /\
       In pt (GridCell.points cell) /\
       nth_error data i = Some datum /\
       LayerDatum.count datum = GridCell.count cell /\
       LayerDatum.points datum = GridCell.points cell) /\
  (guard (gridOffset h) = true -> gridHash h = [] /\ data = []).
Proof.
  intros h data. subst h data.
  rewrite data_layerData, hashing_gridOffset.
  pose proof (hashing_inv Math_cos getPosition points cellSize) as I.
  set (off := offset_of Math_cos getPosition points cellSize) in *.
  assert (Hg : guard off = true ->
               gridHash (_pointsToGridHashing Math_cos points cellSize
                           getPosition) = []).
  { intros G. unfold off in G. now rewrite hashing_guarded. }
  set (h := gridHash _) in *.
  split; [apply (inv_nodup I)|]. split; [|split; [|split; [|split]]].
  - intros key cell Hin.
    destruct (inv_cells I _ _ Hin) as (Hp & Hc & Hn). repeat split.
    + rewrite Hp. unfold with_key, point_key.
      destruct (guard off) eqn:G; [|reflexivity].
      (* the guard returned early: the hash is empty *)
      rewrite (Hg eq_refl) in Hin. destruct Hin.
    + exact Hc.
    + rewrite Hc. destruct (GridCell.points cell); [congruence|simpl; lia].
  - apply length_data_from.
  - intros i key cell Hi. rewrite nth_error_data_from, Hi. simpl.
    eexists. split; [reflexivity|]. simpl. auto.
  - intros G pt Hpt. rewrite G in I.
    pose proof (inv_total I _ Hpt) as Hk.
    apply in_map_iff in Hk. destruct Hk as [[key cell] [Hkey Hin]].
    simpl in Hkey. unfold point_key in Hkey. subst key.
    destruct (In_nth_error _ _ Hin) as [i Hi].
    exists i, cell. eexists. split; [exact Hi|]. split.
    + destruct (inv_cells I _ _ Hin) as (Hp & _). rewrite Hp.
      apply filter_In. split; [assumption|].
      now apply String.eqb_eq.
    + rewrite nth_error_data_from, Hi. simpl.
      split; [reflexivity|]. split; reflexivity.
  - intros G. rewrite (Hg G). split; reflexivity.
Qed.

(** The guard: when one of the two offsets is [<= 0], which is the case
    of every [cellSize <= 0], nothing is binned. *)
Lemma guarded_when_degenerate (points : list P) (cellSize : float) :
  let gridOffset := offset_of Math_cos getPosition points cellSize in
  (xOffset gridOffset <=? 0) = true \/ (yOffset gridOffset <=? 0) = true \/
  (cellSize <=? 0) = true ->
  guard gridOffset = true.
Proof.
  intros off H. unfold guard.
  destruct H as [H|[H|H]].
  - now rewrite H.
  - rewrite H. apply orb_true_r.
  - apply _calculateLatOffset_nonpos in H.
    change (yOffset off) with (_calculateLatOffset cellSize).
    rewrite H. apply orb_true_r.
Qed.

(** C4 (amended).  Whenever [xOffset <= 0] or [yOffset <= 0] holds of the
    computed offset, which is the case of every [cellSize <= 0], the
    hashing returns at once an empty grid hash together with that offset.
    (The comparisons are those of Numbers: an offset that is NaN is not
    [<= 0].) *)
Theorem degenerate_guard (points : list P) (cellSize : float) :
  let gridOffset := offset_of Math_cos getPosition points cellSize in
  (xOffset gridOffset <=? 0) = true \/ (yOffset gridOffset <=? 0) = true \/
  (cellSize <=? 0) = true ->
  _pointsToGridHashing Math_cos points cellSize getPosition
  = {| gridHash := []; gridOffset := gridOffset |}.
Proof.
  intros off H. apply hashing_guarded, guarded_when_degenerate, H.
Qed.

(** C10.  On the empty sequence of points the reference latitude is NaN
    (the sum of +Infinity and -Infinity), so [xOffset] is NaN as soon as
    [Math.cos] maps NaN to NaN, as ECMA-262 requires; that NaN is not
    [<= 0], so the guard returns early only when [yOffset <= 0];
    [yOffset] is computed from [cellSize] as usual; and the layer data is
    empty. *)
Theorem empty_input (cellSize : float) :
  Math_cos nan = nan ->
  let result :=
    pointToDensityGridData Math_cos [] cellSize getPosition in
  layerData result = [] /\
  centerLat_of [] getPosition = nan /\
  yOffset (data_gridOffset result) = _calculateLatOffset cellSize /\
  xOffset (data_gridOffset result) = nan /\
  (xOffset (data_gridOffset result) <=? 0) = false /\
  guard (data_gridOffset result)
  = (yOffset (data_gridOffset result) <=? 0).
Proof.
  intros Hcos result.
  assert (Hoff : data_gridOffset result
                 = offset_of Math_cos getPosition [] cellSize).
  { subst result. unfold pointToDensityGridData, data_gridOffset.
    apply hashing_gridOffset. }
  assert (Hx : xOffset (data_gridOffset result) = nan).
  { rewrite Hoff.
    unfold offset_of, _calculateGridLatLonOffset, xOffset,
      _calculateLonOffset.
    replace (centerLat_of [] getPosition * Math_PI / 180) with nan
      by (vm_compute; reflexivity).
    rewrite Hcos. apply div_nan_r. }
  split; [|split; [|split; [|split; [|split]]]].
  - subst result. unfold pointToDensityGridData, layerData,
      _pointsToGridHashing.
    destruct (_ || _); reflexivity.
  - vm_compute. reflexivity.
  - rewrite Hoff. reflexivity.
  - exact Hx.
  - rewrite Hx. apply nan_leb.
  - unfold guard. rewrite Hx, nan_leb. reflexivity.
Qed.

(** C6.  The offset calculator returns the two offsets of the
    specification, for every cell size and latitude; [yOffset] does not
    depend on the latitude; and degenerate inputs give NaN or an infinity
    as a result, not an error: a NaN cell size gives NaN offsets, an
    infinite one an infinite [yOffset], and a latitude at which [Math.cos]
    is zero an infinite [xOffset] (for a positive [yOffset]). *)
Theorem offsets_as_specified (cellSize latitude : float) :
  _calculateGridLatLonOffset Math_cos cellSize latitude
  = {| yOffset := spec_yOffset cellSize;
       xOffset := spec_xOffset Math_cos cellSize latitude |} /\
  (forall latitude',
     yOffset (_calculateGridLatLonOffset Math_cos cellSize latitude')
     = yOffset (_calculateGridLatLonOffset Math_cos cellSize latitude)) /\
  _calculateGridLatLonOffset Math_cos nan latitude
  = {| yOffset := nan; xOffset := nan |} /\
  yOffset (_calculateGridLatLonOffset Math_cos infinity latitude)
  = infinity /\
  (Math_cos (latitude * Math_PI / 180) = 0 ->
   (0 <? spec_yOffset cellSize) = true ->
   xOffset (_calculateGridLatLonOffset Math_cos cellSize latitude)
   = infinity).
Proof.
  split; [reflexivity|]. split; [reflexivity|]. split; [|split].
  - unfold _calculateGridLatLonOffset, _calculateLonOffset.
    f_equal. replace (nan / R_EARTH * (180 / Math_PI)) with nan
      by (vm_compute; reflexivity).
    apply nan_div_l.
  - reflexivity.
  - intros Hcos Hy.
    unfold _calculateGridLatLonOffset, _calculateLonOffset, xOffset.
    rewrite Hcos. apply div_pos_zero, Hy.
Qed.

(** C7.  For a non-empty sequence of points the offset of the call is
    computed at the midpoint [(latMin + latMax) / 2] of the least and the
    greatest latitude of the points, where [latMin] and [latMax] are
    elements of the latitudes that bound all of them (when no latitude is
    NaN); and that one offset makes the key of every point that is
    binned. *)
Theorem reference_latitude_is_midrange (points : list P) (cellSize : float) :
  points <> [] ->
  let allLat := map (fun p => get_index (getPosition p) 1) points in
  let latMin := Math_min allLat in
  let latMax := Math_max allLat in
  let centerLat := (latMin + latMax) / 2 in
  let h := _pointsToGridHashing Math_cos points cellSize getPosition in
  gridOffset h = _calculateGridLatLonOffset Math_cos cellSize centerLat /\
  (forall key cell pt,
      In (key, cell) (gridHash h) -> In pt (GridCell.points cell) ->
      key = key_of
              (_calculateGridLatLonOffset Math_cos cellSize centerLat)
              (getPosition pt)) /\
  (no_nan allLat ->
   In latMin allLat /\ In latMax allLat /\
   forall lat, In lat allLat ->
               (latMin <=? lat) = true /\ (lat <=? latMax) = true).
Proof.
  intros Hne allLat latMin latMax centerLat h.
  split; [apply hashing_gridOffset|]. split.
  - intros key cell pt Hin Hpt.
    pose proof (hashing_inv Math_cos getPosition points cellSize) as I.
    destruct (inv_cells I _ _ Hin) as (Hp & _).
    rewrite Hp in Hpt. apply filter_In in Hpt. destruct Hpt as [_ Hk].
    apply String.eqb_eq in Hk. symmetry. exact Hk.
  - intros Hnan.
    assert (Hl : allLat <> []).
    { subst allLat. destruct points; [congruence|discriminate]. }
    destruct (Math_min_least Hl Hnan) as [Hmin Hle].
    destruct (Math_max_greatest Hl Hnan) as [Hmax Hge].
    repeat split; auto.
Qed.

(** C8 (amended).  The latitude index of a point is the floor of its
    quotient [(lat + 90) / yOffset], as the source computes it, and
    likewise for the longitude: a quotient that is an integral Number is
    its own index, so a point whose quotient falls on a boundary belongs
    to the cell that starts there, not to the one below or left of it; for
    a finite quotient the index is the greatest integral Number that is
    not above it; a quotient from [k] up to, but not at, [k + 1] has the
    index [k], for every integer [k] from 1 to below 2^53 - 1; and a
    quotient from 0 up to, but not at, 1 has a zero as its index.  With
    [yOffset = 1] the latitude -89 has index 1. *)
Theorem boundary_belongs_to_upper_cell (gridOffset : GridOffset)
        (pos : list float) :
  let latQuotient := (get_index pos 1 + 90) / yOffset gridOffset in
  let lonQuotient := (get_index pos 0 + 180) / xOffset gridOffset in
  floor_of latQuotient (latIdx_of gridOffset pos) /\
  floor_of lonQuotient (lonIdx_of gridOffset pos) /\
  (forall lon x,
      latIdx_of {| yOffset := 1; xOffset := x |} [lon; -89] = 1).
Proof.
  intros latQuotient lonQuotient.
  split; [apply Math_floor_floor_of|]. split; [apply Math_floor_floor_of|].
  intros lon x. vm_compute. reflexivity.
Qed.

(** X1.  When the guard does not return early, every input point is in
    the cell found under the key of its own indices, and a cell only holds
    input points whose indices make the key of the cell: binning is
    consistent with re-binning, key by key. *)
Theorem points_rebin_to_their_cell (points : list P) (cellSize : float) :
  guard (offset_of Math_cos getPosition points cellSize) = false ->
  let h := _pointsToGridHashing Math_cos points cellSize getPosition in
  (forall pt, In pt points ->
     exists cell,
       hash_get (key_of (gridOffset h) (getPosition pt)) (gridHash h)
       = Some cell /\
       In pt (GridCell.points cell)) /\
  (forall key cell pt,
     In (key, cell) (gridHash h) -> In pt (GridCell.points cell) ->
     In pt points /\ key_of (gridOffset h) (getPosition pt) = key).
Proof.
  intros G h. subst h. rewrite hashing_gridOffset.
  pose proof (hashing_inv Math_cos getPosition points cellSize) as I.
  rewrite G in I.
  set (off := offset_of Math_cos getPosition points cellSize) in *.
  set (h := gridHash _) in *. split.
  - intros pt Hpt.
    pose proof (inv_total I _ Hpt) as Hk.
    apply in_map_iff in Hk. destruct Hk as [[key cell] [Hkey Hin]].
    simpl in Hkey. exists cell. split.
    + apply In_hash_get; [apply (inv_nodup I)|].
      unfold point_key in Hkey. now rewrite <- Hkey.
    + destruct (inv_cells I _ _ Hin) as (Hp & _). rewrite Hp.
      apply filter_In. split; [assumption|].
      now apply String.eqb_eq.
  - intros key cell pt Hin Hpt.
    destruct (inv_cells I _ _ Hin) as (Hp & _).
    rewrite Hp in Hpt. apply filter_In in Hpt.
    destruct Hpt as [Hpt Hk]. apply String.eqb_eq in Hk. now split.
Qed.

(** X2.  When the guard does not return early, the keys of the grid hash
    are the keys of the points in the order of their first occurrence, and
    the layer data numbers its entries 0, 1, 2, ... in that order. *)
Theorem cells_in_first_touch_order (points : list P) (cellSize : float) :
  guard (offset_of Math_cos getPosition points cellSize) = false ->
  let h := _pointsToGridHashing Math_cos points cellSize getPosition in
  let data :=
    layerData (pointToDensityGridData Math_cos points cellSize getPosition) in
  Object_keys (gridHash h)
  = first_touch_order
      (map (fun pt => key_of (gridOffset h) (getPosition pt)) points) /\
  map (@LayerDatum.index P) data = seq 0 (length (gridHash h)).
Proof.
  intros G h data. subst h data.
  rewrite data_layerData, hashing_gridOffset, indices_data_from.
  split; [|reflexivity].
  rewrite hashing_binned by assumption.
  apply (keys_fold (point_key getPosition
                      (offset_of Math_cos getPosition points cellSize))
                   points []).
Qed.

(** X3.  A single point, when the guard does not return early, gives one
    entry: index 0, count 1, the point itself, and the position read back
    from the key of the point. *)
Theorem single_point_single_cell (pt : P) (cellSize : float) :
  guard (offset_of Math_cos getPosition [pt] cellSize) = false ->
  let gridOffset := offset_of Math_cos getPosition [pt] cellSize in
  let key := key_of gridOffset (getPosition pt) in
  layerData (pointToDensityGridData Math_cos [pt] cellSize getPosition)
  = [LayerDatum.mk 0
       (-180 + xOffset gridOffset * key_lonIdx key,
        -90 + yOffset gridOffset * key_latIdx key)
       1%Z [pt]].
Proof.
  intros G off key. rewrite data_layerData, hashing_binned by assumption.
  reflexivity.
Qed.

(** X4.  When the guard does not return early, an input point whose two
    quotients [(lat + 90) / yOffset] and [(lon + 180) / xOffset] are at
    least 0 and below 2^53 is held by an entry of the layer data, and every
    entry that holds it has the position computed from the point's own
    indices: [[-180 + xOffset * lonIdx, -90 + yOffset * latIdx]].  On such
    points the indices read back from the key are the indices that were
    hashed (an index [-0] is read back as [0], which gives the same
    position). *)
Theorem small_indices_position (points : list P) (cellSize : float) (pt : P) :
  let h := _pointsToGridHashing Math_cos points cellSize getPosition in
  let data :=
    layerData (pointToDensityGridData Math_cos points cellSize getPosition) in
  let pos := getPosition pt in
  guard (gridOffset h) = false ->
  In pt points ->
  small_quotient ((get_index pos 1 + 90) / yOffset (gridOffset h)) ->
  small_quotient ((get_index pos 0 + 180) / xOffset (gridOffset h)) ->
  (exists datum, In datum data /\ In pt (LayerDatum.points datum)) /\
  (forall datum,
     In datum data -> In pt (LayerDatum.points datum) ->
     LayerDatum.position datum
     = (-180 + xOffset (gridOffset h) * lonIdx_of (gridOffset h) pos,
        -90 + yOffset (gridOffset h) * latIdx_of (gridOffset h) pos)).
Proof.
  intros h data pos. subst h data pos.
  rewrite data_layerData, hashing_gridOffset.
  intros G Hpt Hlat Hlon.
  pose proof (hashing_inv Math_cos getPosition points cellSize) as I.
  rewrite G in I.
  set (off := offset_of Math_cos getPosition points cellSize) in *.
  set (h := gridHash _) in *. split.
  - pose proof (inv_total I _ Hpt) as Hk.
    apply in_map_iff in Hk. destruct Hk as [[key cell] [Hkey Hin]].
    simpl in Hkey.
    destruct (@data_from_In _ off h 0%nat _ Hin) as (j & Hj).
    exists (datum_of off j (key, cell)). split; [assumption|].
    simpl. destruct (inv_cells I _ _ Hin) as (Hp & _). rewrite Hp.
    apply filter_In. split; [assumption|].
    now apply String.eqb_eq.
  - intros datum Hdatum Hin.
    apply In_data_from in Hdatum.
    destruct Hdatum as (j & [key cell] & Hentry & ->).
    simpl in Hin. destruct (inv_cells I _ _ Hentry) as (Hp & _).
    rewrite Hp in Hin. apply filter_In in Hin.
    destruct Hin as [_ Hk]. apply String.eqb_eq in Hk.
    unfold datum_of, LayerDatum.position, fst. rewrite <- Hk.
    unfold point_key, key_of, latIdx_of, lonIdx_of.
    destruct (@key_of_small_quotients _ _ (xOffset off) (yOffset off) Hlat Hlon)
      as [Hx Hy].
    cbv zeta in Hx, Hy. now rewrite Hx, Hy.
Qed.

End Claims.

(* ===================================================================== *)
(** * The calls, with the limit of [Function.prototype.apply] *)
(* ===================================================================== *)

Section CallClaims.
Variable Math_cos : float -> float.
Variable max_arguments : nat.
Variable P : Type.
Variable getPosition : P -> list float.
Local Open Scope float_scope.

(** C5 fails on a long sequence of points.  [Math.min.apply] receives one
    argument for each point: on more points than the engine passes as
    arguments the call throws a [RangeError], before the guard is reached,
    whatever the cell size is, zero and negative ones included. *)
Theorem long_input_throws (points : list P) (cellSize : float) :
  (max_arguments < length points)%nat ->
  pointToDensityGridData_call Math_cos max_arguments points cellSize
                              getPosition
  = Throws_RangeError.
Proof.
  intros H. unfold pointToDensityGridData_call.
  now rewrite hashing_call_throws.
Qed.

(** X14.  On no more points than the engine passes as arguments, a cell
    size that is zero or negative makes the call return, with an empty
    layer data, whatever the points are. *)
Theorem nonpositive_cellSize_empty (points : list P) (cellSize : float) :
  (length points <= max_arguments)%nat ->
  (cellSize <=? 0) = true ->
  exists result,
    pointToDensityGridData_call Math_cos max_arguments points cellSize
                                getPosition
    = Returns result /\
    layerData result = [].
Proof.
  intros Hlen H. rewrite call_returns by assumption.
  eexists. split; [reflexivity|].
  unfold pointToDensityGridData, layerData.
  rewrite hashing_guarded; [reflexivity|].
  apply guarded_when_degenerate. tauto.
Qed.

End CallClaims.

(* ===================================================================== *)
(** * Further properties of the aggregation *)
(* ===================================================================== *)

Section KeyRoundTrip.
Local Open Scope Z_scope.

(** X5.  The key of two natural indices below 2^53 splits at the separator
    into the two numerals, [parseInt] reads the two indices back, and two
    different pairs of such indices never make the same key. *)
Theorem key_roundtrip (a b : Z) :
  0 <= a < 2 ^ 53 -> 0 <= b < 2 ^ 53 ->
  let key := make_key (Number_of_Z a) (Number_of_Z b) in
  String_split "-" key
  = [Number_toString (Number_of_Z a); Number_toString (Number_of_Z b)] /\
  key_latIdx key = Number_of_Z a /\
  key_lonIdx key = Number_of_Z b /\
  (forall a' b',
      0 <= a' < 2 ^ 53 -> 0 <= b' < 2 ^ 53 ->
      make_key (Number_of_Z a') (Number_of_Z b') = key ->
      a' = a /\ b' = b).
Proof.
  intros Ha Hb key.
  destruct (natural_roundtrip Ha) as [Hda Hpa].
  destruct (natural_roundtrip Hb) as [Hdb Hpb].
  assert (Hs : String_split "-" key
               = [Number_toString (Number_of_Z a);
                  Number_toString (Number_of_Z b)]).
  { unfold key, make_key.
    change ("-" ++ Number_toString (Number_of_Z b))%string
      with (String "-" (Number_toString (Number_of_Z b))).
    now rewrite split_digits_dash, split_digits. }
  split; [exact Hs|].
  assert (Hlat : key_latIdx key = Number_of_Z a)
    by (unfold key_latIdx; rewrite Hs; exact Hpa).
  assert (Hlon : key_lonIdx key = Number_of_Z b)
    by (unfold key_lonIdx; rewrite Hs; exact Hpb).
  split; [exact Hlat|]. split; [exact Hlon|].
  intros a' b' Ha' Hb' Hk.
  destruct (key_of_naturals Ha' Hb') as [Hlat' Hlon'].
  rewrite Hk, Hlat in Hlat'. rewrite Hk, Hlon in Hlon'.
  split; symmetry; now apply Number_of_Z_inj.
Qed.

End KeyRoundTrip.

Section NegativeClaims.
Variable Math_cos : float -> float.
Variable P : Type.
Variable getPosition : P -> list float.
Local Open Scope float_scope.

(** The entries that hold a given input point: there is one, and the key
    of each is the key of the point. *)
Lemma entries_of_point (points : list P) (cellSize : float) (pt : P) :
  let off := offset_of Math_cos getPosition points cellSize in
  let data :=
    layerData (pointToDensityGridData Math_cos points cellSize getPosition) in
  guard off = false -> In pt points ->
  (exists datum, In datum data /\ In pt (LayerDatum.points datum)) /\
  (forall datum,
     In datum data -> In pt (LayerDatum.points datum) ->
     LayerDatum.position datum
     = (-180 + xOffset off * key_lonIdx (key_of off (getPosition pt)),
        -90 + yOffset off * key_latIdx (key_of off (getPosition pt)))).
Proof.
  intros off data G Hpt. subst data. rewrite data_layerData.
  pose proof (hashing_inv Math_cos getPosition points cellSize) as I.
  fold off in I |- *. rewrite G in I.
  set (h := gridHash _) in *. split.
  - pose proof (inv_total I _ Hpt) as Hk.
    apply in_map_iff in Hk. destruct Hk as [[key cell] [Hkey Hin]].
    simpl in Hkey.
    destruct (@data_from_In _ off h 0%nat _ Hin) as (j & Hj).
    exists (datum_of off j (key, cell)). split; [assumption|].
    simpl. destruct (inv_cells I _ _ Hin) as (Hp & _). rewrite Hp.
    apply filter_In. split; [assumption|].
    now apply String.eqb_eq.
  - intros datum Hdatum Hin.
    apply In_data_from in Hdatum.
    destruct Hdatum as (j & [key cell] & Hentry & ->).
    simpl in Hin. destruct (inv_cells I _ _ Hentry) as (Hp & _).
    rewrite Hp in Hin. apply filter_In in Hin.
    destruct Hin as [_ Hk]. apply String.eqb_eq in Hk.
    unfold datum_of, LayerDatum.position, fst. rewrite <- Hk.
    reflexivity.
Qed.

(** X6.  When the guard does not return early, an input point whose
    quotient [(lat + 90) / yOffset] is below 0 and above -2^53 (a latitude
    south of -90) is held by an entry of the layer data, and every entry
    that holds it has a NaN second coordinate, and as first coordinate
    [-180 + xOffset * |latIdx|]: the key starts with the minus sign of the
    latitude index, so the builder reads an empty first piece, and reads
    the digits of the latitude index as the longitude index, whatever the
    longitude of the point is. *)
Theorem negative_lat_index_position
        (points : list P) (cellSize : float) (pt : P) :
  let h := _pointsToGridHashing Math_cos points cellSize getPosition in
  let data :=
    layerData (pointToDensityGridData Math_cos points cellSize getPosition) in
  let pos := getPosition pt in
  guard (gridOffset h) = false ->
  In pt points ->
  small_negative_quotient ((get_index pos 1 + 90) / yOffset (gridOffset h)) ->
  (exists datum, In datum data /\ In pt (LayerDatum.points datum)) /\
  (forall datum,
     In datum data -> In pt (LayerDatum.points datum) ->
     LayerDatum.position datum
     = (-180 + xOffset (gridOffset h) * - latIdx_of (gridOffset h) pos,
        nan)).
Proof.
  intros h data pos. subst h data pos. rewrite hashing_gridOffset.
  intros G Hpt Hlat.
  destruct (entries_of_point points cellSize pt G Hpt) as [Hex Hall].
  split; [exact Hex|]. intros datum Hd Hin. rewrite (Hall datum Hd Hin).
  set (off := offset_of Math_cos getPosition points cellSize) in *.
  destruct (floor_small_negative Hlat) as (a & Ha & Hf).
  unfold key_of, latIdx_of. rewrite Hf.
  destruct (@key_of_negative_lat a (lonIdx_of off (getPosition pt)) Ha)
    as [Hklat Hklon].
  cbv zeta in Hklat, Hklon. rewrite Hklat, Hklon, opp_opp.
  f_equal. rewrite mul_nan_r. apply add_nan_r.
Qed.

(** X7.  When the guard does not return early, an input point whose
    latitude quotient is at least 0 and below 2^53 and whose quotient
    [(lon + 180) / xOffset] is below 0 and above -2^53 (a longitude west
    of -180) is held by an entry of the layer data, and every entry that
    holds it has a NaN first coordinate and the second coordinate
    [-90 + yOffset * latIdx] of the point's own latitude index. *)
Theorem negative_lon_index_position
        (points : list P) (cellSize : float) (pt : P) :
  let h := _pointsToGridHashing Math_cos points cellSize getPosition in
  let data :=
    layerData (pointToDensityGridData Math_cos points cellSize getPosition) in
  let pos := getPosition pt in
  guard (gridOffset h) = false ->
  In pt points ->
  small_quotient ((get_index pos 1 + 90) / yOffset (gridOffset h)) ->
  small_negative_quotient ((get_index pos 0 + 180) / xOffset (gridOffset h)) ->
  (exists datum, In datum data /\ In pt (LayerDatum.points datum)) /\
  (forall datum,
     In datum data -> In pt (LayerDatum.points datum) ->
     LayerDatum.position datum
     = (nan, -90 + yOffset (gridOffset h) * latIdx_of (gridOffset h) pos)).
Proof.
  intros h data pos. subst h data pos. rewrite hashing_gridOffset.
  intros G Hpt Hlat Hlon.
  destruct (entries_of_point points cellSize pt G Hpt) as [Hex Hall].
  split; [exact Hex|]. intros datum Hd Hin. rewrite (Hall datum Hd Hin).
  set (off := offset_of Math_cos getPosition points cellSize) in *.
  destruct (floor_small_negative Hlon) as (b & Hb & Hfb).
  unfold key_of, latIdx_of, lonIdx_of. rewrite Hfb.
  assert (Hnorm :
            exists a, (0 <= a < 2 ^ 53)%Z /\
                      Number_toString (Math_floor
                         ((get_index (getPosition pt) 1 + 90) / yOffset off))
                      = Number_toString (Number_of_Z a) /\
                      (Math_floor
                         ((get_index (getPosition pt) 1 + 90) / yOffset off)
                       = Number_of_Z a \/
                       (Math_floor
                          ((get_index (getPosition pt) 1 + 90) / yOffset off)
                        = - 0 /\ Number_of_Z a = 0))).
  { destruct (floor_small Hlat) as [(a & Ha & Hf)|Hf].
    - exists a. rewrite Hf. auto.
    - exists 0%Z. rewrite Hf. split; [lia|]. split; [reflexivity|].
      right. split; reflexivity. }
  destruct Hnorm as (a & Ha & Hsa & Hfa).
  assert (Hkey : make_key (Math_floor
                   ((get_index (getPosition pt) 1 + 90) / yOffset off))
                   (- Number_of_Z b)
                 = make_key (Number_of_Z a) (- Number_of_Z b)).
  { unfold make_key. now rewrite Hsa. }
  destruct (key_of_negative_lon Ha Hb) as [Hklat Hklon].
  cbv zeta in Hklat, Hklon. rewrite Hkey, Hklat, Hklon.
  f_equal.
  - rewrite mul_nan_r. apply add_nan_r.
  - destruct Hfa as [->|[-> ->]]; [reflexivity|].
    apply (@add_mul_zero (-90) (yOffset off) true 6333186975989760 (-46)).
    reflexivity.
Qed.

End NegativeClaims.

Section OrderClaims.
Variable Math_cos : float -> float.
Variable P : Type.
Variable getPosition : P -> list float.
Local Open Scope float_scope.

Lemma centerLat_of_perm (points points' : list P) :
  Permutation points points' ->
  centerLat_of points getPosition = centerLat_of points' getPosition.
Proof.
  intros Hp. unfold centerLat_of.
  assert (Hm : Permutation
                 (map (fun p => get_index (getPosition p) 1) points)
                 (map (fun p => get_index (getPosition p) 1) points'))
    by now apply Permutation_map.
  now rewrite (Math_min_perm Hm), (Math_max_perm Hm).
Qed.

(** X8.  The order of the input points only matters for the order of the
    output: two inputs that are permutations of each other get the same
    grid offset, the same keys, under each key the same count and the same
    points up to their order, and layer data with the same positions and
    counts up to the order of the entries. *)
Theorem order_of_points_irrelevant
        (points points' : list P) (cellSize : float) :
  Permutation points points' ->
  let h := _pointsToGridHashing Math_cos points cellSize getPosition in
  let h' := _pointsToGridHashing Math_cos points' cellSize getPosition in
  let data :=
    layerData (pointToDensityGridData Math_cos points cellSize getPosition) in
  let data' :=
    layerData (pointToDensityGridData Math_cos points' cellSize getPosition) in
  gridOffset h = gridOffset h' /\
  Permutation (Object_keys (gridHash h)) (Object_keys (gridHash h')) /\
  (forall key cell cell',
      In (key, cell) (gridHash h) -> In (key, cell') (gridHash h') ->
      GridCell.count cell = GridCell.count cell' /\
      Permutation (GridCell.points cell) (GridCell.points cell')) /\
  Permutation (map (@position_and_count P) data)
              (map (@position_and_count P) data').
Proof.
  intros Hp h h' data data'. subst h h' data data'.
  rewrite !data_layerData, !hashing_gridOffset.
  pose proof (hashing_inv Math_cos getPosition points cellSize) as I.
  pose proof (hashing_inv Math_cos getPosition points' cellSize) as I'.
  assert (Hoff : offset_of Math_cos getPosition points' cellSize
                 = offset_of Math_cos getPosition points cellSize).
  { unfold offset_of. now rewrite (centerLat_of_perm Hp). }
  rewrite Hoff in *.
  set (off := offset_of Math_cos getPosition points cellSize) in *.
  set (k := point_key getPosition off) in *.
  set (h := gridHash (_pointsToGridHashing Math_cos points _ _)) in *.
  set (h' := gridHash (_pointsToGridHashing Math_cos points' _ _)) in *.
  assert (Hg : Permutation (if guard off then [] else points)
                           (if guard off then [] else points'))
    by (destruct (guard off); [constructor|exact Hp]).
  assert (Hkeys : Permutation (Object_keys h) (Object_keys h'))
    by exact (keys_perm Hg I I').
  split; [reflexivity|]. split; [exact Hkeys|]. split.
  - intros key cell cell' Hin Hin'.
    destruct (inv_cells I _ _ Hin) as (Hpts & Hc & _).
    destruct (inv_cells I' _ _ Hin') as (Hpts' & Hc' & _).
    assert (Hperm : Permutation (GridCell.points cell)
                                (GridCell.points cell'))
      by (rewrite Hpts, Hpts'; now apply with_key_perm).
    split; [|exact Hperm].
    rewrite Hc, Hc'. now rewrite (Permutation_length Hperm).
  - rewrite (positions_and_counts_data_from off I),
            (positions_and_counts_data_from off I').
    rewrite (map_ext
               (fun key => (position_of_key off key,
                  Z.of_nat (length (with_key k key
                     (if guard off then [] else points')))))
               (fun key => (position_of_key off key,
                  Z.of_nat (length (with_key k key
                     (if guard off then [] else points)))))).
    + now apply Permutation_map.
    + intros key. f_equal. f_equal. apply Permutation_length.
      apply with_key_perm. now apply Permutation_sym.
Qed.

End OrderClaims.

Section SizeClaims.
Variable Math_cos : float -> float.
Variable P : Type.
Variable getPosition : P -> list float.
Local Open Scope float_scope.

(** X9.  The layer data never has more entries than there are input
    points, and it is empty exactly when the guard returned early or there
    was no point. *)
Theorem entries_bounded (points : list P) (cellSize : float) :
  let data :=
    layerData (pointToDensityGridData Math_cos points cellSize getPosition) in
  (length data <= length points)%nat /\
  (data = [] <->
   guard (offset_of Math_cos getPosition points cellSize) = true \/
   points = []).
Proof.
  intros data. subst data. rewrite data_layerData.
  pose proof (hashing_inv Math_cos getPosition points cellSize) as I.
  set (off := offset_of Math_cos getPosition points cellSize) in *.
  destruct (guard off) eqn:G.
  - unfold off in G. rewrite hashing_guarded by assumption. simpl.
    split; [lia|]. split; auto.
  - unfold off in G. rewrite hashing_binned in * by assumption.
    fold off in G |- *. fold off in I.
    set (k := point_key getPosition off) in *.
    set (h := fold_left (add_point k) points []) in *.
    split.
    + rewrite length_data_from.
      assert (Hs : sum_counts h = Z.of_nat (length points))
        by (exact (sum_counts_fold k points [])).
      assert (Hl : (Z.of_nat (length h) <= sum_counts h)%Z).
      { apply length_le_sum_counts. intros key c Hin.
        destruct (inv_cells I _ _ Hin) as (_ & Hc & Hn).
        rewrite Hc. destruct (GridCell.points c); [congruence|simpl; lia]. }
      lia.
    + split.
      * intros Hd. right.
        destruct points as [|p rest]; [reflexivity|exfalso].
        assert (Hk : In (k p) (Object_keys h))
          by (apply (inv_total I); now left).
        assert (Hlen : length (data_from off 0 h) = length h)
          by apply length_data_from.
        rewrite Hd in Hlen. destruct h; [destruct Hk|discriminate].
      * intros [Hg| ->]; [discriminate|reflexivity].
Qed.

(** X10.  One point whose latitude is NaN, or is missing from its position
    array, makes the reference latitude NaN; when [Math.cos] maps NaN to
    NaN, [xOffset] is then NaN, the guard only tests [yOffset], the
    longitude index of every point is NaN, and the first coordinate of the
    position of every entry of the layer data is NaN. *)
Theorem nan_latitude_poisons (points : list P) (cellSize : float) :
  Math_cos nan = nan ->
  (exists pt, In pt points /\
              is_nan (get_index (getPosition pt) 1) = true) ->
  let result := pointToDensityGridData Math_cos points cellSize getPosition in
  centerLat_of points getPosition = nan /\
  xOffset (data_gridOffset result) = nan /\
  guard (data_gridOffset result) = (yOffset (data_gridOffset result) <=? 0) /\
  (forall pt, lonIdx_of (data_gridOffset result) (getPosition pt) = nan) /\
  (forall datum, In datum (layerData result) ->
                 fst (LayerDatum.position datum) = nan).
Proof.
  intros Hcos (pt & Hpt & Hnan) result.
  assert (Hc : centerLat_of points getPosition = nan).
  { unfold centerLat_of, Math_min.
    rewrite min_loop_nan; [rewrite nan_add_l; apply nan_div_l|].
    exists (get_index (getPosition pt) 1). split; [|assumption].
    apply (in_map (fun p => get_index (getPosition p) 1)), Hpt. }
  assert (Hoff : data_gridOffset result
                 = offset_of Math_cos getPosition points cellSize).
  { subst result. unfold pointToDensityGridData, data_gridOffset.
    apply hashing_gridOffset. }
  assert (Hx : xOffset (data_gridOffset result) = nan).
  { rewrite Hoff.
    unfold offset_of, _calculateGridLatLonOffset, xOffset,
      _calculateLonOffset.
    rewrite Hc.
    replace (nan * Math_PI / 180) with nan by (vm_compute; reflexivity).
    rewrite Hcos. apply div_nan_r. }
  split; [exact Hc|]. split; [exact Hx|]. split; [|split].
  - unfold guard. rewrite Hx, nan_leb. reflexivity.
  - intros q. unfold lonIdx_of. rewrite Hx, div_nan_r. reflexivity.
  - intros datum Hin. subst result.
    rewrite data_layerData in Hin. apply In_data_from in Hin.
    destruct Hin as (j & entry & _ & ->).
    unfold datum_of, LayerDatum.position, fst at 1.
    rewrite <- Hoff, Hx, nan_mul_l. apply add_nan_r.
Qed.

End SizeClaims.

Section OffsetSignClaims.
Local Open Scope float_scope.

(** X11.  The latitude offset is NaN exactly when the cell size is NaN; a
    positive latitude offset comes from a positive cell size only, and a
    negative one from a negative cell size only.  (The converse fails: a
    tiny positive cell size gives the offset zero.) *)
Theorem latOffset_keeps_sign (dy : float) :
  is_nan (_calculateLatOffset dy) = is_nan dy /\
  ((0 <? _calculateLatOffset dy) = true -> (0 <? dy) = true) /\
  ((_calculateLatOffset dy <? 0) = true -> (dy <? 0) = true).
Proof.
  split; [apply _calculateLatOffset_is_nan|].
  pose proof (@_calculateLatOffset_signed dy) as Hs.
  pose proof (@_calculateLatOffset_zero dy) as Hz.
  assert (Hn : Prim2SF dy = S754_nan ->
               Prim2SF (_calculateLatOffset dy) = S754_nan).
  { intros H. apply Prim2SF_nan_inv in H. now subst dy. }
  rewrite !ltb_spec. change (Prim2SF 0) with (S754_zero false).
  split; intros H; destruct (Prim2SF dy) as [s|s| |s m e] eqn:D.
  - rewrite (Hz s eq_refl) in H. destruct s; discriminate H.
  - specialize (Hs s eq_refl). destruct s; [|reflexivity].
    destruct (Prim2SF (_calculateLatOffset dy)) as [[]|[]| |[] m' e'];
      simpl in Hs; try discriminate Hs; try discriminate H; tauto.
  - rewrite (Hn eq_refl) in H. discriminate H.
  - specialize (Hs s eq_refl). destruct s; [|reflexivity].
    destruct (Prim2SF (_calculateLatOffset dy)) as [[]|[]| |[] m' e'];
      simpl in Hs; try discriminate Hs; try discriminate H; tauto.
  - rewrite (Hz s eq_refl) in H. destruct s; discriminate H.
  - specialize (Hs s eq_refl). destruct s; [reflexivity|].
    destruct (Prim2SF (_calculateLatOffset dy)) as [[]|[]| |[] m' e'];
      simpl in Hs; try discriminate Hs; try discriminate H; tauto.
  - rewrite (Hn eq_refl) in H. discriminate H.
  - specialize (Hs s eq_refl). destruct s; [reflexivity|].
    destruct (Prim2SF (_calculateLatOffset dy)) as [[]|[]| |[] m' e'];
      simpl in Hs; try discriminate Hs; try discriminate H; tauto.
Qed.

End OffsetSignClaims.

Section PoleClaims.
Variable Math_cos : float -> float.
Variable P : Type.
Variable getPosition : P -> list float.
Local Open Scope float_scope.

(** X12.  When [Math.cos] of the reference latitude is negative and
    finite, or is the negative zero (a reference latitude beyond a pole),
    and the cell size is not NaN, the guard returns early and the layer
    data is empty, whatever the points are. *)
Theorem negative_cosine_empties (points : list P) (cellSize : float) :
  let c := Math_cos (centerLat_of points getPosition * Math_PI / 180) in
  is_nan cellSize = false ->
  ((c <? 0) = true /\ (neg_infinity <? c) = true) \/ is_neg_zero c = true ->
  guard (offset_of Math_cos getPosition points cellSize) = true /\
  layerData (pointToDensityGridData Math_cos points cellSize getPosition)
  = [].
Proof.
  intros c Hn Hc.
  assert (G : guard (offset_of Math_cos getPosition points cellSize) = true).
  { unfold guard, offset_of, _calculateGridLatLonOffset, xOffset, yOffset.
    destruct (_calculateLatOffset cellSize <=? 0) eqn:Hy;
      [apply orb_true_r|].
    rewrite orb_false_r. unfold _calculateLonOffset. fold c.
    apply div_pos_neg; [|exact Hy|exact Hc].
    change (cellSize / R_EARTH * (180 / Math_PI))
      with (_calculateLatOffset cellSize).
    now rewrite _calculateLatOffset_is_nan. }
  split; [exact G|].
  unfold pointToDensityGridData, layerData.
  now rewrite hashing_guarded.
Qed.

End PoleClaims.

Section InfiniteClaims.
Variable Math_cos : float -> float.
Variable P : Type.
Variable getPosition : P -> list float.
Local Open Scope float_scope.

(** X13.  When the guard does not return early, an input point whose
    latitude quotient is at least 0 and below 2^53 and whose longitude
    quotient is +Infinity or -Infinity (an infinite longitude, or an
    overflow of the division) has that infinity as its longitude index, is
    held by an entry of the layer data, and every entry that holds it has
    a NaN first coordinate: the numeral of an infinity holds no digit for
    [parseInt] to read. *)
Theorem infinite_lon_index_position
        (points : list P) (cellSize : float) (pt : P) :
  let h := _pointsToGridHashing Math_cos points cellSize getPosition in
  let data :=
    layerData (pointToDensityGridData Math_cos points cellSize getPosition) in
  let pos := getPosition pt in
  let lonQuotient := (get_index pos 0 + 180) / xOffset (gridOffset h) in
  guard (gridOffset h) = false ->
  In pt points ->
  small_quotient ((get_index pos 1 + 90) / yOffset (gridOffset h)) ->
  lonQuotient = infinity \/ lonQuotient = neg_infinity ->
  lonIdx_of (gridOffset h) pos = lonQuotient /\
  (exists datum, In datum data /\ In pt (LayerDatum.points datum)) /\
  (forall datum,
     In datum data -> In pt (LayerDatum.points datum) ->
     LayerDatum.position datum
     = (nan, -90 + yOffset (gridOffset h) * latIdx_of (gridOffset h) pos)).
Proof.
  intros h data pos lonQuotient. subst h data pos lonQuotient.
  rewrite hashing_gridOffset.
  intros G Hpt Hlat Hlon.
  set (off := offset_of Math_cos getPosition points cellSize) in *.
  assert (Hidx : lonIdx_of off (getPosition pt)
                 = (get_index (getPosition pt) 0 + 180) / xOffset off).
  { unfold lonIdx_of. destruct Hlon as [-> | ->]; reflexivity. }
  split; [exact Hidx|].
  destruct (entries_of_point Math_cos getPosition points cellSize pt G Hpt)
    as [Hex Hall].
  split; [exact Hex|]. intros datum Hd Hin. rewrite (Hall datum Hd Hin).
  fold off. unfold key_of. rewrite Hidx. unfold latIdx_of.
  assert (Hnorm :
            exists a, (0 <= a < 2 ^ 53)%Z /\
                      Number_toString (Math_floor
                         ((get_index (getPosition pt) 1 + 90) / yOffset off))
                      = Number_toString (Number_of_Z a) /\
                      (Math_floor
                         ((get_index (getPosition pt) 1 + 90) / yOffset off)
                       = Number_of_Z a \/
                       (Math_floor
                          ((get_index (getPosition pt) 1 + 90) / yOffset off)
                        = - 0 /\ Number_of_Z a = 0))).
  { destruct (floor_small Hlat) as [(a & Ha & Hf)|Hf].
    - exists a. rewrite Hf. auto.
    - exists 0%Z. rewrite Hf. split; [lia|]. split; [reflexivity|].
      right. split; reflexivity. }
  destruct Hnorm as (a & Ha & Hsa & Hfa).
  set (q := (get_index (getPosition pt) 0 + 180) / xOffset off) in *.
  assert (Hkey : make_key (Math_floor
                   ((get_index (getPosition pt) 1 + 90) / yOffset off)) q
                 = make_key (Number_of_Z a) q).
  { unfold make_key. now rewrite Hsa. }
  destruct (@key_of_infinite_lon a q Ha Hlon) as [Hklat Hklon].
  cbv zeta in Hklat, Hklon. rewrite Hkey, Hklat, Hklon.
  f_equal.
  - rewrite mul_nan_r. apply add_nan_r.
  - destruct Hfa as [->|[-> ->]]; [reflexivity|].
    apply (@add_mul_zero (-90) (yOffset off) true 6333186975989760 (-46)).
    reflexivity.
Qed.

End InfiniteClaims.

(* ===================================================================== *)
(** * The model run on concrete inputs *)
(* ===================================================================== *)

Section Runs.
Local Open Scope float_scope.
Local Open Scope string_scope.

Example sample_run :
  let result :=
    pointToDensityGridData cos_ref sample_points 1000 own_position in
  map (@LayerDatum.count _) (layerData result) = [2%Z; 1%Z] /\
  map (@LayerDatum.index _) (layerData result) = [0%nat; 1%nat] /\
  map (@LayerDatum.points _) (layerData result)
  = [[[0; 0]; [0.0005; 0.0005]]; [[10; 10]]] /\
  Object_keys
    (gridHash (_pointsToGridHashing cos_ref sample_points 1000 own_position))
  = ["10018-19960"; "11131-21069"].
Proof. vm_compute. repeat split. Qed.

Example Math_floor_samples :
  map Math_floor [0.5; -0.5; 2.9999999999999996; -3; 1e300; -0; nan]
  = [0; -1; 2; -3; 1e300; -0; nan]%float.
Proof. vm_compute. reflexivity. Qed.

Example Number_toString_samples :
  map Number_toString
      [10018; -112; 0; -0; nan; infinity; 0.1; 1e21; 18446744073709551616;
       1e-7; 123.456]%float
  = ["10018"; "-112"; "0"; "0"; "NaN"; "Infinity"; "0.1"; "1e+21";
     "18446744073709552000"; "1e-7"; "123.456"].
Proof. vm_compute. reflexivity. Qed.

Example parseInt10_samples :
  map parseInt10 ["10018"; ""; "112"; "-112"; "1e+21"; "NaN"; "Infinity"]
  = [10018; nan; 112; -112; 1; nan; nan]%float.
Proof. vm_compute. reflexivity. Qed.

(** The midpoint of the range of the latitudes is not their mean. *)
Example midrange_is_not_the_mean :
  centerLat_of [[0; 0]; [0; 0]; [0; 30]] own_position = 15%float /\
  ((0 + 0 + 30) / 3 = 10)%float.
Proof. vm_compute. split; reflexivity. Qed.

End Runs.

(* ===================================================================== *)
(** * Instances of the theorems, and inputs on which claims fail *)
(* ===================================================================== *)

Section Instances.
Local Open Scope float_scope.

(** C1, an instance: the scenario of the specification, with a cosine
    that meets the hypothesis on [Math.cos] and is [cos_ref] there. *)
Lemma counts_cover_points_witness :
  sample_points <> [] /\
  (forall pt, In pt sample_points ->
              within_89 (get_index (own_position pt) 1)) /\
  (0 <? 1000) = true /\
  (0 <? _calculateLatOffset 1000) = true /\
  cosine_on_latitudes cos_checked /\
  layerData
    (pointToDensityGridData cos_checked sample_points 1000 own_position)
  = layerData
      (pointToDensityGridData cos_ref sample_points 1000 own_position) /\
  total_count
    (layerData
       (pointToDensityGridData cos_checked sample_points 1000 own_position))
  = 3%Z.
Proof.
  assert (Hne : sample_points <> []) by discriminate.
  assert (Hlat : forall pt, In pt sample_points ->
                            within_89 (get_index (own_position pt) 1)).
  { intros pt [<-|[<-|[<-|[]]]]; split; vm_compute; reflexivity. }
  assert (Hc : (0 <? 1000) = true) by (vm_compute; reflexivity).
  assert (Hy : (0 <? _calculateLatOffset 1000) = true)
    by (vm_compute; reflexivity).
  split; [exact Hne|]. split; [exact Hlat|]. split; [exact Hc|].
  split; [exact Hy|]. split; [exact cos_checked_on_latitudes|].
  split; [vm_compute; reflexivity|].
  exact (proj1 (proj2 (@counts_cover_points cos_checked _ own_position
                         sample_points 1000 Hne Hlat Hc Hy
                         cos_checked_on_latitudes))).
Defined.

(** C1 as stated fails on a positive cell size so small that [yOffset]
    underflows to zero: one point at latitude 0, [cellSize = 1e-320].  The
    guard returns early (for every [Math.cos], see [underflow_guarded]) and
    the counts add up to 0, not to 1. *)
Lemma tiny_cellSize_counterexample :
  [[0; 0]] <> ([] : list (list float)) /\
  (0 <? 1e-320) = true /\
  (forall p, In p [[0; 0]] ->
             (-89 <? get_index (own_position p) 1) = true /\
             (get_index (own_position p) 1 <? 89) = true) /\
  layerData (pointToDensityGridData cos_ref [[0; 0]] 1e-320 own_position)
  = [] /\
  total_count
    (layerData (pointToDensityGridData cos_ref [[0; 0]] 1e-320 own_position))
  <> Z.of_nat (length [[0; 0]]).
Proof.
  split; [discriminate|]. split; [vm_compute; reflexivity|]. split.
  - intros p [<-|[]]. vm_compute. split; reflexivity.
  - assert (E : layerData
                  (pointToDensityGridData cos_ref [[0; 0]] 1e-320
                     own_position) = []).
    { unfold pointToDensityGridData, layerData.
      rewrite hashing_guarded by apply underflow_guarded. reflexivity. }
    split; [exact E|]. rewrite E. discriminate.
Qed.

(** C4, an instance: a cell size of zero. *)
Lemma degenerate_guard_witness :
  (0 <=? 0) = true /\
  _pointsToGridHashing cos_ref sample_points 0 own_position
  = {| gridHash := [];
       gridOffset := offset_of cos_ref own_position sample_points 0 |}.
Proof.
  split; [reflexivity|].
  apply (@degenerate_guard cos_ref _ own_position sample_points 0).
  right. right. reflexivity.
Defined.

(** C4 as stated fails when an offset is NaN: with [cellSize = NaN] both
    offsets are NaN, the guard does not return early, and the point is
    binned, in the cell of key ["NaN-NaN"]. *)
Lemma nan_offset_counterexample :
  is_nan (xOffset (offset_of cos_ref own_position [[0; 0]] nan)) = true /\
  is_nan (yOffset (offset_of cos_ref own_position [[0; 0]] nan)) = true /\
  gridHash (_pointsToGridHashing cos_ref [[0; 0]] nan own_position)
  = [("NaN-NaN"%string, GridCell.mk 1 [[0; 0]])] /\
  gridHash (_pointsToGridHashing cos_ref [[0; 0]] nan own_position) <> [].
Proof. vm_compute. repeat split. discriminate. Qed.

(** C5: 200000 points and a cell size of zero, on an engine that passes
    at most 125000 arguments (any limit below 200000 gives the same). *)
Lemma long_input_throws_witness :
  let points := repeat [0; 0] 200000 in
  (125000 < length points)%nat /\
  (0 <=? 0) = true /\
  pointToDensityGridData_call cos_ref 125000 points 0 own_position
  = Throws_RangeError.
Proof.
  intros points.
  assert (H : (125000 < length points)%nat).
  { unfold points. rewrite repeat_length. apply Nat.ltb_lt.
    vm_compute. reflexivity. }
  split; [exact H|]. split; [reflexivity|].
  exact (@long_input_throws cos_ref 125000 _ own_position points 0 H).
Defined.

(** X14, an instance: a negative cell size, on an engine that passes at
    most 125000 arguments. *)
Lemma nonpositive_cellSize_empty_witness :
  (length sample_points <= 125000)%nat /\
  (-5 <=? 0) = true /\
  exists result,
    pointToDensityGridData_call cos_ref 125000 sample_points (-5)
                                own_position
    = Returns result /\
    layerData result = [].
Proof.
  assert (H : (length sample_points <= 125000)%nat).
  { apply Nat.leb_le. vm_compute. reflexivity. }
  split; [exact H|]. split; [reflexivity|].
  exact (@nonpositive_cellSize_empty cos_ref 125000 _ own_position
           sample_points (-5) H eq_refl).
Defined.

(** C7, an instance: the scenario of the specification, whose reference
    latitude is 5. *)
Lemma reference_latitude_is_midrange_witness :
  sample_points <> [] /\
  gridOffset (_pointsToGridHashing cos_ref sample_points 1000 own_position)
  = _calculateGridLatLonOffset cos_ref 1000 5.
Proof.
  assert (N : sample_points <> []) by discriminate.
  split; [exact N|].
  exact (proj1 (@reference_latitude_is_midrange cos_ref _ own_position
                  sample_points 1000 N)).
Defined.

(** C8, an instance: with offsets of 1, the latitude -89 has the integral
    quotient 1 and the index 1, and the longitude -177.5 has the quotient
    2.5, from 2 up to 3, and the index 2. *)
Lemma boundary_belongs_to_upper_cell_witness :
  let gridOffset := {| yOffset := 1; xOffset := 1 |} in
  let pos := [-177.5; -89] in
  is_integral ((get_index pos 1 + 90) / yOffset gridOffset) = true /\
  (Number_of_Z 2 <=? (get_index pos 0 + 180) / xOffset gridOffset) = true /\
  ((get_index pos 0 + 180) / xOffset gridOffset <? Number_of_Z 3) = true /\
  latIdx_of gridOffset pos = 1 /\
  lonIdx_of gridOffset pos = 2.
Proof.
  intros gridOffset pos.
  assert (H1 : is_integral ((get_index pos 1 + 90) / yOffset gridOffset)
               = true) by (vm_compute; reflexivity).
  assert (H2 : (Number_of_Z 2
                <=? (get_index pos 0 + 180) / xOffset gridOffset) = true)
    by (vm_compute; reflexivity).
  assert (H3 : ((get_index pos 0 + 180) / xOffset gridOffset
                <? Number_of_Z 3) = true) by (vm_compute; reflexivity).
  split; [exact H1|]. split; [exact H2|]. split; [exact H3|].
  destruct (@boundary_belongs_to_upper_cell gridOffset pos)
    as ((Hlat & _) & (_ & _ & Hlon & _) & _).
  split.
  - rewrite (Hlat H1). vm_compute. reflexivity.
  - rewrite (Hlon 2%Z ltac:(lia) ltac:(split) H2 H3). vm_compute. reflexivity.
Defined.

(** C8 as stated fails on a point that lies exactly on the lower edge of a
    cell.  With [cellSize = 5000], [yOffset] is 0.0449167290005349, and the
    latitude -0.03179181192859335 is exactly [-90 + yOffset * 2003] in the
    arithmetic of the reals: the lower edge of the cells of latitude index
    2003 (it is also above the edge [-90 + yOffset * 2003] as the layer
    data computes it).  The sum [lat + 90] and the division round: the
    quotient is 2002.9999999999998 and the index 2002, so the point is
    assigned to the cell below. *)
Lemma edge_rounding_counterexample :
  let lat := -0.03179181192859335 in
  let h := _pointsToGridHashing cos_ref [[0; lat]] 5000 own_position in
  yOffset (gridOffset h) = 0.0449167290005349 /\
  (Number_scaled lat
   = option_map (fun vy => -90 * 2 ^ 1074 + 2003 * vy)%Z
                (Number_scaled (yOffset (gridOffset h)))) /\
  (-90 + yOffset (gridOffset h) * 2003 <? lat) = true /\
  (lat + 90) / yOffset (gridOffset h) = 2002.9999999999998 /\
  latIdx_of (gridOffset h) [0; lat] = 2002 /\
  Object_keys (gridHash h) = ["2002-4007"%string].
Proof. vm_compute. repeat split. Qed.

(** The same happens to a latitude that is the lower edge of a cell as the
    layer data reports it: with [cellSize = 1000] the cell of latitude
    index 15000 has its lower edge at
    [-90 + yOffset * 15000 = 44.750187001604701]; a point at that latitude
    has the quotient 14999.999999999998 and the index 14999. *)
Example reported_edge_is_binned_below :
  let lat := 44.750187001604701 in
  let gridOffset := offset_of cos_ref own_position [[0; lat]] 1000 in
  -90 + yOffset gridOffset * 15000 = lat /\
  (get_index [0; lat] 1 + 90) / yOffset gridOffset = 14999.999999999998 /\
  latIdx_of gridOffset [0; lat] = 14999 /\
  is_integral 15000 = true.
Proof. vm_compute. repeat split. Qed.

(** C9, an instance: the scenario of the specification, whose first two
    points share a cell. *)
Lemma cells_hold_their_points_witness :
  let h := _pointsToGridHashing cos_ref sample_points 1000 own_position in
  let data :=
    layerData (pointToDensityGridData cos_ref sample_points 1000
                 own_position) in
  guard (gridOffset h) = false /\
  (forall pt, In pt sample_points ->
     exists i cell datum,
       nth_error (gridHash h) i
       = Some (key_of (gridOffset h) (own_position pt), cell) /\
       In pt (GridCell.points cell) /\
       nth_error data i = Some datum /\
       LayerDatum.count datum = GridCell.count cell /\
       LayerDatum.points datum = GridCell.points cell) /\
  map (fun e => (fst e, GridCell.count (snd e), GridCell.points (snd e)))
      (gridHash h)
  = [("10018-19960"%string, 2%Z, [[0; 0]; [0.0005; 0.0005]]);
     ("11131-21069"%string, 1%Z, [[10; 10]])].
Proof.
  intros h data.
  assert (G : guard (gridOffset h) = false) by (vm_compute; reflexivity).
  split; [exact G|]. split.
  - exact (proj1 (proj2 (proj2 (proj2 (proj2
      (@cells_hold_their_points cos_ref _ own_position
         sample_points 1000))))) G).
  - vm_compute. reflexivity.
Defined.

(** C6, an instance: [cos_ref] is zero at the Number nearest to pi / 2. *)
Lemma offsets_as_specified_witness :
  cos_ref (90 * Math_PI / 180) = 0 /\
  (0 <? spec_yOffset 1000) = true /\
  xOffset (_calculateGridLatLonOffset cos_ref 1000 90) = infinity.
Proof.
  assert (Hc : cos_ref (90 * Math_PI / 180) = 0) by (vm_compute; reflexivity).
  assert (Hy : (0 <? spec_yOffset 1000) = true) by (vm_compute; reflexivity).
  split; [exact Hc|]. split; [exact Hy|].
  exact (proj2 (proj2 (proj2 (proj2
           (@offsets_as_specified cos_ref 1000 90)))) Hc Hy).
Defined.

(** C10, an instance: [cos_ref] maps NaN to NaN. *)
Lemma empty_input_witness :
  cos_ref nan = nan /\
  layerData (pointToDensityGridData cos_ref [] 1000 own_position) = [] /\
  xOffset (data_gridOffset
             (pointToDensityGridData cos_ref [] 1000 own_position)) = nan.
Proof.
  assert (H : cos_ref nan = nan) by reflexivity.
  split; [exact H|].
  pose proof (@empty_input cos_ref _ own_position 1000 H) as E.
  split; [exact (proj1 E)|exact (proj1 (proj2 (proj2 (proj2 E))))].
Defined.

(** C2: the position of a cell whose longitude index is negative.  The
    point at longitude -181 has indices (10018, -112) and key
    ["10018--112"]; split at ["-"] the key reads ["10018"; ""; "112"], whose
    second piece parses to NaN.  The position of the entry is
    [(NaN, -0.0048...)], where the formula of the claim gives
    [(-181.006..., -0.0048...)]. *)
Lemma negative_index_position :
  let gridOffset := offset_of cos_ref own_position west_points 1000 in
  latIdx_of gridOffset [-181; 0] = 10018%float /\
  lonIdx_of gridOffset [-181; 0] = (-112)%float /\
  gridHash (_pointsToGridHashing cos_ref west_points 1000 own_position)
  = [("10018--112"%string, GridCell.mk 1 [[-181; 0]])] /\
  map (@LayerDatum.position _)
      (layerData
         (pointToDensityGridData cos_ref west_points 1000 own_position))
  = [(nan, -90 + yOffset gridOffset * 10018)%float] /\
  (-180 + xOffset gridOffset * -112 = -181.00613472961197)%float.
Proof. vm_compute. repeat split. Qed.

(** C3: the indices read back from the key of that cell.  The point of the
    cell re-bins to (10018, -112); the builder reads (10018, NaN) from the
    key. *)
Lemma negative_index_roundtrip :
  let gridOffset := offset_of cos_ref own_position west_points 1000 in
  String_split "-" "10018--112" = ["10018"; ""; "112"]%string /\
  key_latIdx "10018--112" = 10018 /\
  key_lonIdx "10018--112" = nan /\
  lonIdx_of gridOffset [-181; 0] = -112 /\
  key_of gridOffset [-181; 0] = "10018--112"%string.
Proof. vm_compute. repeat split. Qed.

(** X1, an instance: the scenario of the specification. *)
Lemma points_rebin_to_their_cell_witness :
  guard (offset_of cos_ref own_position sample_points 1000) = false /\
  exists cell,
    hash_get
      (key_of
         (gridOffset
            (_pointsToGridHashing cos_ref sample_points 1000 own_position))
         (own_position [10; 10]))
      (gridHash
         (_pointsToGridHashing cos_ref sample_points 1000 own_position))
    = Some cell /\
    In [10; 10] (GridCell.points cell).
Proof.
  assert (G : guard (offset_of cos_ref own_position sample_points 1000)
              = false) by (vm_compute; reflexivity).
  split; [exact G|].
  apply (proj1 (@points_rebin_to_their_cell cos_ref _ own_position
                  sample_points 1000 G)).
  right. right. left. reflexivity.
Defined.

(** X2, an instance: the scenario of the specification. *)
Lemma cells_in_first_touch_order_witness :
  guard (offset_of cos_ref own_position sample_points 1000) = false /\
  map (@LayerDatum.index _)
      (layerData
         (pointToDensityGridData cos_ref sample_points 1000 own_position))
  = seq 0
      (length
         (gridHash
            (_pointsToGridHashing cos_ref sample_points 1000 own_position))).
Proof.
  assert (G : guard (offset_of cos_ref own_position sample_points 1000)
              = false) by (vm_compute; reflexivity).
  split; [exact G|].
  exact (proj2 (@cells_in_first_touch_order cos_ref _ own_position
                  sample_points 1000 G)).
Defined.

(** X3, an instance: one point at the origin. *)
Lemma single_point_single_cell_witness :
  guard (offset_of cos_ref own_position [[0; 0]] 1000) = false /\
  map (@LayerDatum.count _)
      (layerData
         (pointToDensityGridData cos_ref [[0; 0]] 1000 own_position))
  = [1%Z].
Proof.
  assert (G : guard (offset_of cos_ref own_position [[0; 0]] 1000) = false)
    by (vm_compute; reflexivity).
  split; [exact G|].
  rewrite (@single_point_single_cell cos_ref _ own_position [0; 0] 1000 G).
  reflexivity.
Defined.

(** X4, an instance: the second point of the scenario. *)
Lemma small_indices_position_witness :
  let pt := [0.0005; 0.0005]%float in
  let h := _pointsToGridHashing cos_ref sample_points 1000 own_position in
  let data :=
    layerData (pointToDensityGridData cos_ref sample_points 1000 own_position) in
  guard (gridOffset h) = false /\
  In pt sample_points /\
  forall datum,
     In datum data -> In pt (LayerDatum.points datum) ->
     LayerDatum.position datum
     = (-180 + xOffset (gridOffset h) * lonIdx_of (gridOffset h) pt,
        -90 + yOffset (gridOffset h) * latIdx_of (gridOffset h) pt)%float.
Proof.
  intros pt h data.
  assert (G : guard (gridOffset h) = false) by (vm_compute; reflexivity).
  assert (Hin : In pt sample_points) by (right; left; reflexivity).
  split; [exact G|]. split; [exact Hin|].
  apply (@small_indices_position cos_ref _ own_position sample_points 1000 pt
           G Hin).
  - split; vm_compute; reflexivity.
  - split; vm_compute; reflexivity.
Defined.

(** X5, an instance: the key of the first cell of the scenario. *)
Lemma key_roundtrip_witness :
  (0 <= 10018 < 2 ^ 53)%Z /\ (0 <= 19960 < 2 ^ 53)%Z /\
  make_key (Number_of_Z 10018) (Number_of_Z 19960) = "10018-19960"%string /\
  key_latIdx "10018-19960" = 10018 /\
  key_lonIdx "10018-19960" = 19960.
Proof.
  assert (Ha : (0 <= 10018 < 2 ^ 53)%Z) by (split; [lia|reflexivity]).
  assert (Hb : (0 <= 19960 < 2 ^ 53)%Z) by (split; [lia|reflexivity]).
  split; [exact Ha|]. split; [exact Hb|]. split; [vm_compute; reflexivity|].
  destruct (@key_roundtrip 10018 19960 Ha Hb) as (_ & Hlat & Hlon & _).
  split; [exact Hlat|exact Hlon].
Defined.

(** X6, an instance: a point south of the south pole, at longitude 0. *)
Lemma negative_lat_index_position_witness :
  let pt := [0; -91] in
  let points := [pt; [0; 0]] in
  let h := _pointsToGridHashing cos_ref points 1000 own_position in
  let data :=
    layerData (pointToDensityGridData cos_ref points 1000 own_position) in
  guard (gridOffset h) = false /\
  In pt points /\
  forall datum,
     In datum data -> In pt (LayerDatum.points datum) ->
     LayerDatum.position datum
     = (-180 + xOffset (gridOffset h) * - latIdx_of (gridOffset h) pt, nan).
Proof.
  intros pt points h data.
  assert (G : guard (gridOffset h) = false) by (vm_compute; reflexivity).
  assert (Hin : In pt points) by (left; reflexivity).
  split; [exact G|]. split; [exact Hin|].
  apply (@negative_lat_index_position cos_ref _ own_position points 1000
           pt G Hin).
  split; vm_compute; reflexivity.
Defined.

(** X7, an instance: the point west of the antimeridian. *)
Lemma negative_lon_index_position_witness :
  let pt := [-181; 0] in
  let h := _pointsToGridHashing cos_ref west_points 1000 own_position in
  let data :=
    layerData (pointToDensityGridData cos_ref west_points 1000 own_position) in
  guard (gridOffset h) = false /\
  In pt west_points /\
  forall datum,
     In datum data -> In pt (LayerDatum.points datum) ->
     LayerDatum.position datum
     = (nan, -90 + yOffset (gridOffset h) * latIdx_of (gridOffset h) pt).
Proof.
  intros pt h data.
  assert (G : guard (gridOffset h) = false) by (vm_compute; reflexivity).
  assert (Hin : In pt west_points) by (left; reflexivity).
  split; [exact G|]. split; [exact Hin|].
  apply (@negative_lon_index_position cos_ref _ own_position west_points 1000
           pt G Hin).
  - split; vm_compute; reflexivity.
  - split; vm_compute; reflexivity.
Defined.

(** X8, an instance: the scenario and its reverse. *)
Lemma order_of_points_irrelevant_witness :
  Permutation sample_points (rev sample_points) /\
  Permutation
    (map (@position_and_count _)
       (layerData
          (pointToDensityGridData cos_ref sample_points 1000 own_position)))
    (map (@position_and_count _)
       (layerData
          (pointToDensityGridData cos_ref (rev sample_points) 1000
             own_position))).
Proof.
  assert (Hp : Permutation sample_points (rev sample_points))
    by apply Permutation_rev.
  split; [exact Hp|].
  exact (proj2 (proj2 (proj2
    (@order_of_points_irrelevant cos_ref _ own_position
       sample_points (rev sample_points) 1000 Hp)))).
Defined.

(** X10, an instance: a point whose position has no latitude. *)
Lemma nan_latitude_poisons_witness :
  let points := [[0; 0]; [5]] in
  cos_ref nan = nan /\
  In [5] points /\ is_nan (get_index (own_position [5]) 1) = true /\
  forall datum,
    In datum
       (layerData (pointToDensityGridData cos_ref points 1000 own_position)) ->
    fst (LayerDatum.position datum) = nan.
Proof.
  intros points.
  assert (Hcos : cos_ref nan = nan) by (vm_compute; reflexivity).
  assert (Hin : In [5] points) by (right; left; reflexivity).
  assert (Hnan : is_nan (get_index (own_position [5]) 1) = true)
    by (vm_compute; reflexivity).
  split; [exact Hcos|]. split; [exact Hin|]. split; [exact Hnan|].
  exact (proj2 (proj2 (proj2 (proj2
    (@nan_latitude_poisons cos_ref _ own_position points 1000 Hcos
       (ex_intro _ [5] (conj Hin Hnan))))))).
Defined.

(** X11, an instance: a cell size of 1000 m. *)
Lemma latOffset_keeps_sign_witness :
  (0 <? _calculateLatOffset 1000) = true /\ (0 <? 1000) = true.
Proof.
  assert (H : (0 <? _calculateLatOffset 1000) = true)
    by (vm_compute; reflexivity).
  split; [exact H|].
  exact (proj1 (proj2 (latOffset_keeps_sign 1000)) H).
Defined.

(** X12, an instance: a single point at latitude -91. *)
Lemma negative_cosine_empties_witness :
  let points := [[0; -91]] in
  let c := cos_ref (centerLat_of points own_position * Math_PI / 180) in
  is_nan 1000 = false /\
  (c <? 0) = true /\ (neg_infinity <? c) = true /\
  layerData (pointToDensityGridData cos_ref points 1000 own_position) = [].
Proof.
  intros points c.
  assert (Hn : is_nan 1000 = false) by (vm_compute; reflexivity).
  assert (H1 : (c <? 0) = true) by (vm_compute; reflexivity).
  assert (H2 : (neg_infinity <? c) = true) by (vm_compute; reflexivity).
  split; [exact Hn|]. split; [exact H1|]. split; [exact H2|].
  exact (proj2 (@negative_cosine_empties cos_ref _ own_position points 1000
                  Hn (or_introl (conj H1 H2)))).
Defined.

(** X13, an instance: a point at an infinite longitude. *)
Lemma infinite_lon_index_position_witness :
  let pt := [infinity; 0] in
  let points := [pt; [0; 0]] in
  let h := _pointsToGridHashing cos_ref points 1000 own_position in
  let data :=
    layerData (pointToDensityGridData cos_ref points 1000 own_position) in
  guard (gridOffset h) = false /\
  In pt points /\
  forall datum,
     In datum data -> In pt (LayerDatum.points datum) ->
     LayerDatum.position datum
     = (nan, -90 + yOffset (gridOffset h) * latIdx_of (gridOffset h) pt).
Proof.
  intros pt points h data.
  assert (G : guard (gridOffset h) = false) by (vm_compute; reflexivity).
  assert (Hin : In pt points) by (left; reflexivity).
  split; [exact G|]. split; [exact Hin|].
  apply (@infinite_lon_index_position cos_ref _ own_position points 1000
           pt G Hin).
  - split; vm_compute; reflexivity.
  - left. vm_compute. reflexivity.
Defined.

End Instances.
